(** * sync-qdrant.js: the repository-to-Qdrant synchronisation script

    A shallow embedding of [sync-qdrant.js] and the properties of its
    walker, chunk bookkeeping, collection reset and batched upload.

    Conventions of the embedding:
    - JavaScript strings are [string]; arrays are lists; [arr[i]] is the
      list lookup [arr !! i] ([undefined] is [None]);
    - the file system the script scans is a tree of directory entries;
    - the remote services (the Qdrant collection store and the embedding
      provider) are reached through an explicit world state: the store,
      the ordered trace of remote calls with their results, and the
      console; what the services answer is given by an environment;
    - [throw], [try/catch] and [process.exit] are the three outcomes of an
      effectful computation. *)

From Stdlib Require Import Ascii String QArith.
From stdpp Require Import base gmap strings list fin_maps pretty.

Local Open Scope nat_scope.
Local Open Scope list_scope.

(** ** Strings and the [path] module *)

Module Path.

(** [String.prototype.toLowerCase], on the ASCII letters. *)
Definition lower_ascii (c : ascii) : ascii :=
  let n := nat_of_ascii c in
  if (65 <=? n) && (n <=? 90) then ascii_of_nat (n + 32) else c.

Fixpoint toLowerCase (s : string) : string :=
  match s with
  | EmptyString => EmptyString
  | String c s' => String (lower_ascii c) (toLowerCase s')
  end.

Definition sep : ascii := "/"%char.
Definition dot : ascii := "."%char.

(** [path.join(dirPath, item)] for a resolved directory path and a
    directory entry name: the two joined by one separator. *)
Definition join (dirPath item : string) : string :=
  dirPath +:+ "/" +:+ item.

(** [path.basename]: the last non-empty portion of the path; [cur] is
    the portion being read, [last] the latest complete one. *)
Fixpoint basename_from (cur last p : string) : string :=
  match p with
  | EmptyString => if String.eqb cur EmptyString then last else cur
  | String c p' =>
      if Ascii.eqb c sep
      then basename_from EmptyString (if String.eqb cur EmptyString then last else cur) p'
      else basename_from (cur +:+ String c EmptyString) last p'
  end.

Definition basename (p : string) : string := basename_from EmptyString EmptyString p.

(** Index of the last dot of [s], counting from [i]. *)
Fixpoint lastDot_from (i : nat) (found : option nat) (s : string) : option nat :=
  match s with
  | EmptyString => found
  | String c s' =>
      lastDot_from (S i) (if Ascii.eqb c dot then Some i else found) s'
  end.

Fixpoint drop_string (n : nat) (s : string) : string :=
  match n, s with
  | 0, _ => s
  | S n', String _ s' => drop_string n' s'
  | S _, EmptyString => EmptyString
  end.

(** [path.extname]: from the last dot of the last portion to its end;
    empty when there is no dot, when the only dot is the first
    character, and for the portion [".."]. *)
Definition extname (p : string) : string :=
  let b := basename p in
  match lastDot_from 0 None b with
  | None => EmptyString
  | Some 0 => EmptyString
  | Some i => if String.eqb b ".." then EmptyString else drop_string i b
  end.

(** [Array.prototype.includes] on an array of strings. *)
Definition includes (arr : list string) (x : string) : bool :=
  existsb (String.eqb x) arr.

End Path.

Import Path.

(** ** Configuration *)

(** File extensions to include. *)
Definition INCLUDE_EXTENSIONS : list string :=
  [ ".js"; ".jsx"; ".ts"; ".tsx"; ".json"; ".yml"; ".yaml"; ".md"; ".css";
    ".scss"; ".html"; ".py"; ".go"; ".java"; ".c"; ".cpp"; ".h"; ".hpp";
    ".rs"; ".php"; ".rb" ].

(** Directories to exclude. *)
Definition EXCLUDE_DIRS : list string :=
  [ "node_modules"; ".git"; "dist"; "build"; "coverage"; ".next"; ".cache";
    ".husky"; ".vscode"; ".github" ].

Definition shouldExcludeDir (dirPath : string) : bool :=
  let dirname := basename dirPath in
  includes EXCLUDE_DIRS dirname.

Definition shouldIncludeFile (filePath : string) : bool :=
  let ext := toLowerCase (extname filePath) in
  includes INCLUDE_EXTENSIONS ext.

(** ** The file system *)

(** What [stat] and [readdir]/[readFile] find at a directory entry.
    [RegularFile None] is a file whose read fails; [Unlistable] is a
    directory whose [readdir] fails; [Dangling] is an entry whose [stat]
    fails; [Special] is neither a file nor a directory. *)
#[warnings="-register-all"]
Inductive node : Type :=
| RegularFile (content : option string)
| Directory (items : list (string * node))
| Unlistable
| Dangling
| Special.

Inductive error : Type :=
| FsError (syscall path : string)
| EmbeddingError
| QdrantError (operation : string).

Inductive result (A : Type) : Type :=
| Ok (a : A)
| Err (e : error).
Arguments Ok {A} a.
Arguments Err {A} e.

(** The [for (const item of items)] loop of [getFiles], with its
    accumulator [files]; [getFiles] is the function called on a
    sub-directory. *)
Fixpoint getFiles_loop (getFiles : string -> node -> result (list string))
    (dirPath : string) (items : list (string * node)) (files : list string)
    : result (list string) :=
  match items with
  | [] => Ok files
  | (item, n) :: rest =>
      let itemPath := join dirPath item in
      match n with
      | Dangling => Err (FsError "stat" itemPath)
      | Directory _ | Unlistable =>
          if negb (shouldExcludeDir itemPath) then
            match getFiles itemPath n with
            | Ok subFiles =>
                getFiles_loop getFiles dirPath rest (files ++ subFiles)
            | Err e => Err e
            end
          else getFiles_loop getFiles dirPath rest files
      | RegularFile _ =>
          if shouldIncludeFile itemPath
          then getFiles_loop getFiles dirPath rest (files ++ [itemPath])
          else getFiles_loop getFiles dirPath rest files
      | Special => getFiles_loop getFiles dirPath rest files
      end
  end.

(** [getFiles(dirPath)]: [dir] is what lies at [dirPath]. *)
Fixpoint getFiles (dirPath : string) (dir : node) : result (list string) :=
  match dir with
  | Directory items => getFiles_loop getFiles dirPath items []
  | _ => Err (FsError "scandir" dirPath)
  end.

(** [fs.readFile(filePath, 'utf8')] on the tree [repo] lying at
    [repoPath]: the portions of [filePath] below [repoPath] are followed
    from the root. *)
Fixpoint strip_prefix (prefix s : string) : option string :=
  match prefix, s with
  | EmptyString, _ => Some s
  | String a prefix', String b s' =>
      if Ascii.eqb a b then strip_prefix prefix' s' else None
  | String _ _, EmptyString => None
  end.

Fixpoint portions_from (cur : string) (p : string) : list string :=
  match p with
  | EmptyString => [cur]
  | String c p' =>
      if Ascii.eqb c sep then cur :: portions_from EmptyString p'
      else portions_from (cur +:+ String c EmptyString) p'
  end.

Definition portions (p : string) : list string := portions_from EmptyString p.

Fixpoint entry (items : list (string * node)) (name : string) : option node :=
  match items with
  | [] => None
  | (item, n) :: rest => if String.eqb item name then Some n else entry rest name
  end.

Fixpoint descend (n : node) (names : list string) : option node :=
  match names with
  | [] => Some n
  | name :: names' =>
      match n with
      | Directory items =>
          match entry items name with
          | Some child => descend child names'
          | None => None
          end
      | _ => None
      end
  end.

Definition readFile (repoPath : string) (repo : node) (filePath : string)
    : result string :=
  match strip_prefix (repoPath +:+ "/") filePath with
  | Some rel =>
      match descend repo (portions rel) with
      | Some (RegularFile (Some content)) => Ok content
      | _ => Err (FsError "open" filePath)
      end
  | None => Err (FsError "open" filePath)
  end.

(** [path.relative(from, to)] for a path [to] below [from]. *)
Definition relative (from to : string) : string :=
  match strip_prefix (from +:+ "/") to with
  | Some rel => rel
  | None => to
  end.

(** ** Documents and points *)

Record FileData : Type := { path : string; content : string }.

Module Metadata.
Record t : Type := { path : string; chunk : nat; totalChunks : nat }.
End Metadata.

Record Document : Type :=
  { pageContent : string; metadata : Metadata.t }.

(** An embedding vector; the script never looks at its components. *)
Definition vector : Type := list Q.

Module Payload.
Record t : Type := { text : string; metadata : Metadata.t }.
End Payload.

Module Point.
Record t : Type :=
  { id : nat; vector : option (list Q); payload : Payload.t }.
End Point.

(** ** The remote services *)

Record collection : Type :=
  { vectors_size : nat;
    vectors_distance : string;
    points : gmap nat Point.t }.

(** Calls of the Qdrant client. *)
Inductive request : Type :=
| GetCollections
| DeleteCollection (name : string)
| CreateCollection (name : string) (size : nat) (distance : string)
| Upsert (name : string) (points : list Point.t).

(** One remote call and its result: a call of the Qdrant client with
    whether it was served, or a call of [embeddings.embedDocuments] with
    the vectors returned ([None] when it rejects). *)
Inductive event : Type :=
| Qdrant (r : request) (served : bool)
| EmbedDocuments (texts : list string) (reply : option (list vector)).

(** The behaviour of the services during a run, as a function of the
    calls made so far: what the embedding provider returns, and whether
    the Qdrant server accepts a request. *)
Record env : Type :=
  { provider : list event -> list string -> option (list vector);
    accepts : list event -> request -> bool }.

(** A line of the console: [console.log] or [console.error] with the
    error object it prints. The colour escapes of the messages are left
    out. *)
Inductive line : Type :=
| Log (message : string)
| LogError (message : string) (e : option error).

Record world : Type :=
  { store : gmap string collection;
    trace : list event;
    console : list line }.

Definition collectionNames (w : world) : list string :=
  (map_to_list (store w)).*1.

Definition upsertPoints (pts : list Point.t) (c : collection) : collection :=
  {| vectors_size := vectors_size c;
     vectors_distance := vectors_distance c;
     points := foldl (fun m p => <[Point.id p := p]> m) (points c) pts |}.

(** The vector store as the script uses it: named collections of points,
    a point upserted under an id replacing the one stored under it.
    [serve r s] is what a request does to the store when the server
    accepts it; [None] when the server answers with an error (creating a
    collection that exists, upserting into one that does not). *)
Definition serve (r : request) (s : gmap string collection)
    : option (gmap string collection) :=
  match r with
  | GetCollections => Some s
  | DeleteCollection name => Some (delete name s)
  | CreateCollection name size distance =>
      match s !! name with
      | Some _ => None
      | None =>
          Some (<[name := {| vectors_size := size;
                             vectors_distance := distance;
                             points := ∅ |}]> s)
      end
  | Upsert name pts =>
      match s !! name with
      | Some c => Some (<[name := upsertPoints pts c]> s)
      | None => None
      end
  end.

(** ** Effects: state, exceptions and [process.exit] *)

Inductive outcome (A : Type) : Type :=
| Return (a : A)
| Throw (e : error)
| Exit (code : nat).
Arguments Return {A} a.
Arguments Throw {A} e.
Arguments Exit {A} code.

Definition M (A : Type) : Type := world -> outcome A * world.

Definition ret {A} (a : A) : M A := fun w => (Return a, w).

Definition bind {A B} (m : M A) (k : A -> M B) : M B :=
  fun w =>
    match m w with
    | (Return a, w') => k a w'
    | (Throw e, w') => (Throw e, w')
    | (Exit code, w') => (Exit code, w')
    end.

Declare Scope script_scope.
Delimit Scope script_scope with script.
Bind Scope script_scope with M.
Notation "'let!' x ':=' m 'in' k" := (bind m (fun x => k))
  (at level 10, x name, m at level 100, k at level 200) : script_scope.
Notation "m ;; k" := (bind m (fun _ => k))
  (at level 100, k at level 200, right associativity) : script_scope.
Local Open Scope script_scope.

Definition throw {A} (e : error) : M A := fun w => (Throw e, w).

(** [process.exit(code)]: no handler runs after it. *)
Definition process_exit {A} (code : nat) : M A := fun w => (Exit code, w).

(** [try { m } catch (error) { handler }]. *)
Definition try_catch {A} (m : M A) (handler : error -> M A) : M A :=
  fun w =>
    match m w with
    | (Throw e, w') => handler e w'
    | r => r
    end.

Definition lift {A} (r : result A) : M A :=
  match r with
  | Ok a => ret a
  | Err e => throw e
  end.

Definition console_log (message : string) : M unit :=
  fun w => (Return tt,
            {| store := store w; trace := trace w;
               console := console w ++ [Log message] |}).

Definition console_error (message : string) (e : option error) : M unit :=
  fun w => (Return tt,
            {| store := store w; trace := trace w;
               console := console w ++ [LogError message e] |}).

(** ** The script *)

(** The exit code of the process: 0 when the script runs to its end,
    1 when an exception escapes, the argument of [process.exit]
    otherwise. *)
Definition exitCode {A} (r : outcome A) : nat :=
  match r with
  | Return _ => 0
  | Throw _ => 1
  | Exit code => code
  end.

(** The module-level constants the functions read. [None] is an unset
    environment variable. ([QDRANT_URL], [EMBEDDING_MODEL], [CHUNK_SIZE]
    and [CHUNK_OVERLAP] only go into the client and splitter objects.) *)
Record config : Type :=
  { DRY_RUN : bool;
    QDRANT_API_KEY : option string;
    COLLECTION_NAME : string;
    OPENAI_API_KEY : option string }.

(** [!key] for a key that is a string or [undefined]. *)
Definition unset (key : option string) : bool :=
  match key with
  | None => true
  | Some s => String.eqb s EmptyString
  end.

Definition BATCH_SIZE : nat := 100.

(** [documents.slice(i, j)]. *)
Definition slice {A} (l : list A) (i j : nat) : list A :=
  take (j - i) (drop i l).

Section Script.

(** [textSplitter.splitText], the method of the splitter object built
    from [CHUNK_SIZE] and [CHUNK_OVERLAP] when the module is loaded;
    the class comes from the package [@langchain/textsplitters]. *)
Variable splitText : string -> list string.

Variable cfg : config.
Variable E : env.

(** [path.resolve(__dirname)] and the tree lying there. *)
Variable repoPath : string.
Variable repo : node.

(** A call of [qdrantClient]: recorded in the trace, applied to the
    store when served, thrown otherwise. *)
Definition qdrantClient (r : request) : M unit :=
  fun w =>
    match (if accepts E (trace w) r then serve r (store w) else None) with
    | Some s' =>
        (Return tt,
         {| store := s'; trace := trace w ++ [Qdrant r true];
            console := console w |})
    | None =>
        (Throw (QdrantError "request"),
         {| store := store w; trace := trace w ++ [Qdrant r false];
            console := console w |})
    end.

Definition getCollections : M (list string) :=
  fun w =>
    match qdrantClient GetCollections w with
    | (Return _, w') => (Return (collectionNames w'), w')
    | (Throw e, w') => (Throw e, w')
    | (Exit code, w') => (Exit code, w')
    end.

Definition embedDocuments (texts : list string) : M (list vector) :=
  fun w =>
    let reply := provider E (trace w) texts in
    let w' := {| store := store w;
                 trace := trace w ++ [EmbedDocuments texts reply];
                 console := console w |} in
    match reply with
    | Some vs => (Return vs, w')
    | None => (Throw EmbeddingError, w')
    end.

Definition checkRequiredAPIKeys : M unit :=
  (if unset (OPENAI_API_KEY cfg) then
     console_error "Error: OPENAI_API_KEY is not set. Please set it in your .env.qdrant file or environment variables." None ;;
     process_exit 1
   else ret tt) ;;
  (if unset (QDRANT_API_KEY cfg) then
     console_error "Error: QDRANT_API_KEY is not set. Please set it in your .env.qdrant file or environment variables." None ;;
     process_exit 1
   else ret tt).

Definition readFileContent (filePath : string) : M (option FileData) :=
  try_catch
    (let! content := lift (readFile repoPath repo filePath) in
     let relPath := relative repoPath filePath in
     ret (Some {| path := relPath; content := content |}))
    (fun error =>
       console_error ("Error reading file " +:+ filePath +:+ ":") (Some error) ;;
       ret None).

Definition processFile (fileData : option FileData) : M (list Document) :=
  match fileData with
  | None => ret []
  | Some fileData =>
      console_log ("Processing: " +:+ path fileData) ;;
      let texts := splitText (content fileData) in
      let documents :=
        imap (fun i text =>
                {| pageContent := text;
                   metadata := {| Metadata.path := path fileData;
                                  Metadata.chunk := i;
                                  Metadata.totalChunks := length texts |} |})
             texts in
      ret documents
  end.

Definition resetCollection : M unit :=
  try_catch
    (console_log ("Checking if collection '" +:+ COLLECTION_NAME cfg +:+ "' exists...") ;;
     if DRY_RUN cfg then
       console_log "[DRY RUN] Would check if collection exists" ;;
       console_log "[DRY RUN] Would delete existing collection if it exists" ;;
       console_log "[DRY RUN] Would create a new collection with 1536 dimensions" ;;
       ret tt
     else
       let! collections := getCollections in
       let collectionExists :=
         existsb (fun name => String.eqb name (COLLECTION_NAME cfg)) collections in
       (if collectionExists then
          console_log ("Deleting existing collection '" +:+ COLLECTION_NAME cfg +:+ "'...") ;;
          qdrantClient (DeleteCollection (COLLECTION_NAME cfg)) ;;
          console_log "Collection deleted successfully."
        else ret tt) ;;
       console_log ("Creating collection '" +:+ COLLECTION_NAME cfg +:+ "'...") ;;
       qdrantClient (CreateCollection (COLLECTION_NAME cfg) 1536 "Cosine") ;;
       console_log "Collection created successfully.")
    (fun error =>
       console_error "Error resetting collection:" (Some error) ;;
       process_exit 1).

(** The points of the batch [batch], the running total being [count]. *)
Definition batchPoints (count : nat) (batch : list Document)
    (embeddingResults : list vector) : list Point.t :=
  imap (fun idx doc =>
          {| Point.id := count + idx;
             Point.vector := embeddingResults !! idx;
             Point.payload := {| Payload.text := pageContent doc;
                                 Payload.metadata := metadata doc |} |})
       batch.

(** The loop [for (let i = 0; i < documents.length; i += BATCH_SIZE)];
    [fuel] bounds the number of iterations. *)
Fixpoint uploadLoop (fuel : nat) (documents : list Document) (i count : nat)
    : M unit :=
  match fuel with
  | 0 => ret tt
  | S fuel' =>
      if i <? length documents then
        let batch := slice documents i (i + BATCH_SIZE) in
        let texts := map pageContent batch in
        let! embeddingResults := embedDocuments texts in
        let points := batchPoints count batch embeddingResults in
        qdrantClient (Upsert (COLLECTION_NAME cfg) points) ;;
        let count := count + length batch in
        console_log ("Uploaded " +:+ pretty count +:+ "/" +:+
                     pretty (length documents) +:+ " documents...") ;;
        uploadLoop fuel' documents (i + BATCH_SIZE) count
      else ret tt
  end.

Definition uploadToQdrant (documents : list Document) : M unit :=
  try_catch
    (console_log ("Uploading " +:+ pretty (length documents) +:+ " documents to Qdrant...") ;;
     if DRY_RUN cfg then
       console_log "[DRY RUN] Would generate embeddings and upload documents" ;;
       console_log "[DRY RUN] Would process in batches of 100 documents" ;;
       console_log ("[DRY RUN] Would upload " +:+ pretty (length documents) +:+ " documents total") ;;
       ret tt
     else
       uploadLoop (length documents) documents 0 0 ;;
       console_log "Upload completed successfully!")
    (fun error => console_error "Error uploading to Qdrant:" (Some error)).

(** The loop [for (const file of files)] of [syncRepository]. *)
Fixpoint processFiles (files : list string) (allDocuments : list Document)
    : M (list Document) :=
  match files with
  | [] => ret allDocuments
  | file :: rest =>
      let! fileData := readFileContent file in
      let! documents := processFile fileData in
      processFiles rest (allDocuments ++ documents)
  end.

Definition syncRepository : M unit :=
  try_catch
    (console_log "Starting LibreChat repository sync to Qdrant..." ;;
     (if DRY_RUN cfg then
        console_log "[DRY RUN MODE] No changes will be made to the vector database"
      else ret tt) ;;
     checkRequiredAPIKeys ;;
     resetCollection ;;
     console_log ("Scanning repository at: " +:+ repoPath) ;;
     let! files := lift (getFiles repoPath repo) in
     console_log ("Found " +:+ pretty (length files) +:+ " files to process.") ;;
     let! allDocuments := processFiles files [] in
     console_log ("Created " +:+ pretty (length allDocuments) +:+
                  " document chunks from " +:+ pretty (length files) +:+ " files.") ;;
     uploadToQdrant allDocuments ;;
     if DRY_RUN cfg then
       console_log "[DRY RUN] Repository sync simulation completed"
     else
       console_log "Repository sync completed successfully!")
    (fun error =>
       console_error "Error syncing repository:" (Some error) ;;
       process_exit 1).

(** The process: [syncRepository()] is the last statement of the
    module; the exit code is 0 unless [process.exit] was called or an
    exception escaped. *)
Definition main (w : world) : nat * world :=
  let (r, w') := syncRepository w in (exitCode r, w').

End Script.

Definition initial : world := {| store := ∅; trace := []; console := [] |}.

(** ** The text chunker *)

Module Chunker.

(** Modelled from the spec: the configuration of the text chunker
    (section 4.1), sizes in characters. In the script the chunker is
    [RecursiveCharacterTextSplitter] of the package
    [@langchain/textsplitters], whose code is not under src/. *)
Record options : Type := { chunkSize : nat; chunkOverlap : nat }.

(** Modelled from the spec: the boundaries the chunker prefers to break
    on, in priority order: paragraph break, line break, word break. *)
Definition paragraphBreak : list ascii := ["010"%char; "010"%char].

Definition lineBreak : list ascii := ["010"%char].

Definition wordBreak : list ascii := [" "%char].

Definition endsWith (boundary l : list ascii) : bool :=
  (length boundary <=? length l)
  && bool_decide (drop (length l - length boundary) l = boundary).

(** Modelled from the spec: the last cut of at most [c] characters of
    [window] that ends on the boundary, if there is one. *)
Fixpoint lastCut (boundary window : list ascii) (c : nat) : option nat :=
  match c with
  | 0 => None
  | S c' =>
      if endsWith boundary (take c window) then Some c
      else lastCut boundary window c'
  end.

(** Modelled from the spec: where the window is cut: at the last
    boundary of the highest priority available within the window, a raw
    character cut at the end of the window when there is none. *)
Definition cutAt (window : list ascii) : nat :=
  match lastCut paragraphBreak window (length window) with
  | Some c => c
  | None =>
      match lastCut lineBreak window (length window) with
      | Some c => c
      | None =>
          match lastCut wordBreak window (length window) with
          | Some c => c
          | None => length window
          end
      end
  end.

Definition lastN {A} (n : nat) (l : list A) : list A :=
  drop (length l - n) l.

(** Modelled from the spec: the chunks of the text [rest], [carry] being
    the overlap taken from the end of the chunk before. A chunk is the
    overlap followed by new characters, within the size budget; the
    last chunk takes all that is left. [fuel] bounds the number of
    chunks. *)
Fixpoint chunksFrom (fuel size overlap : nat) (carry rest : list ascii)
    : list (list ascii) :=
  match fuel with
  | 0 => []
  | S fuel' =>
      match rest with
      | [] => []
      | _ :: _ =>
          let room := size - length carry in
          if length rest <=? room then [carry ++ rest]
          else
            let c := cutAt (take room rest) in
            let chunk := carry ++ take c rest in
            chunk :: chunksFrom fuel' size overlap (lastN overlap chunk)
                                (drop c rest)
      end
  end.

(** Modelled from the spec: the ordered sequence of chunk texts of
    [content] (section 4.1); [textSplitter.splitText] in the script. *)
Definition splitText (o : options) (content : string) : list string :=
  let chars := list_ascii_of_string content in
  string_of_list_ascii
    <$> chunksFrom (length chars) (chunkSize o) (chunkOverlap o) [] chars.

Inductive construction : Type :=
| Constructed (splitText : string -> list string)
| ConfigurationError.

(** Modelled from the spec: the construction of the chunker, which
    fails with ConfigurationError if chunkOverlap >= chunkSize (section
    4.1); [new RecursiveCharacterTextSplitter] in the script. *)
Definition construct (o : options) : construction :=
  if chunkSize o <=? chunkOverlap o then ConfigurationError
  else Constructed (splitText o).

(** The example of the specification: chunkSize 4, chunkOverlap 2. *)
Definition example : options := {| chunkSize := 4; chunkOverlap := 2 |}.

End Chunker.

(** ** The text splitter of the script *)

(** The splitter the script constructs (lines 91-94) and calls in
    [processFile] (line 192) is [RecursiveCharacterTextSplitter] of the
    package [@langchain/textsplitters]. Its code is not under src/: the
    definitions of this module follow the classes [TextSplitter] and
    [RecursiveCharacterTextSplitter] of the package, with what the
    constructor call of the script leaves at its default: the separators,
    [keepSeparator] (true) and [lengthFunction] (the length of the
    string). A text is the list of the characters of a string. Unlike
    the chunker of the specification above, this splitter removes the
    white space at the ends of a chunk. *)
Module TextSplitter.

Record fields : Type := { chunkSize : nat; chunkOverlap : nat }.

(** The separators of [RecursiveCharacterTextSplitter]: two line feeds,
    one line feed, a space, the empty string. *)
Definition separators : list (list ascii) :=
  [ ["010"%char; "010"%char]; ["010"%char]; [" "%char]; [] ].

(** The characters [String.prototype.trim] removes, among the
    characters below 256: tab, line feed, vertical tab, form feed,
    carriage return, space and no-break space. *)
Definition isSpace (c : ascii) : bool :=
  let n := nat_of_ascii c in
  ((9 <=? n) && (n <=? 13)) || (n =? 32) || (n =? 160).

Fixpoint trimStart (text : list ascii) : list ascii :=
  match text with
  | [] => []
  | c :: text' => if isSpace c then trimStart text' else text
  end.

Definition trimEnd (text : list ascii) : list ascii :=
  reverse (trimStart (reverse text)).

Definition trim (text : list ascii) : list ascii := trimEnd (trimStart text).

(** [text.startsWith(s)]. *)
Fixpoint startsWith (s text : list ascii) : bool :=
  match s, text with
  | [], _ => true
  | a :: s', b :: text' => Ascii.eqb a b && startsWith s' text'
  | _ :: _, [] => false
  end.

(** [text.includes(s)]. *)
Fixpoint includes (text s : list ascii) : bool :=
  match text with
  | [] => startsWith s []
  | _ :: text' => startsWith s text || includes text' s
  end.

(** [text.split(new RegExp(`(?=${separator})`))]: the text is cut
    before every occurrence of the separator, except at its start; [cur]
    is the piece being read. *)
Fixpoint splitAhead (separator cur text : list ascii) : list (list ascii) :=
  match text with
  | [] => match cur with [] => [] | _ :: _ => [cur] end
  | c :: text' =>
      match cur with
      | [] => splitAhead separator [c] text'
      | _ :: _ =>
          if startsWith separator text
          then cur :: splitAhead separator [c] text'
          else splitAhead separator (cur ++ [c]) text'
      end
  end.

(** [splitOnSeparator(text, separator)] with [keepSeparator]: the pieces
    before each occurrence of the separator, or the characters one by
    one for the empty separator; no piece is empty, so that the filter
    of the empty pieces removes none. *)
Definition splitOnSeparator (text separator : list ascii)
    : list (list ascii) :=
  match separator with
  | [] => (fun c => [c]) <$> text
  | _ :: _ => splitAhead separator [] text
  end.

(** [docs.join(separator)]. *)
Fixpoint join (docs : list (list ascii)) (separator : list ascii)
    : list ascii :=
  match docs with
  | [] => []
  | [d] => d
  | d :: docs' => d ++ separator ++ join docs' separator
  end.

(** [joinDocs(docs, separator)]: the pieces joined and trimmed; [null]
    ([None]) when nothing is left. *)
Definition joinDocs (docs : list (list ascii)) (separator : list ascii)
    : option (list ascii) :=
  match trim (join docs separator) with
  | [] => None
  | text => Some text
  end.

Section Splitter.

Variable this : fields.

(** The [while] loop of [mergeSplits], which shifts pieces off the front
    of [currentDoc]: [len] is the length of the piece to come, [seplen]
    the length of the separator. [total] is the sum of the lengths of
    the pieces of [currentDoc], so that the loop ends before
    [currentDoc] is empty or with it. *)
Fixpoint shifting (len seplen : nat) (currentDoc : list (list ascii))
    (total : nat) : list (list ascii) * nat :=
  match currentDoc with
  | [] => ([], total)
  | first :: currentDoc' =>
      if (chunkOverlap this <? total)
         || ((chunkSize this <? total + len + length currentDoc * seplen)
             && (0 <? total))
      then shifting len seplen currentDoc' (total - length first)
      else (currentDoc, total)
  end.

(** The [for] loop of [mergeSplits] over the pieces still to come, with
    [currentDoc] and [total]; the result is what is pushed on [docs]
    from there on, in order. *)
Fixpoint merging (separator : list ascii) (splits : list (list ascii))
    (currentDoc : list (list ascii)) (total : nat) : list (list ascii) :=
  match splits with
  | [] => option_list (joinDocs currentDoc separator)
  | d :: splits' =>
      let len := length d in
      if (chunkSize this
          <? total + len + length currentDoc * length separator)
         && (0 <? length currentDoc)
      then
        let kept := shifting len (length separator) currentDoc total in
        option_list (joinDocs currentDoc separator)
        ++ merging separator splits' (kept.1 ++ [d]) (kept.2 + len)
      else merging separator splits' (currentDoc ++ [d]) (total + len)
  end.

Definition mergeSplits (splits : list (list ascii)) (separator : list ascii)
    : list (list ascii) :=
  merging separator splits [] 0.

(** The [for] loop of [_splitText] over the pieces, with [goodSplits];
    the result is what is pushed on [finalChunks] from there on.
    [deeper] is what is done with a piece that is not shorter than
    [chunkSize]. The pieces are merged with the empty separator, as
    [keepSeparator] is set. *)
Fixpoint eachSplit (deeper : list ascii -> list (list ascii))
    (splits goodSplits : list (list ascii)) : list (list ascii) :=
  match splits with
  | [] =>
      match goodSplits with
      | [] => []
      | _ :: _ => mergeSplits goodSplits []
      end
  | s :: splits' =>
      if length s <? chunkSize this
      then eachSplit deeper splits' (goodSplits ++ [s])
      else
        match goodSplits with
        | [] => []
        | _ :: _ => mergeSplits goodSplits []
        end
        ++ deeper s ++ eachSplit deeper splits' []
  end.

(** [_splitText(text, separators)]: the text is split on the first
    separator it includes, or into characters; a piece that is too long
    is split with the separators that follow, or pushed as it is when
    the characters were reached. The separators end with the empty one,
    so that the case of no separator is not reached. *)
Fixpoint _splitText (separators : list (list ascii)) (text : list ascii)
    : list (list ascii) :=
  match separators with
  | [] => eachSplit (fun s => [s]) (splitOnSeparator text []) []
  | [] :: _ => eachSplit (fun s => [s]) (splitOnSeparator text []) []
  | (_ :: _) as s :: newSeparators =>
      if includes text s
      then eachSplit (_splitText newSeparators) (splitOnSeparator text s) []
      else _splitText newSeparators text
  end.

(** [splitText(text)]. *)
Definition splitText (content : string) : list string :=
  string_of_list_ascii
    <$> _splitText separators (list_ascii_of_string content).

End Splitter.

Inductive construction : Type :=
| Constructed (splitText : string -> list string)
| Thrown (message : string).

(** [new RecursiveCharacterTextSplitter({ chunkSize, chunkOverlap })]:
    the constructor throws when chunkOverlap >= chunkSize. *)
Definition construct (o : fields) : construction :=
  if chunkSize o <=? chunkOverlap o
  then Thrown "Cannot have chunkOverlap >= chunkSize"
  else Constructed (splitText o).

(** The example of the specification: chunkSize 4, chunkOverlap 2. *)
Definition example : fields := {| chunkSize := 4; chunkOverlap := 2 |}.

End TextSplitter.

(** ** Notions the properties are stated with *)

(** [located dirPath dir ds f]: the regular file of path [f] lies in the
    tree [dir] rooted at [dirPath], and [ds] are the paths of the
    directories below the root that contain it, outermost first. *)
Inductive located : string -> node -> list string -> string -> Prop :=
| located_here dirPath items item c :
    (item, RegularFile c) ∈ items ->
    located dirPath (Directory items) [] (join dirPath item)
| located_below dirPath items item sub ds f :
    (item, sub) ∈ items ->
    located (join dirPath item) sub ds f ->
    located dirPath (Directory items) (join dirPath item :: ds) f.

(** What the walker lets through: a regular file with an included
    extension, reached through directories none of which is excluded. *)
Definition kept (dirPath : string) (dir : node) (f : string) : Prop :=
  exists ds, located dirPath dir ds f
             /\ Forall (fun d => shouldExcludeDir d = false) ds
             /\ shouldIncludeFile f = true.

(** A directory entry name: not empty and without a separator. *)
Fixpoint noSep (s : string) : bool :=
  match s with
  | EmptyString => true
  | String c s' => negb (Ascii.eqb c sep) && noSep s'
  end.

Definition validName (name : string) : bool :=
  negb (String.eqb name EmptyString) && noSep name.

(** The entries of a directory have valid, pairwise distinct names. *)
Fixpoint entriesOk (wellFormed : node -> bool) (items : list (string * node))
    : bool :=
  match items with
  | [] => true
  | (item, n) :: rest =>
      validName item
      && negb (existsb (fun e => String.eqb e.1 item) rest)
      && wellFormed n
      && entriesOk wellFormed rest
  end.

Fixpoint wellFormed (n : node) : bool :=
  match n with
  | Directory items => entriesOk wellFormed items
  | _ => true
  end.

(** The value of [readFileContent] and of [processFile], without the
    console. *)
Definition fileDataOf (repoPath : string) (repo : node) (filePath : string)
    : option FileData :=
  match readFile repoPath repo filePath with
  | Ok content =>
      Some {| path := relative repoPath filePath; content := content |}
  | Err _ => None
  end.

Definition chunksOf (splitText : string -> list string)
    (fileData : option FileData) : list Document :=
  match fileData with
  | None => []
  | Some fileData =>
      imap (fun i text =>
              {| pageContent := text;
                 metadata :=
                   {| Metadata.path := path fileData;
                      Metadata.chunk := i;
                      Metadata.totalChunks :=
                        length (splitText (content fileData)) |} |})
           (splitText (content fileData))
  end.

(** The chunk list of a run: the chunks of every file, in walk order. *)
Definition documentsOf (splitText : string -> list string)
    (repoPath : string) (repo : node) (files : list string) : list Document :=
  flat_map (fun file => chunksOf splitText (fileDataOf repoPath repo file)) files.

Definition payloadOf (doc : Document) : Payload.t :=
  {| Payload.text := pageContent doc; Payload.metadata := metadata doc |}.

(** The remote calls a run made: its trace beyond the one it started
    with. *)
Definition issued (w w' : world) : list event :=
  drop (length (trace w)) (trace w').

Definition succeeded (ev : event) : bool :=
  match ev with
  | Qdrant _ served => served
  | EmbedDocuments _ reply => bool_decide (is_Some reply)
  end.

Definition isUpsert (ev : event) : bool :=
  match ev with
  | Qdrant (Upsert _ _) _ => true
  | _ => false
  end.

Definition freshCollection : collection :=
  {| vectors_size := 1536; vectors_distance := "Cosine"; points := ∅ |}.

(** Number of points of the collection [name], and the payload stored
    under a point id. *)
Definition pointCount (name : string) (s : gmap string collection) : nat :=
  match s !! name with
  | Some c => size (points c)
  | None => 0
  end.

Definition payloadAt (name : string) (s : gmap string collection) (id : nat)
    : option Payload.t :=
  match s !! name with
  | Some c => Point.payload <$> points c !! id
  | None => None
  end.

(** The calls of the upload loop from index [i] on, with the store before
    and after: batch after batch an embedding request and the upsert of
    its points, until the documents are exhausted or a call fails. *)
Inductive upload_run (name : string) (documents : list Document)
  : nat -> gmap string collection -> list event -> gmap string collection -> Prop :=
| upload_finished i s :
    length documents <= i ->
    upload_run name documents i s [] s
| upload_embed_failed i s :
    i < length documents ->
    upload_run name documents i s
      [EmbedDocuments (map pageContent (slice documents i (i + BATCH_SIZE))) None] s
| upload_upsert_failed i s vs :
    i < length documents ->
    upload_run name documents i s
      [EmbedDocuments (map pageContent (slice documents i (i + BATCH_SIZE))) (Some vs);
       Qdrant (Upsert name (batchPoints i (slice documents i (i + BATCH_SIZE)) vs)) false] s
| upload_batch i s vs s1 evs s' :
    i < length documents ->
    serve (Upsert name (batchPoints i (slice documents i (i + BATCH_SIZE)) vs)) s = Some s1 ->
    upload_run name documents (i + BATCH_SIZE) s1 evs s' ->
    upload_run name documents i s
      (EmbedDocuments (map pageContent (slice documents i (i + BATCH_SIZE))) (Some vs)
       :: Qdrant (Upsert name (batchPoints i (slice documents i (i + BATCH_SIZE)) vs)) true
       :: evs) s'.

(** The calls of [resetCollection]: only collection management. *)
Definition isReset (ev : event) : bool :=
  match ev with
  | Qdrant GetCollections _ => true
  | Qdrant (DeleteCollection _) _ => true
  | Qdrant (CreateCollection _ _ _) _ => true
  | _ => false
  end.

(** The ways a run of the script goes, from world [w] to world [w']
    with exit code [code]. *)
Inductive sync_run (splitText : string -> list string) (cfg : config)
    (repoPath : string) (repo : node) (w w' : world) (code : nat) : Prop :=
| run_keys_unset :
    unset (OPENAI_API_KEY cfg) || unset (QDRANT_API_KEY cfg) = true ->
    trace w' = trace w -> store w' = store w -> code = 1 ->
    sync_run splitText cfg repoPath repo w w' code
| run_dry :
    unset (OPENAI_API_KEY cfg) || unset (QDRANT_API_KEY cfg) = false ->
    DRY_RUN cfg = true ->
    trace w' = trace w -> store w' = store w ->
    sync_run splitText cfg repoPath repo w w' code
| run_reset_failed evs :
    unset (OPENAI_API_KEY cfg) || unset (QDRANT_API_KEY cfg) = false ->
    DRY_RUN cfg = false ->
    trace w' = trace w ++ evs ->
    Forall (fun ev => isReset ev = true) evs ->
    Exists (fun ev => succeeded ev = false) evs ->
    code = 1 ->
    sync_run splitText cfg repoPath repo w w' code
| run_scan_failed evs e :
    unset (OPENAI_API_KEY cfg) || unset (QDRANT_API_KEY cfg) = false ->
    DRY_RUN cfg = false ->
    trace w' = trace w ++ evs ->
    Forall (fun ev => isReset ev = true) evs ->
    store w' !! COLLECTION_NAME cfg = Some freshCollection ->
    getFiles repoPath repo = Err e ->
    code = 1 ->
    sync_run splitText cfg repoPath repo w w' code
| run_uploaded evs s1 files uevs :
    unset (OPENAI_API_KEY cfg) || unset (QDRANT_API_KEY cfg) = false ->
    DRY_RUN cfg = false ->
    trace w' = trace w ++ evs ++ uevs ->
    Forall (fun ev => isReset ev = true) evs ->
    s1 !! COLLECTION_NAME cfg = Some freshCollection ->
    getFiles repoPath repo = Ok files ->
    upload_run (COLLECTION_NAME cfg)
      (documentsOf splitText repoPath repo files) 0 s1 uevs (store w') ->
    code = 0 ->
    sync_run splitText cfg repoPath repo w w' code.

(** The id, path and chunk index of every point of every upsert of a
    trace, in order. *)
Definition pointKeys (evs : list event) : list (nat * (string * nat)) :=
  flat_map
    (fun ev =>
       match ev with
       | Qdrant (Upsert _ pts) _ =>
           map (fun p =>
                  (Point.id p,
                   (Metadata.path (Payload.metadata (Point.payload p)),
                    Metadata.chunk (Payload.metadata (Point.payload p)))))
               pts
       | _ => []
       end)
    evs.

(** [wp m w Q]: running [m] from the world [w] ends with an outcome and
    a world that satisfy [Q]. *)
Definition wp {A} (m : M A) (w : world) (Q : outcome A -> world -> Prop) : Prop :=
  Q (m w).1 (m w).2.

(** [accounts overlap before chunks text]: the chunks account for the
    text that follows [before], piece by piece. Every piece of the text
    gives at most one chunk, in order: the piece as it is; or the piece
    after an overlap of at most [overlap] characters taken from the end
    of the text before it, with the white space at both ends removed;
    or no chunk when that leaves nothing. *)
Inductive accounts (overlap : nat)
  : list ascii -> list (list ascii) -> list ascii -> Prop :=
| accounts_end before :
    accounts overlap before [] []
| accounts_whole before piece chunks rest :
    piece <> [] ->
    accounts overlap (before ++ piece) chunks rest ->
    accounts overlap before (piece :: chunks) (piece ++ rest)
| accounts_trimmed before carry piece chunks rest :
    piece <> [] ->
    carry `suffix_of` before ->
    length carry <= overlap ->
    TextSplitter.trim (carry ++ piece) <> [] ->
    accounts overlap (before ++ piece) chunks rest ->
    accounts overlap before
             (TextSplitter.trim (carry ++ piece) :: chunks) (piece ++ rest)
| accounts_blank before carry piece chunks rest :
    piece <> [] ->
    carry `suffix_of` before ->
    length carry <= overlap ->
    TextSplitter.trim (carry ++ piece) = [] ->
    accounts overlap (before ++ piece) chunks rest ->
    accounts overlap before chunks (piece ++ rest).

(** ** Sample inputs *)

Module Sample.

(** A splitter that keeps a non-empty text whole. *)
Definition whole (s : string) : list string :=
  if String.eqb s EmptyString then [] else [s].

Definition cfg : config :=
  {| DRY_RUN := false;
     QDRANT_API_KEY := Some "qdrant-key";
     COLLECTION_NAME := "librechat-code";
     OPENAI_API_KEY := Some "openai-key" |}.

Definition dry : config :=
  {| DRY_RUN := true;
     QDRANT_API_KEY := Some "qdrant-key";
     COLLECTION_NAME := "librechat-code";
     OPENAI_API_KEY := Some "openai-key" |}.

(** Two-component vectors: not the 1536 of the collection. *)
Definition short : vector := [1 # 2; 3 # 4].

(** Services that answer every call. *)
Definition up : env :=
  {| provider := fun _ texts => Some (map (fun _ => short) texts);
     accepts := fun _ _ => true |}.

(** Services where Qdrant rejects every upsert. *)
Definition upsertDown : env :=
  {| provider := fun _ texts => Some (map (fun _ => short) texts);
     accepts := fun _ r => match r with Upsert _ _ => false | _ => true end |}.

Definition repo : node :=
  Directory
    [ ("a.js", RegularFile (Some "alpha"));
      ("node_modules", Directory [("m.js", RegularFile (Some "mu"))]);
      ("src", Directory [ ("B.TS", RegularFile (Some "beta"));
                          ("c.txt", RegularFile (Some "gamma"));
                          ("d.md", RegularFile None) ]) ].

(** The same tree without its first file. *)
Definition repo' : node :=
  Directory
    [ ("node_modules", Directory [("m.js", RegularFile (Some "mu"))]);
      ("src", Directory [ ("B.TS", RegularFile (Some "beta"));
                          ("c.txt", RegularFile (Some "gamma"));
                          ("d.md", RegularFile None) ]) ].

(** A splitter that cuts every text into 101 chunks, one more than a
    batch holds. *)
Definition many (s : string) : list string := replicate 101 s.

(** Services where Qdrant serves the first upsert and rejects the
    later ones. *)
Definition secondUpsertDown : env :=
  {| provider := fun _ texts => Some (map (fun _ => short) texts);
     accepts := fun history r =>
                  match r with
                  | Upsert _ _ => negb (existsb isUpsert history)
                  | _ => true
                  end |}.

(** A tree with one file. *)
Definition single : node := Directory [("a.js", RegularFile (Some "alpha"))].

(** The chunk lists of the sample runs. *)
Definition documents : list Document :=
  documentsOf whole "/repo" repo
    ["/repo/a.js"; "/repo/src/B.TS"; "/repo/src/d.md"].

Definition manyDocuments : list Document :=
  documentsOf many "/repo" single ["/repo/a.js"].

(** The sample runs, each from the initial world: exit code and final
    world. [uploaded] and [again] are two runs in a row. They are
    abbreviations, so that a run reads the same wherever it is named. *)
Abbreviation uploaded := (main whole cfg up "/repo" repo initial).

Abbreviation again := (main whole cfg up "/repo" repo uploaded.2).

Abbreviation pruned := (main whole cfg up "/repo" repo' initial).

Abbreviation small := (main whole cfg up "/repo" single initial).

Abbreviation rejected :=
  (main whole cfg upsertDown "/repo" repo initial).

Abbreviation interrupted :=
  (main many cfg secondUpsertDown "/repo" single initial).

Abbreviation simulated := (main whole dry up "/repo" repo initial).

(** The point of the chunk of [src/B.TS] in the run [uploaded]. *)
Definition beta : Point.t :=
  {| Point.id := 1;
     Point.vector := Some short;
     Point.payload :=
       {| Payload.text := "beta";
          Payload.metadata := {| Metadata.path := "src/B.TS";
                                 Metadata.chunk := 0;
                                 Metadata.totalChunks := 1 |} |} |}.

End Sample.

(** * Notions for the further properties *)

(** The points of the upsert requests of a trace, in order: those of all
    the requests, and those of the requests that were served. *)
Definition requestedPoints (evs : list event) : list Point.t :=
  flat_map (fun ev => match ev with
                      | Qdrant (Upsert _ pts) _ => pts
                      | _ => []
                      end) evs.

Definition upsertedPoints (evs : list event) : list Point.t :=
  flat_map (fun ev => match ev with
                      | Qdrant (Upsert _ pts) true => pts
                      | _ => []
                      end) evs.

(** A call that names a collection names [name]. *)
Definition targets (name : string) (ev : event) : bool :=
  match ev with
  | Qdrant (DeleteCollection n) _ => String.eqb n name
  | Qdrant (CreateCollection n _ _) _ => String.eqb n name
  | Qdrant (Upsert n _) _ => String.eqb n name
  | _ => true
  end.

(** The calls of [resetCollection] without [--dry-run], from the store
    [s]: the listing, the deletion when the collection is listed, the
    creation; the first call that fails ends the process. *)
Inductive reset_run (name : string) (s : gmap string collection)
  : list event -> outcome unit -> gmap string collection -> Prop :=
| reset_listing_failed :
    reset_run name s [Qdrant GetCollections false] (Exit 1) s
| reset_delete_failed :
    is_Some (s !! name) ->
    reset_run name s
      [Qdrant GetCollections true; Qdrant (DeleteCollection name) false]
      (Exit 1) s
| reset_create_failed_after_delete :
    is_Some (s !! name) ->
    reset_run name s
      [Qdrant GetCollections true; Qdrant (DeleteCollection name) true;
       Qdrant (CreateCollection name 1536 "Cosine") false]
      (Exit 1) (delete name s)
| reset_create_failed :
    s !! name = None ->
    reset_run name s
      [Qdrant GetCollections true;
       Qdrant (CreateCollection name 1536 "Cosine") false]
      (Exit 1) s
| reset_replaced :
    is_Some (s !! name) ->
    reset_run name s
      [Qdrant GetCollections true; Qdrant (DeleteCollection name) true;
       Qdrant (CreateCollection name 1536 "Cosine") true]
      (Return tt) (<[name := freshCollection]> s)
| reset_created :
    s !! name = None ->
    reset_run name s
      [Qdrant GetCollections true;
       Qdrant (CreateCollection name 1536 "Cosine") true]
      (Return tt) (<[name := freshCollection]> s).

(** The ways a run goes, with the calls of the reset and the exit code
    in each. *)
Inductive run_detail (splitText : string -> list string) (cfg : config)
    (repoPath : string) (repo : node) (w w' : world) (code : nat) : Prop :=
| detail_keys_unset :
    unset (OPENAI_API_KEY cfg) || unset (QDRANT_API_KEY cfg) = true ->
    trace w' = trace w -> store w' = store w -> code = 1 ->
    run_detail splitText cfg repoPath repo w w' code
| detail_dry :
    unset (OPENAI_API_KEY cfg) || unset (QDRANT_API_KEY cfg) = false ->
    DRY_RUN cfg = true ->
    trace w' = trace w -> store w' = store w ->
    code = match getFiles repoPath repo with Ok _ => 0 | Err _ => 1 end ->
    run_detail splitText cfg repoPath repo w w' code
| detail_reset_failed evs :
    unset (OPENAI_API_KEY cfg) || unset (QDRANT_API_KEY cfg) = false ->
    DRY_RUN cfg = false ->
    trace w' = trace w ++ evs ->
    reset_run (COLLECTION_NAME cfg) (store w) evs (Exit 1) (store w') ->
    code = 1 ->
    run_detail splitText cfg repoPath repo w w' code
| detail_scan_failed evs e :
    unset (OPENAI_API_KEY cfg) || unset (QDRANT_API_KEY cfg) = false ->
    DRY_RUN cfg = false ->
    trace w' = trace w ++ evs ->
    reset_run (COLLECTION_NAME cfg) (store w) evs (Return tt) (store w') ->
    getFiles repoPath repo = Err e ->
    code = 1 ->
    run_detail splitText cfg repoPath repo w w' code
| detail_uploaded evs s1 files uevs :
    unset (OPENAI_API_KEY cfg) || unset (QDRANT_API_KEY cfg) = false ->
    DRY_RUN cfg = false ->
    trace w' = trace w ++ evs ++ uevs ->
    reset_run (COLLECTION_NAME cfg) (store w) evs (Return tt) s1 ->
    getFiles repoPath repo = Ok files ->
    upload_run (COLLECTION_NAME cfg)
      (documentsOf splitText repoPath repo files) 0 s1 uevs (store w') ->
    code = 0 ->
    run_detail splitText cfg repoPath repo w w' code.

(** [stats.isDirectory()] of an entry whose [stat] succeeds. *)
Definition isDirectory (n : node) : bool :=
  match n with
  | Directory _ | Unlistable => true
  | _ => false
  end.

(** What makes the walk from [dirPath] fail: the directory cannot be
    listed, one of its entries cannot be examined, or the walk of one of
    its sub-directories that are not excluded fails. *)
Inductive broken : string -> node -> Prop :=
| broken_readdir dirPath n :
    (forall items, n <> Directory items) ->
    broken dirPath n
| broken_stat dirPath items item :
    (item, Dangling) ∈ items ->
    broken dirPath (Directory items)
| broken_below dirPath items item sub :
    (item, sub) ∈ items ->
    isDirectory sub = true ->
    shouldExcludeDir (join dirPath item) = false ->
    broken (join dirPath item) sub ->
    broken dirPath (Directory items).

(** A path is [item] in [dirPath], or lies below it. *)
Definition under (dirPath item f : string) : Prop :=
  f = join dirPath item \/ exists r, f = join dirPath item +:+ String sep r.

(** * Further sample runs *)

Module Case.

(** A configuration without the OpenAI key. *)
Definition keyless : config :=
  {| DRY_RUN := false;
     QDRANT_API_KEY := Some "qdrant-key";
     COLLECTION_NAME := "librechat-code";
     OPENAI_API_KEY := None |}.

(** Services where Qdrant rejects the creation of a collection. *)
Definition createDown : env :=
  {| provider := fun _ texts => Some (map (fun _ => Sample.short) texts);
     accepts := fun _ r =>
                  match r with CreateCollection _ _ _ => false | _ => true end |}.

(** A tree with an entry whose [stat] fails in a walked directory. *)
Definition dangling : node :=
  Directory [ ("a.js", RegularFile (Some "alpha"));
              ("src", Directory [("gone", Dangling)]) ].

(** A tree without a file the walker keeps. *)
Definition bare : node :=
  Directory [("notes.txt", RegularFile (Some "gamma"))].

(** A store where the collection of the script exists, beside another
    one. *)
Definition populated : world :=
  {| store := <["librechat-code" := freshCollection]>
                (<["other" := freshCollection]> ∅);
     trace := [];
     console := [] |}.

Abbreviation unkeyed :=
  (main Sample.whole keyless Sample.up "/repo" Sample.repo initial).

Abbreviation beside :=
  (main Sample.whole Sample.cfg Sample.up "/repo" Sample.repo populated).

Abbreviation reset := (resetCollection Sample.cfg Sample.up initial).

Abbreviation lost := (resetCollection Sample.cfg createDown populated).

Abbreviation aborted :=
  (main Sample.whole Sample.cfg Sample.up "/repo" dangling initial).

Abbreviation idle :=
  (main Sample.whole Sample.cfg Sample.up "/repo" bare initial).

Abbreviation twoBatches :=
  (main Sample.many Sample.cfg Sample.up "/repo" Sample.single initial).

End Case.

(** * Properties *)

(** ** Lists and strings *)

Lemma includes_In arr x : includes arr x = true <-> In x arr.
Proof.
  unfold includes. rewrite existsb_exists. split.
  - intros (y & Hy & Heq). apply String.eqb_eq in Heq. by subst.
  - intros Hx. exists x. split; [done|]. apply String.eqb_refl.
Qed.

Lemma node_ind' (P : node -> Prop) :
  (forall c, P (RegularFile c)) ->
  (forall items, Forall (fun e => P e.2) items -> P (Directory items)) ->
  P Unlistable -> P Dangling -> P Special ->
  forall n, P n.
Proof.
  intros Hfile Hdir Hu Hd Hs. fix IH 1.
  intros [c|items| | |]; [apply Hfile| |exact Hu|exact Hd|exact Hs].
  apply Hdir. induction items as [|[item n] rest IHrest]; constructor.
  - apply IH.
  - apply IHrest.
Qed.

(** ** The walker *)

Section Walker.

Lemma getFiles_loop_kept dirPath all items files0 files :
  Forall (fun e => forall dirPath files f,
              getFiles dirPath e.2 = Ok files -> In f files ->
              kept dirPath e.2 f) items ->
  (forall e, e ∈ items -> e ∈ all) ->
  getFiles_loop getFiles dirPath items files0 = Ok files ->
  forall f, In f files ->
            In f files0 \/ kept dirPath (Directory all) f.
Proof.
  intros HIH. revert files0.
  induction HIH as [|[item n] rest Hn _ IH]; intros files0 Hsub Hrun f Hf.
  - simpl in Hrun. injection Hrun as <-. by left.
  - assert (Hhere : (item, n) ∈ all) by (apply Hsub; left).
    assert (Hrest : forall e, e ∈ rest -> e ∈ all)
      by (intros e He; apply Hsub; by right).
    simpl in Hrun, Hn. destruct n as [c|sub| | |].
    + destruct (shouldIncludeFile (join dirPath item)) eqn:Hinc.
      * destruct (IH _ Hrest Hrun f Hf) as [Hin|Hadm]; [|by right].
        apply in_app_or in Hin as [Hin|[<-|[]]]; [by left|right].
        exists []. split; [by econstructor|]. by split.
      * apply (IH _ Hrest Hrun f Hf).
    + destruct (shouldExcludeDir (join dirPath item)) eqn:Hexc; simpl in Hrun.
      * apply (IH _ Hrest Hrun f Hf).
      * destruct (getFiles_loop getFiles (join dirPath item) sub [])
          as [subFiles|e] eqn:Hsubrun; [|done].
        destruct (IH _ Hrest Hrun f Hf) as [Hin|Hadm]; [|by right].
        apply in_app_or in Hin as [Hin|Hin]; [by left|right].
        destruct (Hn (join dirPath item) subFiles f Hsubrun Hin)
          as (ds & Hloc & Hds & Hext).
        exists (join dirPath item :: ds). split; [by econstructor|].
        split; [by constructor|done].
    + destruct (shouldExcludeDir (join dirPath item)); simpl in Hrun;
        [apply (IH _ Hrest Hrun f Hf)|done].
    + done.
    + apply (IH _ Hrest Hrun f Hf).
Qed.

Lemma getFiles_kept dir :
  forall dirPath files f,
    getFiles dirPath dir = Ok files -> In f files -> kept dirPath dir f.
Proof.
  induction dir as [c|items IH| | |] using node_ind';
    intros dirPath files f Hrun Hf; try done.
  simpl in Hrun.
  destruct (getFiles_loop_kept dirPath items items [] files IH
              ltac:(done) Hrun f Hf) as [[]|Hadm].
  exact Hadm.
Qed.

Lemma string_app_cons x (a b : string) : String x a +:+ b = String x (a +:+ b).
Proof. reflexivity. Qed.

Lemma string_app_nil (b : string) : EmptyString +:+ b = b.
Proof. reflexivity. Qed.

Lemma string_app_assoc (a b c : string) : (a +:+ b) +:+ c = a +:+ (b +:+ c).
Proof.
  induction a as [|x a IH]; [done|].
  rewrite !string_app_cons. by f_equal.
Qed.

Lemma join_unfold dirPath item : join dirPath item = dirPath +:+ String sep item.
Proof. reflexivity. Qed.

Lemma noSep_app_sep a r : noSep (a +:+ String sep r) = false.
Proof.
  induction a as [|x a IH]; [done|].
  rewrite string_app_cons. simpl. rewrite IH. apply andb_false_r.
Qed.

Lemma noSep_split x y r1 r2 :
  noSep x = true -> noSep y = true ->
  x +:+ String sep r1 = y +:+ String sep r2 -> x = y /\ r1 = r2.
Proof.
  revert y. induction x as [|a x IH]; intros [|b y] Hx Hy Heq;
    rewrite ?string_app_cons, ?string_app_nil in Heq; simpl in Hx, Hy.
  - by injection Heq as ->.
  - injection Heq as <- _. done.
  - injection Heq as -> _. done.
  - injection Heq as -> Heq.
    apply andb_true_iff in Hx as [_ Hx]. apply andb_true_iff in Hy as [_ Hy].
    destruct (IH y Hx Hy Heq) as [-> ->]. done.
Qed.

Lemma located_under dirPath dir ds f :
  located dirPath dir ds f -> exists r, f = dirPath +:+ String sep r.
Proof.
  induction 1 as [dirPath items item c _|dirPath items item sub ds f _ _ [r ->]].
  - by exists item.
  - exists (item +:+ String sep r).
    by rewrite join_unfold, string_app_assoc, string_app_cons.
Qed.

Lemma entriesOk_cons wf item n rest :
  entriesOk wf ((item, n) :: rest) = true ->
  validName item = true
  /\ (forall n', (item, n') ∈ rest -> False)
  /\ wf n = true
  /\ entriesOk wf rest = true.
Proof.
  cbn [entriesOk]. intros Hok.
  apply andb_true_iff in Hok as [Hok Hrest].
  apply andb_true_iff in Hok as [Hok Hwf].
  apply andb_true_iff in Hok as [Hvalid Hfresh].
  repeat split; try done.
  intros n' Hn'. apply negb_true_iff in Hfresh.
  assert (existsb (fun e => String.eqb e.1 item) rest = true) as Hex;
    [|congruence].
  apply existsb_exists. exists (item, n'). split.
  - by apply list_elem_of_In.
  - apply String.eqb_refl.
Qed.

Lemma entriesOk_elem wf items item n :
  entriesOk wf items = true -> (item, n) ∈ items ->
  validName item = true /\ wf n = true.
Proof.
  induction items as [|[item' n'] rest IH]; intros Hok Hin.
  - by apply elem_of_nil in Hin.
  - apply entriesOk_cons in Hok as (Hvalid & _ & Hwf & Hrest).
    apply elem_of_cons in Hin as [[= -> ->]|Hin]; [done|by apply IH].
Qed.

Lemma entriesOk_functional wf items item n1 n2 :
  entriesOk wf items = true ->
  (item, n1) ∈ items -> (item, n2) ∈ items -> n1 = n2.
Proof.
  induction items as [|[item' n'] rest IH]; intros Hok H1 H2.
  - by apply elem_of_nil in H1.
  - apply entriesOk_cons in Hok as (_ & Hfresh & _ & Hrest).
    apply elem_of_cons in H1 as [Heq1|H1];
      apply elem_of_cons in H2 as [Heq2|H2]; simplify_eq; try done.
    + by destruct (Hfresh n2).
    + by destruct (Hfresh n1).
    + by apply IH.
Qed.

Lemma join_file_under dirPath item item' r :
  validName item = true -> join dirPath item <> join dirPath item' +:+ String sep r.
Proof.
  intros Hvalid Heq.
  rewrite !join_unfold, string_app_assoc, string_app_cons in Heq.
  apply String.app_inj in Heq. injection Heq as ->.
  apply andb_true_iff in Hvalid as [_ Hvalid].
  by rewrite noSep_app_sep in Hvalid.
Qed.

Lemma located_inv dirPath items ds f :
  located dirPath (Directory items) ds f ->
  (exists item c, (item, RegularFile c) ∈ items /\ ds = []
                  /\ f = join dirPath item)
  \/ (exists item sub ds', (item, sub) ∈ items
                           /\ located (join dirPath item) sub ds' f
                           /\ ds = join dirPath item :: ds').
Proof. inversion 1; subst; [left|right]; eauto 10. Qed.

(** In a well-formed tree a path lies at one place only. *)
Lemma located_unique dirPath dir ds1 f :
  located dirPath dir ds1 f -> wellFormed dir = true ->
  forall ds2, located dirPath dir ds2 f -> ds1 = ds2.
Proof.
  induction 1 as [dirPath items item c Hin
                 |dirPath items item sub ds f Hin Hloc IH];
    intros Hwf ds2 Hloc2; simpl in Hwf;
    destruct (entriesOk_elem _ _ _ _ Hwf Hin) as [Hvalid Hwfsub];
    apply located_inv in Hloc2
      as [(item2 & c2 & Hin2 & -> & Heq)|(item2 & sub2 & ds' & Hin2 & Hsub2 & ->)];
    destruct (entriesOk_elem _ _ _ _ Hwf Hin2) as [Hvalid2 _].
  - done.
  - destruct (located_under _ _ _ _ Hsub2) as [r Hr].
    by destruct (join_file_under dirPath item item2 r Hvalid).
  - destruct (located_under _ _ _ _ Hloc) as [r1 Hr1]. subst f.
    by destruct (join_file_under dirPath item2 item r1 Hvalid2).
  - destruct (located_under _ _ _ _ Hloc) as [r1 Hr1].
    destruct (located_under _ _ _ _ Hsub2) as [r2 Hr2]. subst f.
    rewrite !join_unfold, !string_app_assoc, !string_app_cons in Hr2.
    apply String.app_inj in Hr2. injection Hr2 as Hr2.
    apply andb_true_iff in Hvalid as [_ Hvalid].
    apply andb_true_iff in Hvalid2 as [_ Hvalid2].
    destruct (noSep_split _ _ _ _ Hvalid Hvalid2 Hr2) as [-> _].
    assert (sub = sub2) as <- by (by eapply entriesOk_functional).
    f_equal. by apply IH.
Qed.

(** C8: walker filtering. In the output of [getFiles] on a well-formed
    tree, every path is that of a regular file of the tree; none of the
    directories (at any depth below the scanned root) that contain it has
    a base name in [EXCLUDE_DIRS]; and its extension, lower-cased, is in
    [INCLUDE_EXTENSIONS]. *)
Theorem getFiles_excludes_and_filters dirPath dir files f :
  wellFormed dir = true ->
  getFiles dirPath dir = Ok files ->
  In f files ->
  (exists ds, located dirPath dir ds f)
  /\ (forall ds d, located dirPath dir ds f -> In d ds ->
                   ~ In (basename d) EXCLUDE_DIRS)
  /\ In (toLowerCase (extname f)) INCLUDE_EXTENSIONS.
Proof.
  intros Hwf Hrun Hf.
  destruct (getFiles_kept dir dirPath files f Hrun Hf) as (ds0 & Hloc & Hds & Hext).
  split; [by exists ds0|]. split.
  - intros ds d Hloc' Hd Hbad.
    rewrite <- (located_unique _ _ _ _ Hloc Hwf ds Hloc') in Hd.
    rewrite Forall_forall in Hds. apply list_elem_of_In in Hd.
    specialize (Hds d Hd).
    apply includes_In in Hbad. unfold shouldExcludeDir in Hds. congruence.
  - by apply includes_In.
Qed.

Lemma getFiles_excludes_and_filters_witness :
  wellFormed Sample.repo = true
  /\ getFiles "/repo" Sample.repo
     = Ok ["/repo/a.js"; "/repo/src/B.TS"; "/repo/src/d.md"]
  /\ In (toLowerCase (extname "/repo/src/B.TS")) INCLUDE_EXTENSIONS.
Proof.
  assert (Hwf : wellFormed Sample.repo = true) by reflexivity.
  assert (Hrun : getFiles "/repo" Sample.repo
                 = Ok ["/repo/a.js"; "/repo/src/B.TS"; "/repo/src/d.md"])
    by reflexivity.
  split; [exact Hwf|]. split; [exact Hrun|].
  apply (getFiles_excludes_and_filters "/repo" Sample.repo _ "/repo/src/B.TS" Hwf Hrun).
  simpl. tauto.
Defined.

End Walker.

(** ** Chunk bookkeeping *)

Section Chunks.

Variable splitText : string -> list string.

Lemma chunksOf_chunk fileData :
  map (fun d => Metadata.chunk (metadata d)) (chunksOf splitText fileData)
  = seq 0 (length (chunksOf splitText fileData)).
Proof.
  destruct fileData as [fd|]; [|done]. unfold chunksOf.
  apply list_eq. intros i.
  change (map ?f ?l) with (f <$> l).
  rewrite list_lookup_fmap, list_lookup_imap, length_imap.
  destruct (splitText (content fd) !! i) as [t|] eqn:Hi; simpl.
  - symmetry. apply lookup_seq. split; [done|].
    by apply lookup_lt_Some in Hi.
  - symmetry. apply lookup_seq_ge. by apply lookup_ge_None in Hi.
Qed.

Lemma chunksOf_totalChunks fileData :
  Forall (fun d => Metadata.totalChunks (metadata d)
                   = length (chunksOf splitText fileData))
         (chunksOf splitText fileData).
Proof.
  destruct fileData as [fd|]; [|constructor]. unfold chunksOf.
  rewrite length_imap. apply Forall_forall. intros d Hd.
  apply elem_of_lookup_imap_1 in Hd as (i & t & -> & _). done.
Qed.

Lemma chunksOf_pageContent fileData :
  map pageContent (chunksOf splitText fileData)
  = match fileData with
    | Some fd => splitText (content fd)
    | None => []
    end.
Proof.
  destruct fileData as [fd|]; [|done]. unfold chunksOf.
  apply list_eq. intros i.
  change (map ?f ?l) with (f <$> l).
  rewrite list_lookup_fmap, list_lookup_imap.
  by destruct (splitText (content fd) !! i).
Qed.

Lemma processFile_run fileData w :
  exists w', processFile splitText fileData w
             = (Return (chunksOf splitText fileData), w')
             /\ trace w' = trace w /\ store w' = store w.
Proof.
  destruct fileData as [fd|]; eexists; (split; [reflexivity|done]).
Qed.

(** C10: chunk numbering. [processFile] returns, for every file, chunks
    whose [chunk] fields are 0, 1, ..., n-1 in order and whose
    [totalChunks] fields all equal n, the number of chunks returned,
    which are the texts of the splitter in order. *)
Theorem processFile_chunk_numbering fileData w :
  exists documents w',
    processFile splitText fileData w = (Return documents, w')
    /\ map (fun d => Metadata.chunk (metadata d)) documents
       = seq 0 (length documents)
    /\ Forall (fun d => Metadata.totalChunks (metadata d) = length documents)
              documents
    /\ map pageContent documents
       = match fileData with
         | Some fd => splitText (content fd)
         | None => []
         end.
Proof.
  destruct (processFile_run fileData w) as (w' & Hrun & _).
  exists (chunksOf splitText fileData), w'. split; [exact Hrun|].
  split; [apply chunksOf_chunk|].
  split; [apply chunksOf_totalChunks|apply chunksOf_pageContent].
Qed.

End Chunks.

(** ** Rules for running the script *)

Lemma wp_mono {A} (m : M A) w (Q Q' : outcome A -> world -> Prop) :
  wp m w Q -> (forall r w', Q r w' -> Q' r w') -> wp m w Q'.
Proof. unfold wp. auto. Qed.

Lemma wp_ret {A} (a : A) w Q : Q (Return a) w -> wp (ret a) w Q.
Proof. done. Qed.

Lemma wp_throw {A} e w (Q : outcome A -> world -> Prop) :
  Q (Throw e) w -> wp (throw e) w Q.
Proof. done. Qed.

Lemma wp_process_exit {A} code w (Q : outcome A -> world -> Prop) :
  Q (Exit code) w -> wp (process_exit code) w Q.
Proof. done. Qed.

Lemma wp_bind {A B} (m : M A) (k : A -> M B) w Q :
  wp m w (fun r w1 =>
            match r with
            | Return a => wp (k a) w1 Q
            | Throw e => Q (Throw e) w1
            | Exit code => Q (Exit code) w1
            end) ->
  wp (bind m k) w Q.
Proof. unfold wp, bind. by destruct (m w) as [[a|e|code] w1]. Qed.

Lemma wp_try_catch {A} (m : M A) handler w Q :
  wp m w (fun r w1 =>
            match r with
            | Throw e => wp (handler e) w1 Q
            | _ => Q r w1
            end) ->
  wp (try_catch m handler) w Q.
Proof. unfold wp, try_catch. by destruct (m w) as [[a|e|code] w1]. Qed.

Lemma wp_console_log message w Q :
  (forall w', trace w' = trace w -> store w' = store w -> Q (Return tt) w') ->
  wp (console_log message) w Q.
Proof. intros HQ. by apply HQ. Qed.

Lemma wp_console_error message e w Q :
  (forall w', trace w' = trace w -> store w' = store w -> Q (Return tt) w') ->
  wp (console_error message e) w Q.
Proof. intros HQ. by apply HQ. Qed.

Lemma wp_lift {A} (r : result A) w Q :
  match r with
  | Ok a => Q (Return a) w
  | Err e => Q (Throw e) w
  end ->
  wp (lift r) w Q.
Proof. by destruct r. Qed.

Section Rules.

Variable E : env.

Lemma wp_qdrantClient r w Q :
  (forall s' w',
      serve r (store w) = Some s' -> store w' = s' ->
      trace w' = trace w ++ [Qdrant r true] -> Q (Return tt) w') ->
  (forall e w',
      store w' = store w ->
      trace w' = trace w ++ [Qdrant r false] -> Q (Throw e) w') ->
  wp (qdrantClient E r) w Q.
Proof.
  intros Hok Hfail. unfold wp, qdrantClient.
  destruct (accepts E (trace w) r); [destruct (serve r (store w)) eqn:Hs|]; simpl.
  - by eapply Hok.
  - by apply Hfail.
  - by apply Hfail.
Qed.

Lemma wp_getCollections w Q :
  (forall w',
      store w' = store w ->
      trace w' = trace w ++ [Qdrant GetCollections true] ->
      Q (Return (collectionNames w')) w') ->
  (forall e w',
      store w' = store w ->
      trace w' = trace w ++ [Qdrant GetCollections false] -> Q (Throw e) w') ->
  wp (getCollections E) w Q.
Proof.
  intros Hok Hfail. unfold wp, getCollections, qdrantClient.
  destruct (accepts E (trace w) GetCollections); simpl.
  - by apply Hok.
  - by apply Hfail.
Qed.

Lemma wp_embedDocuments texts w Q :
  (forall vs w',
      store w' = store w ->
      trace w' = trace w ++ [EmbedDocuments texts (Some vs)] ->
      Q (Return vs) w') ->
  (forall e w',
      store w' = store w ->
      trace w' = trace w ++ [EmbedDocuments texts None] -> Q (Throw e) w') ->
  wp (embedDocuments E texts) w Q.
Proof.
  intros Hok Hfail. unfold wp, embedDocuments.
  destruct (provider E (trace w) texts) as [vs|]; simpl.
  - by apply Hok.
  - by apply Hfail.
Qed.

End Rules.

(** One step of a run: the rule of the construct at the head. *)
Ltac wp_step :=
  lazymatch goal with
  | |- wp (bind _ _) _ _ => apply wp_bind
  | |- wp (try_catch _ _) _ _ => apply wp_try_catch
  | |- wp (ret _) _ _ => apply wp_ret
  | |- wp (throw _) _ _ => apply wp_throw
  | |- wp (process_exit _) _ _ => apply wp_process_exit
  | |- wp (console_log _) _ _ => apply wp_console_log; intros ? ? ?
  | |- wp (console_error _ _) _ _ => apply wp_console_error; intros ? ? ?
  | |- wp (lift _) _ _ => apply wp_lift
  end.

(** Rewrite the trace and the store of the later worlds into those of
    the earlier ones. *)
Ltac back :=
  repeat match goal with
         | H : trace ?w' = _ |- context [trace ?w'] => rewrite H
         | H : store ?w' = _ |- context [store ?w'] => rewrite H
         end.

(** ** The collection reset *)

Ltac wp_remote E :=
  lazymatch goal with
  | |- wp (qdrantClient E _) _ _ =>
      apply wp_qdrantClient; [intros ? ? ? ? ?|intros ? ? ? ?]
  | |- wp (getCollections E) _ _ =>
      apply wp_getCollections; [intros ? ? ?|intros ? ? ? ?]
  | |- wp (embedDocuments E _) _ _ =>
      apply wp_embedDocuments; [intros ? ? ? ?|intros ? ? ? ?]
  end.

Ltac wp_run E := repeat (first [wp_step | wp_remote E]).

Ltac events :=
  back; rewrite <- ?app_assoc; eexists; split; [reflexivity|].

Section Runs.

Variable splitText : string -> list string.
Variable cfg : config.
Variable E : env.
Variable repoPath : string.
Variable repo : node.

Lemma resetCollection_dry w :
  DRY_RUN cfg = true ->
  wp (resetCollection cfg E) w
     (fun r w' => r = Return tt /\ trace w' = trace w /\ store w' = store w).
Proof.
  intros Hdry. unfold resetCollection. rewrite Hdry.
  wp_run E. split; [done|]. split; congruence.
Qed.

Lemma serve_create name size distance s s' :
  serve (CreateCollection name size distance) s = Some s' ->
  s' !! name = Some {| vectors_size := size; vectors_distance := distance;
                       points := ∅ |}.
Proof.
  simpl. destruct (s !! name); [done|]. intros [= <-]. apply lookup_insert_eq.
Qed.

Lemma resetCollection_run w :
  DRY_RUN cfg = false ->
  wp (resetCollection cfg E) w
     (fun r w' =>
        exists evs,
          trace w' = trace w ++ evs
          /\ Forall (fun ev => isReset ev = true) evs
          /\ ((r = Return tt
               /\ store w' !! COLLECTION_NAME cfg = Some freshCollection)
              \/ (r = Exit 1 /\ Exists (fun ev => succeeded ev = false) evs))).
Proof.
  intros Hdry. unfold resetCollection. rewrite Hdry.
  wp_run E.
  all: try (destruct (existsb _ _); wp_run E).
  all: events.
  all: (split; [repeat constructor|]).
  all: try (right; split; [done|]; rewrite ?Exists_app, ?Exists_cons; simpl; tauto).
  all: left; split; [done|]; back; eapply serve_create; eassumption.
Qed.

(** ** Reading and chunking the files *)

Lemma readFileContent_run filePath w :
  wp (readFileContent repoPath repo filePath) w
     (fun r w' => r = Return (fileDataOf repoPath repo filePath)
                  /\ trace w' = trace w /\ store w' = store w).
Proof.
  unfold readFileContent, fileDataOf.
  destruct (readFile repoPath repo filePath) as [content|e]; wp_run E.
  - done.
  - split; [done|]. split; congruence.
Qed.

Lemma processFile_wp fileData w :
  wp (processFile splitText fileData) w
     (fun r w' => r = Return (chunksOf splitText fileData)
                  /\ trace w' = trace w /\ store w' = store w).
Proof. destruct fileData as [fd|]; unfold processFile; wp_run E; done. Qed.

Lemma processFiles_run files : forall allDocuments w,
  wp (processFiles splitText repoPath repo files allDocuments) w
     (fun r w' =>
        r = Return (allDocuments ++ documentsOf splitText repoPath repo files)
        /\ trace w' = trace w /\ store w' = store w).
Proof.
  induction files as [|file rest IH]; intros allDocuments w; cbn [processFiles].
  - wp_step. unfold documentsOf. simpl. by rewrite app_nil_r.
  - wp_step. eapply wp_mono; [apply readFileContent_run|].
    intros r w1 (-> & Ht1 & Hs1).
    wp_step. eapply wp_mono; [apply processFile_wp|].
    intros r w2 (-> & Ht2 & Hs2).
    eapply wp_mono; [apply IH|].
    intros r w3 (-> & Ht3 & Hs3).
    split; [|split; congruence].
    unfold documentsOf. simpl. by rewrite app_assoc.
Qed.

(** ** The upload *)

Lemma length_slice_full {A} (l : list A) i :
  i + BATCH_SIZE < length l -> length (slice l i (i + BATCH_SIZE)) = BATCH_SIZE.
Proof.
  intros Hlt. unfold slice.
  rewrite length_take, length_drop. lia.
Qed.

Lemma uploadLoop_run documents fuel : forall i count w,
  (i < length documents -> count = i) ->
  length documents <= i + fuel ->
  wp (uploadLoop cfg E fuel documents i count) w
     (fun r w' =>
        (forall code, r <> Exit code)
        /\ exists evs,
            trace w' = trace w ++ evs
            /\ upload_run (COLLECTION_NAME cfg) documents i
                          (store w) evs (store w')).
Proof.
  induction fuel as [|fuel IH]; intros i count w Hcount Hfuel;
    cbn [uploadLoop].
  - wp_step. split; [done|]. exists []. rewrite app_nil_r. split; [done|].
    apply upload_finished. lia.
  - destruct (i <? length documents) eqn:Hlt.
    + apply Nat.ltb_lt in Hlt. rewrite (Hcount Hlt).
      wp_step. wp_remote E; [|split; [done|]; events; by apply upload_embed_failed].
      wp_step. wp_remote E;
        [|split; [done|]; events; by apply upload_upsert_failed].
      wp_step. wp_step.
      eapply wp_mono; [apply IH|].
      * intros Hnext. by rewrite length_slice_full.
      * unfold BATCH_SIZE. lia.
      * intros r w4 (Hexit & evs & Ht4 & Hrun). split; [done|].
        exists (EmbedDocuments (map pageContent (slice documents i (i + BATCH_SIZE))) (Some vs)
                :: Qdrant (Upsert (COLLECTION_NAME cfg)
                             (batchPoints i (slice documents i (i + BATCH_SIZE)) vs)) true
                :: evs).
        split; [rewrite Ht4; back; by rewrite <- !app_assoc|].
        eapply upload_batch; [done| |].
        -- match goal with H : serve _ _ = Some _ |- _ => revert H end.
           back. intros Hserve. exact Hserve.
        -- revert Hrun. back. done.
    + wp_step. split; [done|]. exists []. rewrite app_nil_r. split; [done|].
      apply upload_finished. by apply Nat.ltb_ge.
Qed.

Lemma uploadToQdrant_dry documents w :
  DRY_RUN cfg = true ->
  wp (uploadToQdrant cfg E documents) w
     (fun r w' => r = Return tt /\ trace w' = trace w /\ store w' = store w).
Proof.
  intros Hdry. unfold uploadToQdrant. rewrite Hdry.
  wp_run E. split; [done|]. split; congruence.
Qed.

Lemma uploadToQdrant_run documents w :
  DRY_RUN cfg = false ->
  wp (uploadToQdrant cfg E documents) w
     (fun r w' =>
        r = Return tt
        /\ exists evs,
            trace w' = trace w ++ evs
            /\ upload_run (COLLECTION_NAME cfg) documents 0
                          (store w) evs (store w')).
Proof.
  intros Hdry. unfold uploadToQdrant. rewrite Hdry.
  do 3 wp_step. wp_step.
  eapply wp_mono; [apply (uploadLoop_run documents (length documents) 0 0)|];
    [done|lia|].
  intros [[]|e|code] w2 (Hexit & evs & Ht2 & Hrun).
  - wp_run E. split; [done|]. exists evs. split; [congruence|].
    revert Hrun. back. by intros.
  - wp_run E. split; [done|]. exists evs. split; [congruence|].
    revert Hrun. back. by intros.
  - by destruct (Hexit code).
Qed.


(** More fuel than the documents need changes nothing. *)
Lemma uploadLoop_fuel documents fuel : forall i count w,
  length documents <= i + fuel ->
  uploadLoop cfg E (S fuel) documents i count w
  = uploadLoop cfg E fuel documents i count w.
Proof.
  induction fuel as [|fuel IH]; intros i count w Hfuel.
  - cbn [uploadLoop]. destruct (i <? length documents) eqn:Hlt; [|done].
    apply Nat.ltb_lt in Hlt. lia.
  - cbn [uploadLoop] in *. destruct (i <? length documents); [|done].
    unfold bind.
    destruct (embedDocuments E _ w) as [[vs|e|code] w1]; try done.
    destruct (qdrantClient E _ w1) as [[[]|e|code] w2]; try done.
    destruct (console_log _ w2) as [[[]|e|code] w3]; try done.
    apply IH. unfold BATCH_SIZE. lia.
Qed.

(** ** The whole run *)

Lemma checkRequiredAPIKeys_run w :
  wp (checkRequiredAPIKeys cfg) w
     (fun r w' =>
        trace w' = trace w /\ store w' = store w
        /\ ((r = Return tt
             /\ unset (OPENAI_API_KEY cfg) || unset (QDRANT_API_KEY cfg) = false)
            \/ (r = Exit 1
                /\ unset (OPENAI_API_KEY cfg) || unset (QDRANT_API_KEY cfg) = true))).
Proof.
  unfold checkRequiredAPIKeys.
  destruct (unset (OPENAI_API_KEY cfg)), (unset (QDRANT_API_KEY cfg));
    wp_run E; (split; [congruence|]); (split; [congruence|]); auto.
Qed.

Lemma syncRepository_run w :
  wp (syncRepository splitText cfg E repoPath repo) w
     (fun r w' => sync_run splitText cfg repoPath repo w w' (exitCode r)).
Proof.
  unfold syncRepository. wp_run E.
  eapply wp_mono with
    (Q := fun r w' => r = Return tt /\ trace w' = trace w /\ store w' = store w).
  { destruct (DRY_RUN cfg); wp_run E; (split; [done|]); split; congruence. }
  intros r w2 (-> & Ht2 & Hs2).
  wp_run E. eapply wp_mono; [apply checkRequiredAPIKeys_run|].
  intros r w3 (Ht3 & Hs3 & [[-> Hkeys]|[-> Hkeys]]);
    [|apply run_keys_unset; [done|congruence|congruence|done]].
  wp_run E. destruct (DRY_RUN cfg) eqn:Hdry.
  - eapply wp_mono; [by apply resetCollection_dry|].
    intros r w4 (-> & Ht4 & Hs4). wp_run E.
    destruct (getFiles repoPath repo) as [files|e]; wp_run E.
    + eapply wp_mono; [apply processFiles_run|].
      intros r w7 (-> & Ht7 & Hs7). wp_run E.
      eapply wp_mono; [by apply uploadToQdrant_dry|].
      intros r w9 (-> & Ht9 & Hs9). wp_run E.
      apply run_dry; [done|done|congruence|congruence].
    + apply run_dry; [done|done|congruence|congruence].
  - eapply wp_mono; [by apply resetCollection_run|].
    intros r w4 (evs & Ht4 & Hevs & [[-> Hfresh]|[-> Hfailed]]);
      [|apply (run_reset_failed _ _ _ _ _ _ _ evs); [done|done|congruence|done|done|done]].
    wp_run E.
    destruct (getFiles repoPath repo) as [files|e] eqn:Hfiles; wp_run E.
    + eapply wp_mono; [apply processFiles_run|].
      intros r w7 (-> & Ht7 & Hs7). wp_run E.
      eapply wp_mono; [by apply uploadToQdrant_run|].
      intros r w9 (-> & uevs & Ht9 & Hrun). wp_run E.
      apply (run_uploaded _ _ _ _ _ _ _ evs (store w4) files uevs);
        try done.
      * back. by rewrite app_assoc.
      * revert Hrun. back. done.
    + apply (run_scan_failed _ _ _ _ _ _ _ evs e); try done.
      * congruence.
      * congruence.
Qed.

Lemma main_sync_run w code w' :
  main splitText cfg E repoPath repo w = (code, w') ->
  sync_run splitText cfg repoPath repo w w' code.
Proof.
  unfold main. intros Hmain.
  pose proof (syncRepository_run w) as Hrun. unfold wp in Hrun.
  destruct (syncRepository _ _ _ _ _ w) as [r w0]. by injection Hmain as <- <-.
Qed.

End Runs.

(** ** What the upload leaves in the store *)

Lemma slice_lookup {A} (l : list A) i idx :
  slice l i (i + BATCH_SIZE) !! idx
  = if decide (idx < BATCH_SIZE) then l !! (i + idx) else None.
Proof.
  unfold slice. replace (i + BATCH_SIZE - i) with BATCH_SIZE by lia.
  case_decide.
  - by rewrite lookup_take_lt, lookup_drop.
  - apply lookup_take_ge. lia.
Qed.

Lemma batchPoints_lookup count batch vs idx :
  batchPoints count batch vs !! idx
  = (fun doc => {| Point.id := count + idx;
                   Point.vector := vs !! idx;
                   Point.payload := payloadOf doc |}) <$> batch !! idx.
Proof. unfold batchPoints. by rewrite list_lookup_imap. Qed.

Lemma length_batchPoints count batch vs :
  length (batchPoints count batch vs) = length batch.
Proof. apply length_imap. Qed.

(** The store after an upsert of points with consecutive ids. *)
Lemma foldl_insert_lookup (g : nat -> Document -> Point.t) batch :
  forall count (m : gmap nat Point.t) id,
    (forall idx doc, Point.id (g idx doc) = idx) ->
    foldl (fun m p => <[Point.id p := p]> m) m
          (imap (fun idx doc => g (count + idx) doc) batch) !! id
    = if decide (count <= id < count + length batch)
      then g id <$> batch !! (id - count)
      else m !! id.
Proof.
  induction batch as [|doc batch IH]; intros count m id Hg.
  - simpl. case_decide; [lia|done].
  - rewrite imap_cons. cbn [foldl].
    rewrite (imap_ext _ (fun idx doc => g (S count + idx) doc)); last first.
    { intros idx d _. simpl. f_equal. lia. }
    rewrite IH by done. rewrite Hg. cbn [length].
    destruct (decide (id = count)) as [->|Hne].
    + rewrite decide_False by lia. rewrite decide_True by lia.
      rewrite Nat.add_0_r, lookup_insert_eq, Nat.sub_diag. done.
    + rewrite lookup_insert_ne by lia.
      case_decide; case_decide; try lia; [|done].
      replace (id - count) with (S (id - S count)) by lia. done.
Qed.

Lemma upsertPoints_lookup count batch vs c id :
  points (upsertPoints (batchPoints count batch vs) c) !! id
  = if decide (count <= id < count + length batch)
    then (fun doc => {| Point.id := id;
                        Point.vector := vs !! (id - count);
                        Point.payload := payloadOf doc |})
           <$> batch !! (id - count)
    else points c !! id.
Proof.
  unfold upsertPoints, batchPoints. cbn [points].
  pose (g := fun id doc => {| Point.id := id;
                              Point.vector := vs !! (id - count);
                              Point.payload := payloadOf doc |}).
  rewrite (imap_ext _ (fun idx doc => g (count + idx) doc)); last first.
  { intros idx d _. unfold g, payloadOf. simpl. do 2 f_equal. lia. }
  by rewrite foldl_insert_lookup.
Qed.

Lemma serve_upsert name pts s s1 :
  serve (Upsert name pts) s = Some s1 ->
  exists c, s !! name = Some c /\ s1 = <[name := upsertPoints pts c]> s.
Proof.
  simpl. destruct (s !! name) as [c|]; [|done]. intros [= <-]. by exists c.
Qed.

Section Upload.

Variable name : string.
Variable documents : list Document.

Lemma upload_run_not_reset i s evs s' :
  upload_run name documents i s evs s' ->
  Forall (fun ev => isReset ev = false) evs.
Proof. induction 1; repeat constructor; done. Qed.

(** Every point of every upsert carries the payload of the document
    whose index is the point id. *)
Lemma upload_run_point i s evs s' :
  upload_run name documents i s evs s' ->
  forall name' pts served p,
    Qdrant (Upsert name' pts) served ∈ evs -> p ∈ pts ->
    exists doc, documents !! Point.id p = Some doc
                /\ Point.payload p = payloadOf doc.
Proof.
  assert (Hbatch : forall i vs p,
             p ∈ batchPoints i (slice documents i (i + BATCH_SIZE)) vs ->
             exists doc, documents !! Point.id p = Some doc
                         /\ Point.payload p = payloadOf doc).
  { intros j vs p Hp. apply list_elem_of_lookup in Hp as [idx Hidx].
    rewrite batchPoints_lookup, slice_lookup in Hidx.
    case_decide; [|done].
    destruct (documents !! (j + idx)) as [doc|] eqn:Hdoc; [|done].
    injection Hidx as <-. by exists doc. }
  induction 1 as [i s Hi|i s Hi|i s vs Hi|i s vs s1 evs s' Hi Hserve Hrun IH];
    intros name' pts served p Hev Hp.
  - by apply elem_of_nil in Hev.
  - apply list_elem_of_singleton in Hev. done.
  - apply elem_of_cons in Hev as [?|Hev]; [done|].
    apply list_elem_of_singleton in Hev. simplify_eq. by eapply Hbatch.
  - apply elem_of_cons in Hev as [?|Hev]; [done|].
    apply elem_of_cons in Hev as [?|Hev]; [simplify_eq; by eapply Hbatch|].
    by eapply IH.
Qed.

(** An embedding request that returns is followed at once by the upsert
    of the points built from what it returned. *)
Lemma upload_run_embed_then_upsert i s evs s' :
  upload_run name documents i s evs s' ->
  forall pre texts vs post,
    evs = pre ++ EmbedDocuments texts (Some vs) :: post ->
    exists pts served post',
      post = Qdrant (Upsert name pts) served :: post'
      /\ length pts = length texts
      /\ forall idx p, pts !! idx = Some p -> Point.vector p = vs !! idx.
Proof.
  assert (Hbatch : forall i vs,
             length (batchPoints i (slice documents i (i + BATCH_SIZE)) vs)
             = length (map pageContent (slice documents i (i + BATCH_SIZE)))
             /\ forall idx p,
                 batchPoints i (slice documents i (i + BATCH_SIZE)) vs !! idx
                 = Some p -> Point.vector p = vs !! idx).
  { intros j vs. split.
    - by rewrite length_batchPoints, length_map.
    - intros idx p. rewrite batchPoints_lookup.
      destruct (slice documents j (j + BATCH_SIZE) !! idx); [|done].
      by intros [= <-]. }
  induction 1 as [i s Hi|i s Hi|i s vs0 Hi|i s vs0 s1 evs s' Hi Hserve Hrun IH];
    intros pre texts vs post Heq.
  - by destruct pre.
  - destruct pre as [|? [|? ?]]; simplify_eq/=.
  - destruct pre as [|? [|? [|? ?]]]; simplify_eq/=.
    destruct (Hbatch i vs). eauto 10.
  - destruct pre as [|? [|? pre]]; simplify_eq/=.
    + destruct (Hbatch i vs). eauto 10.
    + by eapply IH.
Qed.

(** Points stored under ids below the current index are left alone. *)
Lemma upload_run_frame i s evs s' :
  upload_run name documents i s evs s' ->
  forall c id,
    s !! name = Some c -> id < i ->
    exists c', s' !! name = Some c' /\ points c' !! id = points c !! id.
Proof.
  induction 1 as [i s Hi|i s Hi|i s vs0 Hi|i s vs0 s1 evs s' Hi Hserve Hrun IH];
    intros c id Hc Hid; try (by exists c).
  apply serve_upsert in Hserve as (c0 & Hc0 & ->).
  rewrite Hc in Hc0. injection Hc0 as <-.
  destruct (IH (upsertPoints (batchPoints i (slice documents i (i + BATCH_SIZE)) vs0) c)
               id) as (c' & Hc' & Hid'); [apply lookup_insert_eq|lia|].
  exists c'. split; [done|]. rewrite Hid', upsertPoints_lookup.
  by rewrite decide_False by lia.
Qed.

(** A failed upsert is the last call, and the points of the batches
    upserted before it are in the store at the end. *)
Lemma upload_run_failed_upsert i s evs s' :
  upload_run name documents i s evs s' ->
  forall pre name' pts post,
    evs = pre ++ Qdrant (Upsert name' pts) false :: post ->
    post = []
    /\ forall name'' pts'' p,
        Qdrant (Upsert name'' pts'') true ∈ pre -> p ∈ pts'' ->
        exists c, s' !! name'' = Some c /\ points c !! Point.id p = Some p.
Proof.
  induction 1 as [i s Hi|i s Hi|i s vs0 Hi|i s vs0 s1 evs s' Hi Hserve Hrun IH];
    intros pre name' pts post Heq.
  - by destruct pre.
  - destruct pre as [|? [|? ?]]; simplify_eq/=.
  - destruct pre as [|? [|? [|? ?]]]; simplify_eq/=.
    split; [done|]. intros name'' pts'' p Hev.
    apply list_elem_of_singleton in Hev. done.
  - destruct pre as [|? [|? pre]]; simplify_eq/=.
    destruct (IH _ _ _ _ eq_refl) as [-> Hkept]. split; [done|].
    intros name'' pts'' p Hev Hp.
    apply elem_of_cons in Hev as [?|Hev]; [done|].
    apply elem_of_cons in Hev as [?|Hev]; [|by eapply Hkept].
    simplify_eq.
    apply serve_upsert in Hserve as (c0 & Hc0 & ->).
    apply list_elem_of_lookup in Hp as [idx Hidx].
    pose proof Hidx as Hlt. apply lookup_lt_Some in Hlt.
    rewrite length_batchPoints in Hlt.
    assert (Hlen : length (slice documents i (i + BATCH_SIZE)) <= BATCH_SIZE).
    { unfold slice. rewrite length_take. lia. }
    rewrite batchPoints_lookup in Hidx.
    destruct (slice documents i (i + BATCH_SIZE) !! idx) as [doc|] eqn:Hdoc;
      [|done].
    injection Hidx as <-. cbn [Point.id].
    destruct (upload_run_frame _ _ _ _ Hrun
                (upsertPoints (batchPoints i (slice documents i (i + BATCH_SIZE)) vs0) c0)
                (i + idx)) as (c' & Hc' & Hid');
      [apply lookup_insert_eq|lia|].
    exists c'. split; [done|]. rewrite Hid', upsertPoints_lookup.
    rewrite decide_True by lia.
    replace (i + idx - i) with idx by lia. by rewrite Hdoc.
Qed.

(** When every call succeeds, the collection ends with one point per
    document, under the document's index. *)
Lemma upload_run_complete i s evs s' :
  upload_run name documents i s evs s' ->
  Forall (fun ev => succeeded ev = true) evs ->
  forall c,
    s !! name = Some c ->
    (forall id, Point.payload <$> points c !! id
                = payloadOf <$> take i documents !! id) ->
    exists c', s' !! name = Some c'
               /\ forall id, Point.payload <$> points c' !! id
                             = payloadOf <$> documents !! id.
Proof.
  induction 1 as [i s Hi|i s Hi|i s vs0 Hi|i s vs0 s1 evs s' Hi Hserve Hrun IH];
    intros Hok c Hc Hinv.
  - exists c. split; [done|]. intros id. rewrite Hinv. by rewrite take_ge.
  - by inversion Hok.
  - inversion Hok as [|? ? _ Hok']. by inversion Hok'.
  - inversion Hok as [|? ? _ Hok']. inversion Hok' as [|? ? _ Hok''].
    apply serve_upsert in Hserve as (c0 & Hc0 & ->).
    rewrite Hc in Hc0. injection Hc0 as <-.
    eapply IH; [done|apply lookup_insert_eq|].
    intros id. rewrite upsertPoints_lookup.
    assert (Hlen : length (slice documents i (i + BATCH_SIZE))
                   = min BATCH_SIZE (length documents - i)).
    { unfold slice. rewrite length_take, length_drop. lia. }
    case_decide as Hid.
    + rewrite slice_lookup, decide_True by lia.
      replace (i + (id - i)) with id by lia.
      rewrite lookup_take_lt by lia.
      by destruct (documents !! id).
    + rewrite Hinv. destruct (decide (id < i)).
      * by rewrite !lookup_take_lt by lia.
      * rewrite lookup_take_ge by lia.
        destruct (decide (id < i + BATCH_SIZE)).
        -- rewrite lookup_take_lt by lia.
           rewrite (lookup_ge_None_2 documents) by lia. done.
        -- by rewrite lookup_take_ge by lia.
Qed.

End Upload.

(** ** The calls of a run *)

Lemma issued_app w w' evs : trace w' = trace w ++ evs -> issued w w' = evs.
Proof. intros H. unfold issued. rewrite H. apply drop_app_length. Qed.

Lemma issued_same w w' : trace w' = trace w -> issued w w' = [].
Proof. intros H. unfold issued. rewrite H. apply drop_all. Qed.

Lemma app_split_later {A} (P : A -> Prop) (l1 l2 pre post : list A) x :
  l1 ++ l2 = pre ++ x :: post -> Forall P l1 -> ~ P x ->
  exists pre', pre = l1 ++ pre' /\ l2 = pre' ++ x :: post.
Proof.
  revert pre. induction l1 as [|a l1 IH]; intros pre Heq Hl1 Hx.
  - by exists pre.
  - inversion Hl1 as [|? ? Ha Hl1']. subst.
    destruct pre as [|b pre]; simplify_eq/=; [done|].
    destruct (IH pre) as (pre' & -> & ->); [done..|]. by exists pre'.
Qed.

Section Properties.

Variable splitText : string -> list string.
Variable cfg : config.
Variable E : env.
Variable repoPath : string.
Variable repo : node.

(** The calls of a run that has an upload part: those of the reset,
    then those of the upload. *)
Lemma sync_run_upload_calls w w' code ev :
  sync_run splitText cfg repoPath repo w w' code ->
  ev ∈ issued w w' -> isReset ev = false ->
  exists evs s1 files uevs,
    issued w w' = evs ++ uevs
    /\ Forall (fun ev => isReset ev = true) evs
    /\ getFiles repoPath repo = Ok files
    /\ s1 !! COLLECTION_NAME cfg = Some freshCollection
    /\ upload_run (COLLECTION_NAME cfg)
         (documentsOf splitText repoPath repo files) 0 s1 uevs (store w').
Proof.
  intros [Hkeys Ht Hs Hc|Hkeys Hdry Ht Hs|evs Hkeys Hdry Ht Hevs Hfail Hc
         |evs e Hkeys Hdry Ht Hevs Hfresh Hfiles Hc
         |evs s1 files uevs Hkeys Hdry Ht Hevs Hfresh Hfiles Hrun Hc] Hev Hnot.
  - rewrite (issued_same _ _ Ht) in Hev. by apply elem_of_nil in Hev.
  - rewrite (issued_same _ _ Ht) in Hev. by apply elem_of_nil in Hev.
  - rewrite (issued_app _ _ _ Ht) in Hev.
    rewrite Forall_forall in Hevs. specialize (Hevs ev Hev). congruence.
  - rewrite (issued_app _ _ _ Ht) in Hev.
    rewrite Forall_forall in Hevs. specialize (Hevs ev Hev). congruence.
  - exists evs, s1, files, uevs. by rewrite (issued_app _ _ _ Ht).
Qed.

End Properties.

(** ** Upload failures *)

(** C3 (amended): a failed upsert. In every run, an upsert that the
    store does not serve is the last remote call of the run: the script
    does not issue it again and embeds or upserts no further batch; and
    every point of every batch upserted before it is in the collection
    when the run ends. *)
Theorem failed_upsert_is_last_call splitText cfg E repoPath repo w code w'
    pre name pts post :
  main splitText cfg E repoPath repo w = (code, w') ->
  issued w w' = pre ++ Qdrant (Upsert name pts) false :: post ->
  post = []
  /\ forall name' pts' p,
      Qdrant (Upsert name' pts') true ∈ pre -> p ∈ pts' ->
      exists c, store w' !! name' = Some c
                /\ points c !! Point.id p = Some p.
Proof.
  intros Hmain Hissued. apply main_sync_run in Hmain.
  destruct (sync_run_upload_calls _ _ _ _ _ _ _ (Qdrant (Upsert name pts) false) Hmain)
    as (evs & s1 & files & uevs & Hcalls & Hevs & Hfiles & Hfresh & Hrun).
  { rewrite Hissued. apply elem_of_app. right. left. }
  { done. }
  rewrite Hcalls in Hissued.
  destruct (app_split_later _ _ _ _ _ _ Hissued Hevs) as (pre' & -> & Huevs);
    [simpl; congruence|].
  destruct (upload_run_failed_upsert _ _ _ _ _ _ Hrun _ _ _ _ Huevs)
    as [-> Hkept].
  split; [done|]. intros name' pts' p Hev Hp.
  apply elem_of_app in Hev as [Hev|Hev]; [|by eapply Hkept].
  rewrite Forall_forall in Hevs. by specialize (Hevs _ Hev).
Qed.

(** The run [Sample.interrupted]: the first batch of 100 points is
    upserted, the upsert of the second batch fails. *)
Lemma failed_upsert_is_last_call_witness :
  issued initial Sample.interrupted.2
  = take 5 (trace Sample.interrupted.2)
    ++ Qdrant (Upsert "librechat-code"
                 (batchPoints 100 (slice Sample.manyDocuments 100 200)
                              [Sample.short])) false :: []
  /\ (@nil event = []
      /\ forall name' pts' p,
          Qdrant (Upsert name' pts') true ∈ take 5 (trace Sample.interrupted.2) ->
          p ∈ pts' ->
          exists c, store Sample.interrupted.2 !! name' = Some c
                    /\ points c !! Point.id p = Some p).
Proof.
  assert (Hissued : issued initial Sample.interrupted.2
          = take 5 (trace Sample.interrupted.2)
            ++ Qdrant (Upsert "librechat-code"
                         (batchPoints 100 (slice Sample.manyDocuments 100 200)
                                      [Sample.short])) false :: [])
    by (vm_compute; reflexivity).
  split; [exact Hissued|].
  exact (failed_upsert_is_last_call Sample.many Sample.cfg
           Sample.secondUpsertDown "/repo" Sample.single initial
           Sample.interrupted.1 Sample.interrupted.2
           _ _ _ _ (surjective_pairing Sample.interrupted) Hissued).
Defined.

(** C3 as stated fails: in the run [Sample.rejected] the only upsert is
    not served; it is issued once, and the process ends with exit
    code 0. *)
Lemma failed_upsert_once_exit_zero :
  Sample.rejected.1 = 0
  /\ List.filter isUpsert (trace Sample.rejected.2)
     = [Qdrant (Upsert "librechat-code"
                  (batchPoints 0 Sample.documents [Sample.short; Sample.short]))
               false].
Proof. vm_compute. split; reflexivity. Qed.

(** ** Point ids *)

(** C4 (amended): point ids. In every run, the id of a point is the
    position of its chunk in the chunk list of the run (the chunks of
    all files, in walk order): the point of id [k] carries the text and
    the metadata of the [k]-th chunk. *)
Theorem point_id_is_position splitText cfg E repoPath repo w code w'
    name pts served p :
  main splitText cfg E repoPath repo w = (code, w') ->
  Qdrant (Upsert name pts) served ∈ issued w w' ->
  p ∈ pts ->
  exists files doc,
    getFiles repoPath repo = Ok files
    /\ documentsOf splitText repoPath repo files !! Point.id p = Some doc
    /\ Point.payload p = payloadOf doc.
Proof.
  intros Hmain Hev Hp. apply main_sync_run in Hmain.
  destruct (sync_run_upload_calls _ _ _ _ _ _ _ _ Hmain Hev)
    as (evs & s1 & files & uevs & Hcalls & Hevs & Hfiles & Hfresh & Hrun);
    [done|].
  rewrite Hcalls in Hev. apply elem_of_app in Hev as [Hev|Hev].
  { rewrite Forall_forall in Hevs. by specialize (Hevs _ Hev). }
  destruct (upload_run_point _ _ _ _ _ _ Hrun _ _ _ _ Hev Hp) as (doc & Hdoc & Hpay).
  by exists files, doc.
Qed.

Lemma point_id_is_position_witness :
  Qdrant (Upsert "librechat-code"
            (batchPoints 0 Sample.documents [Sample.short; Sample.short])) true
    ∈ issued initial Sample.uploaded.2
  /\ exists files doc,
      getFiles "/repo" Sample.repo = Ok files
      /\ documentsOf Sample.whole "/repo" Sample.repo files
           !! Point.id Sample.beta = Some doc
      /\ Point.payload Sample.beta = payloadOf doc.
Proof.
  assert (Hev : Qdrant (Upsert "librechat-code"
                          (batchPoints 0 Sample.documents
                                       [Sample.short; Sample.short])) true
                ∈ issued initial Sample.uploaded.2).
  { vm_compute. do 3 right. left. }
  assert (Hp : Sample.beta
               ∈ batchPoints 0 Sample.documents [Sample.short; Sample.short]).
  { vm_compute. right. left. }
  split; [exact Hev|].
  exact (point_id_is_position Sample.whole Sample.cfg Sample.up "/repo"
           Sample.repo initial Sample.uploaded.1 Sample.uploaded.2 _ _ _
           Sample.beta (surjective_pairing Sample.uploaded) Hev Hp).
Defined.

(** C4 as stated fails: the chunk 0 of [src/B.TS] gets the id 1 in the
    run over [Sample.repo] and the id 0 in the run over [Sample.repo'],
    the same tree without [a.js]. *)
Lemma same_chunk_other_id :
  pointKeys (trace Sample.uploaded.2)
  = [(0, ("a.js", 0)); (1, ("src/B.TS", 0))]
  /\ pointKeys (trace Sample.pruned.2) = [(0, ("src/B.TS", 0))].
Proof. vm_compute. split; reflexivity. Qed.

(** ** Dry runs *)

(** C5 (amended): dry run. A run with [--dry-run] makes no remote call
    at all: no collection is deleted or created, nothing is embedded or
    upserted, and the collections are not listed either; the store is
    left as it was. *)
Theorem dry_run_makes_no_remote_call splitText cfg E repoPath repo w code w' :
  DRY_RUN cfg = true ->
  main splitText cfg E repoPath repo w = (code, w') ->
  issued w w' = [] /\ store w' = store w.
Proof.
  intros Hdry Hmain. apply main_sync_run in Hmain.
  destruct Hmain; try congruence; split; try done; by apply issued_same.
Qed.

Lemma dry_run_makes_no_remote_call_witness :
  DRY_RUN Sample.dry = true
  /\ issued initial Sample.simulated.2 = []
  /\ store Sample.simulated.2 = store initial.
Proof.
  split; [reflexivity|].
  exact (dry_run_makes_no_remote_call Sample.whole Sample.dry Sample.up "/repo"
           Sample.repo initial Sample.simulated.1 Sample.simulated.2 eq_refl
           (surjective_pairing Sample.simulated)).
Defined.

(** C5 as stated fails: the dry run [Sample.simulated] makes no call, so
    the existence check, the first call of the run [Sample.small]
    without the flag, is not performed. *)
Lemma dry_run_skips_existence_check :
  trace Sample.simulated.2 = []
  /\ trace Sample.small.2
     = [Qdrant GetCollections true;
        Qdrant (CreateCollection "librechat-code" 1536 "Cosine") true;
        EmbedDocuments ["alpha"] (Some [Sample.short]);
        Qdrant (Upsert "librechat-code"
                  (batchPoints 0 (documentsOf Sample.whole "/repo" Sample.single
                                    ["/repo/a.js"]) [Sample.short])) true].
Proof. vm_compute. split; reflexivity. Qed.

(** ** Vector dimensions *)

(** C6 (amended): returned vectors. In every run, whenever the
    embedding provider returns, the next remote call is the upsert of
    that batch, with one point per text, the point of index [idx]
    carrying the returned vector of index [idx] as it is, whatever its
    length. *)
Theorem embedded_vectors_upserted_unchecked splitText cfg E repoPath repo
    w code w' pre texts vs post :
  main splitText cfg E repoPath repo w = (code, w') ->
  issued w w' = pre ++ EmbedDocuments texts (Some vs) :: post ->
  exists pts served post',
    post = Qdrant (Upsert (COLLECTION_NAME cfg) pts) served :: post'
    /\ length pts = length texts
    /\ forall idx p, pts !! idx = Some p -> Point.vector p = vs !! idx.
Proof.
  intros Hmain Hissued. apply main_sync_run in Hmain.
  destruct (sync_run_upload_calls _ _ _ _ _ _ _ (EmbedDocuments texts (Some vs)) Hmain)
    as (evs & s1 & files & uevs & Hcalls & Hevs & Hfiles & Hfresh & Hrun).
  { rewrite Hissued. apply elem_of_app. right. left. }
  { done. }
  rewrite Hcalls in Hissued.
  destruct (app_split_later _ _ _ _ _ _ Hissued Hevs) as (pre' & -> & Huevs);
    [simpl; congruence|].
  by eapply upload_run_embed_then_upsert.
Qed.

Lemma embedded_vectors_upserted_unchecked_witness :
  issued initial Sample.small.2
  = [Qdrant GetCollections true;
     Qdrant (CreateCollection "librechat-code" 1536 "Cosine") true]
    ++ EmbedDocuments ["alpha"] (Some [Sample.short])
       :: drop 3 (trace Sample.small.2)
  /\ exists pts served post',
      drop 3 (trace Sample.small.2)
      = Qdrant (Upsert (COLLECTION_NAME Sample.cfg) pts) served :: post'
      /\ length pts = length ["alpha"]
      /\ forall idx p, pts !! idx = Some p ->
                       Point.vector p = [Sample.short] !! idx.
Proof.
  assert (Hissued : issued initial Sample.small.2
          = [Qdrant GetCollections true;
             Qdrant (CreateCollection "librechat-code" 1536 "Cosine") true]
            ++ EmbedDocuments ["alpha"] (Some [Sample.short])
               :: drop 3 (trace Sample.small.2))
    by (vm_compute; reflexivity).
  split; [exact Hissued|].
  exact (embedded_vectors_upserted_unchecked Sample.whole Sample.cfg Sample.up
           "/repo" Sample.single initial Sample.small.1 Sample.small.2 _ _ _ _
           (surjective_pairing Sample.small) Hissued).
Defined.

(** C6 as stated fails: in the run [Sample.small] the provider returns a
    vector of 2 components for a collection of dimension 1536; the run
    ends with exit code 0 and the point is in the collection with that
    vector. When the store rejects the upsert ([Sample.rejected]), the
    upsert has been issued with those vectors and the exit code is 0
    as well. *)
Lemma short_vector_upserted :
  length Sample.short = 2
  /\ Sample.small.1 = 0
  /\ (store Sample.small.2 !! "librechat-code"
      ≫= fun c => points c !! 0 ≫= Point.vector) = Some Sample.short
  /\ Sample.rejected.1 = 0
  /\ last (trace Sample.rejected.2)
     = Some (Qdrant (Upsert "librechat-code"
                       (batchPoints 0 Sample.documents
                                    [Sample.short; Sample.short])) false).
Proof. vm_compute. repeat split; reflexivity. Qed.

(** ** Rebuilding twice *)

Lemma same_payloads_same_size (m1 m2 : gmap nat Point.t) :
  (forall id, Point.payload <$> m1 !! id = Point.payload <$> m2 !! id) ->
  size m1 = size m2.
Proof.
  intros Hsame. rewrite <- !(size_dom (D := gset nat)). f_equal.
  apply set_eq. intros id. rewrite !elem_of_dom.
  rewrite <- !(fmap_is_Some Point.payload). by rewrite Hsame.
Qed.

(** The store at the end of a run whose calls all succeed. *)
Lemma sync_run_final splitText cfg repoPath repo w w' code :
  sync_run splitText cfg repoPath repo w w' code ->
  Forall (fun ev => succeeded ev = true) (issued w w') ->
  if unset (OPENAI_API_KEY cfg) || unset (QDRANT_API_KEY cfg) || DRY_RUN cfg
  then store w' = store w
  else exists c,
      store w' !! COLLECTION_NAME cfg = Some c
      /\ forall id,
          Point.payload <$> points c !! id
          = payloadOf <$>
              match getFiles repoPath repo with
              | Ok files => documentsOf splitText repoPath repo files
              | Err _ => []
              end !! id.
Proof.
  intros [Hkeys Ht Hs Hc|Hkeys Hdry Ht Hs|evs Hkeys Hdry Ht Hevs Hfail Hc
         |evs e Hkeys Hdry Ht Hevs Hfresh Hfiles Hc
         |evs s1 files uevs Hkeys Hdry Ht Hevs Hfresh Hfiles Hrun Hc] Hok;
    rewrite Hkeys, ?Hdry; simpl; try done.
  - rewrite (issued_app _ _ _ Ht) in Hok.
    apply Exists_exists in Hfail as (ev & Hev & Hfailed).
    rewrite Forall_forall in Hok. specialize (Hok ev Hev). congruence.
  - exists freshCollection. split; [done|]. intros id. rewrite Hfiles.
    unfold freshCollection. cbn [points]. by rewrite lookup_nil, lookup_empty.
  - rewrite (issued_app _ _ _ Ht) in Hok. apply Forall_app in Hok as [_ Hok].
    rewrite Hfiles.
    eapply upload_run_complete; [done|done|done|].
    intros id. unfold freshCollection. cbn [points]. by rewrite lookup_empty.
Qed.

(** C9: rebuilding twice. When the script is run twice in a row on the
    same tree with the same configuration and every remote call of both
    runs succeeds, the collection has as many points after the second
    run as after the first, and under every point id the same payload
    (text, path, chunk index and totalChunks). *)
Theorem rebuild_twice_same_collection splitText cfg E1 E2 repoPath repo
    w0 code1 w1 code2 w2 :
  main splitText cfg E1 repoPath repo w0 = (code1, w1) ->
  main splitText cfg E2 repoPath repo w1 = (code2, w2) ->
  Forall (fun ev => succeeded ev = true) (issued w0 w1) ->
  Forall (fun ev => succeeded ev = true) (issued w1 w2) ->
  pointCount (COLLECTION_NAME cfg) (store w1)
  = pointCount (COLLECTION_NAME cfg) (store w2)
  /\ forall id,
      payloadAt (COLLECTION_NAME cfg) (store w1) id
      = payloadAt (COLLECTION_NAME cfg) (store w2) id.
Proof.
  intros Hmain1 Hmain2 Hok1 Hok2.
  apply main_sync_run in Hmain1, Hmain2.
  pose proof (sync_run_final _ _ _ _ _ _ _ Hmain1 Hok1) as H1.
  pose proof (sync_run_final _ _ _ _ _ _ _ Hmain2 Hok2) as H2.
  unfold pointCount, payloadAt.
  destruct (unset (OPENAI_API_KEY cfg) || unset (QDRANT_API_KEY cfg)
            || DRY_RUN cfg).
  - by rewrite H2.
  - destruct H1 as (c1 & -> & Hc1), H2 as (c2 & -> & Hc2).
    assert (Hsame : forall id, Point.payload <$> points c1 !! id
                               = Point.payload <$> points c2 !! id).
    { intros id. by rewrite Hc1, Hc2. }
    split; [by apply same_payloads_same_size|done].
Qed.

(** The runs [Sample.uploaded] and [Sample.again]: two points after
    each. *)
Lemma rebuild_twice_same_collection_witness :
  pointCount "librechat-code" (store Sample.uploaded.2) = 2
  /\ pointCount (COLLECTION_NAME Sample.cfg) (store Sample.uploaded.2)
     = pointCount (COLLECTION_NAME Sample.cfg) (store Sample.again.2)
  /\ forall id,
      payloadAt (COLLECTION_NAME Sample.cfg) (store Sample.uploaded.2) id
      = payloadAt (COLLECTION_NAME Sample.cfg) (store Sample.again.2) id.
Proof.
  assert (Hok1 : Forall (fun ev => succeeded ev = true)
                        (issued initial Sample.uploaded.2)).
  { vm_compute. repeat constructor. }
  assert (Hok2 : Forall (fun ev => succeeded ev = true)
                        (issued Sample.uploaded.2 Sample.again.2)).
  { vm_compute. repeat constructor. }
  split; [vm_compute; reflexivity|].
  exact (rebuild_twice_same_collection Sample.whole Sample.cfg Sample.up
           Sample.up "/repo" Sample.repo initial
           Sample.uploaded.1 Sample.uploaded.2 Sample.again.1 Sample.again.2
           (surjective_pairing Sample.uploaded) (surjective_pairing Sample.again)
           Hok1 Hok2).
Defined.

(** ** The text chunker *)

Section ChunkerModel.

Import Chunker.

Lemma lastCut_range boundary window c k :
  lastCut boundary window c = Some k -> 1 <= k <= c.
Proof.
  induction c as [|c IH]; [done|]. cbn [lastCut].
  destruct (endsWith _ _).
  - intros [= <-]. lia.
  - intros Hk. apply IH in Hk. lia.
Qed.

Lemma cutAt_range window :
  window <> [] -> 1 <= cutAt window <= length window.
Proof.
  intros Hne. unfold cutAt.
  repeat match goal with
         | |- context [lastCut ?b ?w ?c] =>
             let H := fresh "H" in
             destruct (lastCut b w c) eqn:H;
             [apply lastCut_range in H; lia|]
         end.
  destruct window; [done|]. simpl. lia.
Qed.

Lemma length_lastN {A} n (l : list A) : length (lastN n l) = min n (length l).
Proof. unfold lastN. rewrite length_drop. lia. Qed.

Lemma length_string_of_list_ascii l :
  String.length (string_of_list_ascii l) = length l.
Proof. induction l as [|a l IH]; simpl; [done|]. by rewrite IH. Qed.

Lemma chars_of_strings (chunks : list (list ascii)) :
  list_ascii_of_string <$> (string_of_list_ascii <$> chunks) = chunks.
Proof.
  induction chunks as [|chunk chunks IH]; [done|].
  rewrite !fmap_cons, IH. by rewrite list_ascii_of_string_of_list_ascii.
Qed.

Variables size overlap : nat.
Hypothesis Hvalid : overlap < size.

Lemma chunksFrom_bounded fuel : forall carry rest,
  length carry <= overlap ->
  Forall (fun chunk => length chunk <= size)
         (chunksFrom fuel size overlap carry rest).
Proof.
  induction fuel as [|fuel IH]; intros carry rest Hcarry; cbn [chunksFrom];
    [constructor|].
  destruct rest as [|a rest]; [constructor|].
  destruct (length (a :: rest) <=? size - length carry) eqn:Hfits.
  - apply Nat.leb_le in Hfits. repeat constructor.
    rewrite length_app. lia.
  - apply Nat.leb_gt in Hfits.
    pose proof (cutAt_range (take (size - length carry) (a :: rest))) as Hcut.
    rewrite length_take in Hcut.
    destruct Hcut as [Hcut1 Hcut2].
    { intros Hnil. apply (f_equal length) in Hnil.
      rewrite length_take in Hnil. simpl in *. lia. }
    constructor.
    + rewrite length_app, length_take. lia.
    + apply IH. rewrite length_lastN. lia.
Qed.

End ChunkerModel.

Lemma construct_valid o split :
  Chunker.construct o = Chunker.Constructed split ->
  Chunker.chunkOverlap o < Chunker.chunkSize o /\ split = Chunker.splitText o.
Proof.
  unfold Chunker.construct.
  destruct (Chunker.chunkSize o <=? Chunker.chunkOverlap o) eqn:Hle; [done|].
  apply Nat.leb_gt in Hle. by intros [= <-].
Qed.

(** ** The text splitter of the script *)

Section SplitterModel.

Import TextSplitter.

Variable this : fields.

Lemma trimStart_keeps c text :
  c ∈ text -> isSpace c = false -> c ∈ trimStart text.
Proof.
  intros Hc Hns. induction text as [|a text IH]; [done|].
  simpl. destruct (isSpace a) eqn:Ha; [|done].
  apply elem_of_cons in Hc as [->|Hc]; [congruence|by apply IH].
Qed.

Lemma trim_keeps c text :
  c ∈ text -> isSpace c = false -> c ∈ trim text.
Proof.
  intros Hc Hns. unfold trim, trimEnd.
  apply elem_of_reverse, trimStart_keeps; [|done].
  apply elem_of_reverse. by apply trimStart_keeps.
Qed.

Lemma join_empty_separator docs : join docs [] = concat docs.
Proof.
  induction docs as [|d [|d' docs] IH];
    [done|simpl; by rewrite app_nil_r|].
  change (join (d :: d' :: docs) []) with (d ++ [] ++ join (d' :: docs) []).
  by rewrite IH.
Qed.

Lemma concat_nonempty (pieces : list (list ascii)) :
  pieces <> [] -> Forall (fun p => p <> []) pieces -> concat pieces <> [].
Proof.
  destruct pieces as [|p pieces]; [done|]. intros _ Hne.
  apply Forall_cons in Hne as [Hp _]. simpl. by destruct p.
Qed.

Lemma splitAhead_concat separator text : forall cur,
  concat (splitAhead separator cur text) = cur ++ text.
Proof.
  induction text as [|c text IH]; intros cur.
  - destruct cur; simpl; by rewrite ?app_nil_r.
  - simpl. destruct cur as [|a cur].
    + by rewrite IH.
    + destruct (startsWith separator (c :: text)).
      * simpl. by rewrite IH.
      * rewrite IH. by rewrite <- app_assoc.
Qed.

Lemma splitAhead_nonempty separator text : forall cur,
  Forall (fun p => p <> []) (splitAhead separator cur text).
Proof.
  induction text as [|c text IH]; intros cur.
  - destruct cur; by repeat constructor.
  - simpl. destruct cur as [|a cur]; [apply IH|].
    destruct (startsWith separator (c :: text)); [|apply IH].
    constructor; [done|apply IH].
Qed.

Lemma splitOnSeparator_concat text separator :
  concat (splitOnSeparator text separator) = text.
Proof.
  destruct separator as [|a separator].
  - change (concat ((fun c => [c]) <$> text) = text).
    induction text as [|c text IH]; [done|].
    rewrite fmap_cons. simpl. by f_equal.
  - apply (splitAhead_concat (a :: separator) text []).
Qed.

Lemma splitOnSeparator_nonempty text separator :
  Forall (fun p => p <> []) (splitOnSeparator text separator).
Proof.
  destruct separator as [|a separator].
  - simpl. apply Forall_fmap, Forall_forall. done.
  - apply splitAhead_nonempty.
Qed.

Lemma accounts_app overlap before chunks1 text1 chunks2 text2 :
  accounts overlap before chunks1 text1 ->
  accounts overlap (before ++ text1) chunks2 text2 ->
  accounts overlap before (chunks1 ++ chunks2) (text1 ++ text2).
Proof.
  induction 1 as [before
                 |before piece chunks rest Hpiece _ IH
                 |before carry piece chunks rest Hpiece Hcarry Hlen Hkeep _ IH
                 |before carry piece chunks rest Hpiece Hcarry Hlen Hdrop _ IH];
    intros Hnext.
  - by rewrite app_nil_r in Hnext.
  - rewrite <- app_assoc. simpl. apply accounts_whole; [done|].
    apply IH. by rewrite <- app_assoc.
  - rewrite <- app_assoc. simpl. apply accounts_trimmed; [done..|].
    apply IH. by rewrite <- app_assoc.
  - rewrite <- app_assoc. eapply accounts_blank; [done..|].
    apply IH. by rewrite <- app_assoc.
Qed.

Lemma accounts_later overlap before chunks text :
  accounts overlap before chunks text ->
  forall earlier, accounts overlap (earlier ++ before) chunks text.
Proof.
  induction 1 as [before
                 |before piece chunks rest Hpiece _ IH
                 |before carry piece chunks rest Hpiece Hcarry Hlen Hkeep _ IH
                 |before carry piece chunks rest Hpiece Hcarry Hlen Hdrop _ IH];
    intros earlier.
  - constructor.
  - apply accounts_whole; [done|]. rewrite <- app_assoc. apply IH.
  - apply accounts_trimmed; [done|by apply suffix_app_r|done..|].
    rewrite <- app_assoc. apply IH.
  - eapply accounts_blank; [done|by apply suffix_app_r|done..|].
    rewrite <- app_assoc. apply IH.
Qed.

Lemma shifting_kept len currentDoc : forall total,
  total = length (concat currentDoc) ->
  (shifting this len 0 currentDoc total).1 `suffix_of` currentDoc
  /\ (shifting this len 0 currentDoc total).2
     = length (concat (shifting this len 0 currentDoc total).1)
  /\ (shifting this len 0 currentDoc total).2 <= chunkOverlap this.
Proof.
  induction currentDoc as [|first currentDoc IH]; intros total Htotal.
  - simpl in *. split; [done|]. split; [done|]. lia.
  - cbn [shifting].
    destruct (_ || _) eqn:Hcond.
    + destruct (IH (total - length first)) as (Hsuf & Hlen & Hle).
      { rewrite Htotal. simpl. rewrite length_app. lia. }
      split; [by apply suffix_cons_r|done].
    + simpl. split; [done|]. split; [done|].
      apply orb_false_iff in Hcond as [Hover _].
      apply Nat.ltb_ge in Hover. done.
Qed.

Lemma suffix_concat (kept currentDoc : list (list ascii)) :
  kept `suffix_of` currentDoc -> concat kept `suffix_of` concat currentDoc.
Proof.
  intros [earlier ->]. rewrite concat_app. by apply suffix_app_r.
Qed.

Lemma window_accounts before carryP freshP chunks rest :
  freshP <> [] -> Forall (fun p => p <> []) freshP ->
  concat carryP `suffix_of` before ->
  length (concat carryP) <= chunkOverlap this ->
  accounts (chunkOverlap this) (before ++ concat freshP) chunks rest ->
  accounts (chunkOverlap this) before
           (option_list (joinDocs (carryP ++ freshP) []) ++ chunks)
           (concat freshP ++ rest).
Proof.
  intros Hfresh Hne Hcarry Hlen Hrest.
  pose proof (concat_nonempty _ Hfresh Hne) as Hpiece.
  unfold joinDocs. rewrite join_empty_separator, concat_app.
  destruct (trim (concat carryP ++ concat freshP)) as [|a text] eqn:Htrim.
  - simpl. by eapply accounts_blank.
  - simpl. rewrite <- Htrim. apply accounts_trimmed; try done.
    by rewrite Htrim.
Qed.

Lemma merging_accounts splits : forall carryP freshP total before,
  Forall (fun p => p <> []) splits ->
  Forall (fun p => p <> []) freshP ->
  carryP = [] \/ freshP <> [] ->
  concat carryP `suffix_of` before ->
  length (concat carryP) <= chunkOverlap this ->
  total = length (concat (carryP ++ freshP)) ->
  accounts (chunkOverlap this) before
           (merging this [] splits (carryP ++ freshP) total)
           (concat freshP ++ concat splits).
Proof.
  induction splits as [|d splits IH];
    intros carryP freshP total before Hsplits Hne Hstate Hcarry Hlen Htotal.
  - cbn [merging concat].
    destruct freshP as [|p freshP].
    + destruct Hstate as [->|]; [|done]. simpl. constructor.
    + rewrite <- (app_nil_r (option_list _)).
      apply window_accounts; try done. constructor.
  - apply Forall_cons in Hsplits as [Hd Hsplits].
    assert (Hpush : accounts (chunkOverlap this) before
              (merging this [] splits ((carryP ++ freshP) ++ [d])
                       (total + length d))
              (concat freshP ++ concat (d :: splits))).
    { rewrite <- app_assoc.
      replace (concat freshP ++ concat (d :: splits))
        with (concat (freshP ++ [d]) ++ concat splits)
        by (rewrite concat_app; simpl; by rewrite app_nil_r, <- app_assoc).
      apply IH; try done.
      - apply Forall_app. split; [done|by constructor].
      - right. by destruct freshP.
      - rewrite Htotal, !concat_app, !length_app. simpl.
        rewrite app_nil_r. lia. }
    cbn [merging]. cbv zeta.
    destruct (_ && _) eqn:Hflush; [|exact Hpush].
    apply andb_true_iff in Hflush as [_ Hsome]. apply Nat.ltb_lt in Hsome.
    assert (Hfresh : freshP <> []).
    { intros ->. destruct Hstate as [->|]; [|done]. simpl in Hsome. lia. }
    destruct (shifting_kept (length d) (carryP ++ freshP) total Htotal)
      as (Hsuf & Hkept & Hle).
    set (kept := shifting this (length d) (length []) (carryP ++ freshP) total)
      in *.
    simpl. apply window_accounts; try done.
    replace (d ++ concat splits) with (concat [d] ++ concat splits)
      by (simpl; by rewrite app_nil_r).
    apply IH; try done.
    + by constructor.
    + by right.
    + apply suffix_concat in Hsuf. rewrite concat_app in Hsuf.
      destruct Hsuf as [earlier Hsuf]. destruct Hcarry as [start ->].
      exists (start ++ earlier). rewrite <- !app_assoc. f_equal. exact Hsuf.
    + unfold kept. simpl length. rewrite <- Hkept. exact Hle.
    + unfold kept. simpl length. rewrite concat_app, length_app, <- Hkept.
      simpl. rewrite app_nil_r. done.
Qed.

Lemma mergeSplits_accounts goodSplits before :
  Forall (fun p => p <> []) goodSplits ->
  accounts (chunkOverlap this) before
           match goodSplits with
           | [] => []
           | _ :: _ => mergeSplits this goodSplits []
           end
           (concat goodSplits).
Proof.
  intros Hne. destruct goodSplits as [|s goodSplits]; [constructor|].
  apply (merging_accounts (s :: goodSplits) [] [] 0 before); try done.
  - by left.
  - apply suffix_nil.
  - simpl. lia.
Qed.

Lemma eachSplit_accounts deeper :
  (forall s, s <> [] -> accounts (chunkOverlap this) [] (deeper s) s) ->
  forall splits goodSplits before,
    Forall (fun p => p <> []) splits ->
    Forall (fun p => p <> []) goodSplits ->
    accounts (chunkOverlap this) before
             (eachSplit this deeper splits goodSplits)
             (concat goodSplits ++ concat splits).
Proof.
  intros Hdeeper. induction splits as [|s splits IH];
    intros goodSplits before Hsplits Hgood.
  - cbn [eachSplit concat]. rewrite app_nil_r.
    by apply mergeSplits_accounts.
  - apply Forall_cons in Hsplits as [Hs Hsplits]. cbn [eachSplit].
    destruct (length s <? chunkSize this).
    + replace (concat goodSplits ++ concat (s :: splits))
        with (concat (goodSplits ++ [s]) ++ concat splits)
        by (rewrite concat_app; simpl; by rewrite app_nil_r, <- app_assoc).
      apply IH; [done|]. apply Forall_app. split; [done|by constructor].
    + apply accounts_app; [by apply mergeSplits_accounts|].
      cbn [concat]. apply accounts_app.
      * rewrite <- (app_nil_r (before ++ concat goodSplits)).
        apply accounts_later. by apply Hdeeper.
      * apply (IH [] _ Hsplits). constructor.
Qed.

Lemma splitText_accounts separators : forall text,
  accounts (chunkOverlap this) [] (_splitText this separators text) text.
Proof.
  assert (Hraw : forall s : list ascii,
             s <> [] -> accounts (chunkOverlap this) [] [s] s).
  { intros s Hs. rewrite <- (app_nil_r s) at 2.
    apply accounts_whole; [done|constructor]. }
  assert (Hchars : forall text,
             accounts (chunkOverlap this) []
               (eachSplit this (fun s => [s]) (splitOnSeparator text []) [])
               text).
  { intros text.
    rewrite <- (splitOnSeparator_concat text []) at 2.
    apply (eachSplit_accounts _ Hraw _ [] []); [|constructor].
    apply splitOnSeparator_nonempty. }
  induction separators as [|s newSeparators IH]; intros text; [apply Hchars|].
  cbn [_splitText]. destruct s as [|a s]; [apply Hchars|].
  destruct (includes text (a :: s)); [|apply IH].
  rewrite <- (splitOnSeparator_concat text (a :: s)) at 2.
  apply (eachSplit_accounts _ (fun t _ => IH t) _ [] []); [|constructor].
  apply splitOnSeparator_nonempty.
Qed.

Lemma accounts_keeps overlap before chunks text :
  accounts overlap before chunks text ->
  forall c, c ∈ text -> isSpace c = false ->
            exists chunk, chunk ∈ chunks /\ c ∈ chunk.
Proof.
  induction 1 as [before
                 |before piece chunks rest Hpiece _ IH
                 |before carry piece chunks rest Hpiece Hcarry Hlen Hkeep _ IH
                 |before carry piece chunks rest Hpiece Hcarry Hlen Hdrop _ IH];
    intros c Hc Hns.
  - by apply elem_of_nil in Hc.
  - apply elem_of_app in Hc as [Hc|Hc].
    + exists piece. split; [by left|done].
    + destruct (IH c Hc Hns) as (chunk & Hin & Hchunk).
      exists chunk. split; [by right|done].
  - apply elem_of_app in Hc as [Hc|Hc].
    + exists (trim (carry ++ piece)). split; [by left|].
      apply trim_keeps; [|done]. apply elem_of_app. by right.
    + destruct (IH c Hc Hns) as (chunk & Hin & Hchunk).
      exists chunk. split; [by right|done].
  - apply elem_of_app in Hc as [Hc|Hc]; [|by apply IH].
    assert (Hin : c ∈ trim (carry ++ piece)).
    { apply trim_keeps; [|done]. apply elem_of_app. by right. }
    rewrite Hdrop in Hin. by apply elem_of_nil in Hin.
Qed.

End SplitterModel.

Lemma construct_splitter o split :
  TextSplitter.construct o = TextSplitter.Constructed split ->
  TextSplitter.chunkOverlap o < TextSplitter.chunkSize o
  /\ split = TextSplitter.splitText o.
Proof.
  unfold TextSplitter.construct.
  destruct (TextSplitter.chunkSize o <=? TextSplitter.chunkOverlap o) eqn:Hle;
    [done|].
  apply Nat.leb_gt in Hle. by intros [= <-].
Qed.

Lemma chunk_texts_of_documents split fileData w documents w' :
  processFile split (Some fileData) w = (Return documents, w') ->
  pageContent <$> documents = split (content fileData).
Proof.
  intros Hrun.
  destruct (processFile_run split (Some fileData) w) as (w'' & Hrun' & _).
  rewrite Hrun' in Hrun. injection Hrun as <- _.
  apply (chunksOf_pageContent split (Some fileData)).
Qed.

(** C1: coverage, up to the white space at the ends of the chunks. For
    every content and every valid configuration, the chunk texts
    [processFile] returns account for the content piece by piece: the
    content is a sequence of consecutive non-empty pieces, and the
    chunks are, in order, for each piece in turn either the piece as it
    is, or the piece after an overlap of at most chunkOverlap characters
    taken from the end of the text before it, with the white space at
    both ends removed, and no chunk when that leaves nothing. Every
    character of the content that is not white space appears in a
    chunk. *)
Theorem chunks_cover_but_trimmed_space o split fileData w documents w' :
  TextSplitter.construct o = TextSplitter.Constructed split ->
  processFile split (Some fileData) w = (Return documents, w') ->
  accounts (TextSplitter.chunkOverlap o) []
           (list_ascii_of_string <$> (pageContent <$> documents))
           (list_ascii_of_string (content fileData))
  /\ forall i c,
      list_ascii_of_string (content fileData) !! i = Some c ->
      TextSplitter.isSpace c = false ->
      exists chunk,
        chunk ∈ pageContent <$> documents
        /\ c ∈ list_ascii_of_string chunk.
Proof.
  intros Hc Hrun. apply construct_splitter in Hc as [_ ->].
  rewrite (chunk_texts_of_documents _ _ _ _ _ Hrun).
  unfold TextSplitter.splitText. rewrite chars_of_strings.
  pose proof (splitText_accounts o TextSplitter.separators
                (list_ascii_of_string (content fileData))) as Hacc.
  split; [exact Hacc|].
  intros i c Hi Hns. apply list_elem_of_lookup_2 in Hi.
  destruct (accounts_keeps _ _ _ _ Hacc c Hi Hns) as (chunk & Hin & Hchunk).
  exists (string_of_list_ascii chunk). split.
  - by apply list_elem_of_fmap_2.
  - by rewrite list_ascii_of_string_of_list_ascii.
Qed.

(** The example of the specification: the content "A. B. C." with
    chunkSize 4 and chunkOverlap 2. *)
Lemma chunks_cover_but_trimmed_space_witness :
  accounts 2 []
           (list_ascii_of_string
              <$> (pageContent
                     <$> chunksOf (TextSplitter.splitText TextSplitter.example)
                           (Some {| path := "notes.md";
                                    content := "A. B. C." |})))
           (list_ascii_of_string "A. B. C.")
  /\ forall i c,
      list_ascii_of_string "A. B. C." !! i = Some c ->
      TextSplitter.isSpace c = false ->
      exists chunk,
        chunk ∈ pageContent
                  <$> chunksOf (TextSplitter.splitText TextSplitter.example)
                        (Some {| path := "notes.md"; content := "A. B. C." |})
        /\ c ∈ list_ascii_of_string chunk.
Proof.
  assert (Hc : TextSplitter.construct TextSplitter.example
               = TextSplitter.Constructed
                   (TextSplitter.splitText TextSplitter.example))
    by reflexivity.
  assert (Hrun : processFile (TextSplitter.splitText TextSplitter.example)
                   (Some {| path := "notes.md"; content := "A. B. C." |})
                   initial
                 = (Return (chunksOf
                              (TextSplitter.splitText TextSplitter.example)
                              (Some {| path := "notes.md";
                                       content := "A. B. C." |})),
                    (processFile (TextSplitter.splitText TextSplitter.example)
                       (Some {| path := "notes.md"; content := "A. B. C." |})
                       initial).2))
    by reflexivity.
  exact (chunks_cover_but_trimmed_space TextSplitter.example
           (TextSplitter.splitText TextSplitter.example)
           {| path := "notes.md"; content := "A. B. C." |} initial
           _ _ Hc Hrun).
Defined.

(** C1 as stated fails: for the content "A. B. C." with chunkSize 4 and
    chunkOverlap 2, [processFile] returns the chunks "A.", "B." and
    "C.". The spaces of the content are in no chunk; and whatever is
    cut off the front of the chunks as their overlaps, what is left of
    them, put end to end, is not the content. *)
Lemma spaces_of_content_in_no_chunk :
  TextSplitter.construct TextSplitter.example
  = TextSplitter.Constructed (TextSplitter.splitText TextSplitter.example)
  /\ (processFile (TextSplitter.splitText TextSplitter.example)
        (Some {| path := "notes.md"; content := "A. B. C." |}) initial).1
     = Return
         [ {| pageContent := "A.";
              metadata := {| Metadata.path := "notes.md";
                             Metadata.chunk := 0;
                             Metadata.totalChunks := 3 |} |};
           {| pageContent := "B.";
              metadata := {| Metadata.path := "notes.md";
                             Metadata.chunk := 1;
                             Metadata.totalChunks := 3 |} |};
           {| pageContent := "C.";
              metadata := {| Metadata.path := "notes.md";
                             Metadata.chunk := 2;
                             Metadata.totalChunks := 3 |} |} ]
  /\ ~ (forall i c,
           list_ascii_of_string "A. B. C." !! i = Some c ->
           exists chunk,
             chunk ∈ TextSplitter.splitText TextSplitter.example "A. B. C."
             /\ c ∈ list_ascii_of_string chunk)
  /\ forall overlaps,
      concat (zip_with drop overlaps
                (list_ascii_of_string
                   <$> TextSplitter.splitText TextSplitter.example "A. B. C."))
      <> list_ascii_of_string "A. B. C.".
Proof.
  assert (Hchunks : TextSplitter.splitText TextSplitter.example "A. B. C."
                    = ["A."; "B."; "C."]) by (vm_compute; reflexivity).
  assert (Hno : forall chunk,
             chunk ∈ TextSplitter.splitText TextSplitter.example "A. B. C." ->
             " "%char ∈ list_ascii_of_string chunk -> False).
  { intros chunk Hin Hspace. rewrite Hchunks in Hin.
    repeat (apply elem_of_cons in Hin as [->|Hin]);
      [..|by apply elem_of_nil in Hin];
      simpl in Hspace;
      repeat (apply elem_of_cons in Hspace as [Hspace|Hspace];
              [discriminate|]);
      by apply elem_of_nil in Hspace. }
  split; [reflexivity|]. split; [vm_compute; reflexivity|]. split.
  - intros Hall. destruct (Hall 2 " "%char eq_refl) as (chunk & Hin & Hspace).
    by apply (Hno chunk).
  - intros overlaps Heq.
    assert (Hspace : " "%char
                     ∈ concat (zip_with drop overlaps
                         (list_ascii_of_string
                            <$> TextSplitter.splitText TextSplitter.example
                                  "A. B. C."))).
    { rewrite Heq. apply (list_elem_of_lookup_2 _ 2). reflexivity. }
    apply list_elem_of_In, in_concat in Hspace as (piece & Hpiece & Hspace).
    apply list_elem_of_In in Hpiece, Hspace.
    apply elem_of_zip_with in Hpiece as (n & chars & -> & _ & Hchars).
    apply list_elem_of_fmap in Hchars as (chunk & -> & Hin).
    apply (Hno chunk Hin).
    apply list_elem_of_lookup in Hspace as [j Hj].
    rewrite lookup_drop in Hj. by eapply list_elem_of_lookup_2.
Qed.

(** C2: chunk size, for the chunker of the specification. For every
    content and every valid configuration, every chunk has at most
    chunkSize characters; and the empty content has no chunk. *)
Theorem chunks_within_size o split content :
  Chunker.construct o = Chunker.Constructed split ->
  Forall (fun chunk => String.length chunk <= Chunker.chunkSize o)
         (split content)
  /\ split EmptyString = [].
Proof.
  intros Hc. apply construct_valid in Hc as [Hvalid ->]. split; [|done].
  unfold Chunker.splitText. apply Forall_fmap.
  eapply Forall_impl; [by apply chunksFrom_bounded; [|simpl; lia]|].
  intros chunk Hchunk. simpl. by rewrite length_string_of_list_ascii.
Qed.

Lemma chunks_within_size_witness :
  Forall (fun chunk => String.length chunk <= 4)
         (Chunker.splitText Chunker.example "A. B. C.")
  /\ Chunker.splitText Chunker.example EmptyString = [].
Proof.
  exact (chunks_within_size Chunker.example
           (Chunker.splitText Chunker.example) "A. B. C." eq_refl).
Defined.

(** C7: invalid overlap, for the chunker of the specification. For
    every configuration with chunkOverlap >= chunkSize, the construction
    of the chunker fails with ConfigurationError: there is no splitter,
    hence no chunk sequence. *)
Theorem construct_rejects_overlap o :
  Chunker.chunkSize o <= Chunker.chunkOverlap o ->
  Chunker.construct o = Chunker.ConfigurationError.
Proof.
  intros Hle. unfold Chunker.construct.
  by apply Nat.leb_le in Hle as ->.
Qed.

Lemma construct_rejects_overlap_witness :
  Chunker.construct {| Chunker.chunkSize := 4; Chunker.chunkOverlap := 4 |}
  = Chunker.ConfigurationError.
Proof.
  apply construct_rejects_overlap. simpl. lia.
Defined.

(** * Further properties *)

(** ** The reset in detail *)

Lemma collectionExists_lookup w name :
  existsb (fun n => String.eqb n name) (collectionNames w) = true
  <-> is_Some (store w !! name).
Proof.
  unfold collectionNames. rewrite existsb_exists. split.
  - intros (n & Hn & Heq). apply String.eqb_eq in Heq. subst n.
    apply list_elem_of_In, list_elem_of_fmap in Hn as ([n c] & -> & Hnc).
    apply elem_of_map_to_list in Hnc. by exists c.
  - intros [c Hc]. exists name. split; [|apply String.eqb_refl].
    apply list_elem_of_In, list_elem_of_fmap. exists (name, c).
    split; [done|]. by apply elem_of_map_to_list.
Qed.

Section Detail.

Variable splitText : string -> list string.
Variable cfg : config.
Variable E : env.
Variable repoPath : string.
Variable repo : node.

(** Rewrite the stores of the later worlds into those of the earlier
    ones, in the hypotheses too. *)
Ltac stores :=
  repeat match goal with
         | H : store ?w' = _, H' : context [store ?w'] |- _ =>
             lazymatch type of H' with
             | store w' = _ => fail
             | _ => rewrite H in H'
             end
         end.

(** Unfold what the served requests did to the store. *)
Ltac served :=
  repeat match goal with
         | H : serve _ _ = Some _ |- _ => simpl in H
         | H : Some _ = Some ?s |- _ => injection H as H; subst s
         end.

Lemma resetCollection_detail w :
  DRY_RUN cfg = false ->
  wp (resetCollection cfg E) w
     (fun r w' =>
        exists evs,
          trace w' = trace w ++ evs
          /\ reset_run (COLLECTION_NAME cfg) (store w) evs r (store w')).
Proof.
  intros Hdry. unfold resetCollection. rewrite Hdry.
  do 3 wp_step. wp_step. wp_remote E; [|wp_run E; events; back; constructor].
  wp_step.
  destruct (existsb _ _) eqn:Hex.
  - apply collectionExists_lookup in Hex.
    wp_run E; events; back; stores; served.
    + match goal with
      | H : context [delete _ _ !! _] |- _ => rewrite lookup_delete_eq in H
      end.
      served. rewrite insert_delete_eq. by apply reset_replaced.
    + by apply reset_create_failed_after_delete.
    + by apply reset_delete_failed.
  - assert (Hnone : store w !! COLLECTION_NAME cfg = None).
    { apply eq_None_not_Some. intros Hsome.
      assert (Hex' : existsb (fun n => String.eqb n (COLLECTION_NAME cfg))
                             (collectionNames w'0) = true).
      { apply collectionExists_lookup. congruence. }
      congruence. }
    wp_run E; events; back; stores; served.
    + match goal with
      | H : context [store w !! _] |- _ => rewrite Hnone in H
      end.
      served. by apply reset_created.
    + by apply reset_create_failed.
Qed.

Lemma syncRepository_detail w :
  wp (syncRepository splitText cfg E repoPath repo) w
     (fun r w' => run_detail splitText cfg repoPath repo w w' (exitCode r)).
Proof.
  unfold syncRepository. wp_run E.
  eapply wp_mono with
    (Q := fun r w' => r = Return tt /\ trace w' = trace w /\ store w' = store w).
  { destruct (DRY_RUN cfg); wp_run E; (split; [done|]); split; congruence. }
  intros r w2 (-> & Ht2 & Hs2).
  wp_run E. eapply wp_mono; [apply checkRequiredAPIKeys_run|].
  intros r w3 (Ht3 & Hs3 & [[-> Hkeys]|[-> Hkeys]]);
    [|apply detail_keys_unset; [done|congruence|congruence|done]].
  wp_run E. destruct (DRY_RUN cfg) eqn:Hdry.
  - eapply wp_mono; [by apply resetCollection_dry|].
    intros r w4 (-> & Ht4 & Hs4). wp_run E.
    destruct (getFiles repoPath repo) as [files|e] eqn:Hfiles; wp_run E.
    + eapply wp_mono; [apply processFiles_run|].
      intros r w7 (-> & Ht7 & Hs7). wp_run E.
      eapply wp_mono; [by apply uploadToQdrant_dry|].
      intros r w9 (-> & Ht9 & Hs9). wp_run E.
      apply detail_dry; [done|done|congruence|congruence|by rewrite Hfiles].
    + apply detail_dry; [done|done|congruence|congruence|by rewrite Hfiles].
  - eapply wp_mono; [by apply resetCollection_detail|].
    intros r w4 (evs & Ht4 & Hreset).
    assert (Hstore : store w3 = store w) by congruence.
    rewrite Hstore in Hreset.
    destruct r as [[]|e|code].
    + wp_run E.
      destruct (getFiles repoPath repo) as [files|e] eqn:Hfiles; wp_run E.
      * eapply wp_mono; [apply processFiles_run|].
        intros r w7 (-> & Ht7 & Hs7). wp_run E.
        eapply wp_mono; [by apply uploadToQdrant_run|].
        intros r w9 (-> & uevs & Ht9 & Hrun). wp_run E.
        apply (detail_uploaded _ _ _ _ _ _ _ evs (store w4) files uevs);
          try done.
        -- back. by rewrite app_assoc.
        -- revert Hrun. back. done.
      * apply (detail_scan_failed _ _ _ _ _ _ _ evs e); try done.
        -- congruence.
        -- revert Hreset. back. done.
    + inversion Hreset.
    + assert (code = 1) as -> by (by inversion Hreset).
      apply (detail_reset_failed _ _ _ _ _ _ _ evs); try done. congruence.
Qed.

Lemma main_run_detail w code w' :
  main splitText cfg E repoPath repo w = (code, w') ->
  run_detail splitText cfg repoPath repo w w' code.
Proof.
  unfold main. intros Hmain.
  pose proof (syncRepository_detail w) as Hrun. unfold wp in Hrun.
  destruct (syncRepository _ _ _ _ _ w) as [r w0]. by injection Hmain as <- <-.
Qed.

End Detail.

(** ** The reset, fact by fact *)

Section ResetFacts.

Variable name : string.

Lemma reset_run_isReset s evs r s' :
  reset_run name s evs r s' -> Forall (fun ev => isReset ev = true) evs.
Proof. destruct 1; repeat constructor. Qed.

Lemma reset_run_targets s evs r s' :
  reset_run name s evs r s' -> Forall (fun ev => targets name ev = true) evs.
Proof. destruct 1; repeat constructor; simpl; apply String.eqb_refl. Qed.

Lemma reset_run_frame s evs r s' name' :
  reset_run name s evs r s' -> name' <> name -> s' !! name' = s !! name'.
Proof.
  destruct 1; intros Hne; try done.
  - by apply lookup_delete_ne.
  - by apply lookup_insert_ne.
  - by apply lookup_insert_ne.
Qed.

Lemma reset_run_return s evs s' :
  reset_run name s evs (Return tt) s' ->
  Forall (fun ev => succeeded ev = true) evs
  /\ s' = <[name := freshCollection]> s.
Proof. inversion 1; subst; split; try done; repeat constructor. Qed.

Lemma reset_run_exit s evs code s' :
  reset_run name s evs (Exit code) s' ->
  code = 1 /\ Exists (fun ev => succeeded ev = false) evs.
Proof.
  inversion 1; subst; split; try done;
    rewrite ?Exists_cons; simpl; tauto.
Qed.

Lemma reset_run_no_points s evs r s' :
  reset_run name s evs r s' ->
  requestedPoints evs = [] /\ upsertedPoints evs = [].
Proof. by destruct 1. Qed.

End ResetFacts.

(** ** The upload, fact by fact *)

Section UploadFacts.

Variable name : string.
Variable documents : list Document.

Lemma length_slice {A} (l : list A) i :
  length (slice l i (i + BATCH_SIZE)) = min BATCH_SIZE (length l - i).
Proof. unfold slice. rewrite length_take, length_drop. lia. Qed.

Lemma upload_run_targets i s evs s' :
  upload_run name documents i s evs s' ->
  Forall (fun ev => targets name ev = true) evs.
Proof. induction 1; repeat constructor; simpl; try apply String.eqb_refl; done. Qed.

Lemma upload_run_other_collections i s evs s' name' :
  upload_run name documents i s evs s' -> name' <> name ->
  s' !! name' = s !! name'.
Proof.
  induction 1 as [| | |i s vs s1 evs s' Hi Hserve Hrun IH]; intros Hne;
    try done.
  apply serve_upsert in Hserve as (c & Hc & ->).
  rewrite IH by done. by apply lookup_insert_ne.
Qed.

(** No batch is empty and none has more than [BATCH_SIZE] documents. *)
Lemma upload_run_batch_sizes i s evs s' :
  upload_run name documents i s evs s' ->
  Forall (fun ev =>
            match ev with
            | Qdrant (Upsert _ pts) _ => 1 <= length pts <= BATCH_SIZE
            | EmbedDocuments texts _ => 1 <= length texts <= BATCH_SIZE
            | _ => True
            end) evs.
Proof.
  assert (Hsize : forall i, i < length documents ->
            1 <= length (slice documents i (i + BATCH_SIZE)) <= BATCH_SIZE).
  { intros j Hj. rewrite length_slice. unfold BATCH_SIZE. lia. }
  induction 1 as [i s Hi|i s Hi|i s vs Hi|i s vs s1 evs s' Hi Hserve Hrun IH].
  - constructor.
  - constructor; [|constructor]. rewrite length_map. by apply Hsize.
  - constructor; [|constructor; [|constructor]].
    + rewrite length_map. by apply Hsize.
    + rewrite length_batchPoints. by apply Hsize.
  - constructor; [|constructor; [|exact IH]].
    + rewrite length_map. by apply Hsize.
    + rewrite length_batchPoints. by apply Hsize.
Qed.

Lemma batchPoints_ids i batch vs :
  Point.id <$> batchPoints i batch vs = seq i (length batch).
Proof.
  apply list_eq. intros k.
  rewrite list_lookup_fmap, batchPoints_lookup.
  destruct (batch !! k) as [doc|] eqn:Hk; simpl.
  - symmetry. apply lookup_seq. split; [done|]. by apply lookup_lt_Some in Hk.
  - symmetry. apply lookup_seq_ge. by apply lookup_ge_None in Hk.
Qed.

Lemma batchPoints_payloads i batch vs :
  Point.payload <$> batchPoints i batch vs = payloadOf <$> batch.
Proof.
  apply list_eq. intros k.
  rewrite !list_lookup_fmap, batchPoints_lookup.
  by destruct (batch !! k).
Qed.

Lemma slice_drop {A} (l : list A) i :
  slice l i (i + BATCH_SIZE) ++ drop (i + BATCH_SIZE) l = drop i l.
Proof.
  unfold slice. replace (i + BATCH_SIZE - i) with BATCH_SIZE by lia.
  rewrite <- (drop_drop l BATCH_SIZE i). apply take_drop.
Qed.

(** The points requested, over all the batches: consecutive ids from the
    current index on, and the payloads of the documents in order. *)
Lemma upload_run_requested i s evs s' :
  upload_run name documents i s evs s' ->
  Point.id <$> requestedPoints evs = seq i (length (requestedPoints evs))
  /\ (Point.payload <$> requestedPoints evs)
       `prefix_of` (payloadOf <$> drop i documents)
  /\ (Forall (fun ev => succeeded ev = true) evs ->
      Point.payload <$> requestedPoints evs = payloadOf <$> drop i documents).
Proof.
  induction 1 as [i s Hi|i s Hi|i s vs Hi
                 |i s vs s1 evs s' Hi Hserve Hrun (IHid & IHpay & IHall)].
  - simpl. split; [done|]. split; [apply prefix_nil|].
    intros _. by rewrite drop_ge.
  - simpl. split; [done|]. split; [apply prefix_nil|].
    intros Hok. inversion Hok as [|? ? Hbad]. done.
  - cbn [requestedPoints flat_map]. rewrite !app_nil_r, app_nil_l.
    rewrite length_batchPoints. split; [apply batchPoints_ids|].
    split.
    + rewrite batchPoints_payloads, <- (slice_drop documents i), fmap_app.
      by apply prefix_app_r.
    + intros Hok. inversion Hok as [|? ? _ Hok']. by inversion Hok'.
  - cbn [requestedPoints flat_map]. rewrite app_nil_l.
    fold (requestedPoints evs).
    set (batch := slice documents i (i + BATCH_SIZE)) in *.
    set (rest := requestedPoints evs) in *.
    rewrite !fmap_app, length_app, length_batchPoints.
    rewrite batchPoints_ids, batchPoints_payloads.
    rewrite <- (slice_drop documents i), fmap_app. fold batch.
    split; [|split].
    + rewrite seq_app, IHid. f_equal.
      destruct (decide (i + BATCH_SIZE <= length documents)) as [Hfull|Hpart].
      * do 2 f_equal. unfold batch. rewrite length_slice. lia.
      * assert (Hrest : length rest = 0).
        { destruct IHpay as [k Hk]. apply (f_equal length) in Hk.
          rewrite length_app, !length_fmap, length_drop in Hk. lia. }
        by rewrite Hrest.
    + by apply prefix_app.
    + intros Hok. inversion Hok as [|? ? _ Hok'].
      inversion Hok' as [|? ? _ Hok'']. by rewrite IHall.
Qed.

(** The collection after the upload holds the points upserted, each
    under its id, its position in the list. *)
Lemma upload_run_stored i s evs s' :
  upload_run name documents i s evs s' ->
  forall c (stored : list Point.t),
    s !! name = Some c ->
    length stored = min i (length documents) ->
    (forall id, points c !! id = stored !! id) ->
    exists c',
      s' !! name = Some c'
      /\ forall id, points c' !! id = (stored ++ upsertedPoints evs) !! id.
Proof.
  induction 1 as [i s Hi|i s Hi|i s vs Hi|i s vs s1 evs s' Hi Hserve Hrun IH];
    intros c stored Hc Hlen Hinv;
    try (exists c; split; [done|]; intros id; simpl;
         by rewrite ?app_nil_r, Hinv).
  apply serve_upsert in Hserve as (c0 & Hc0 & ->).
  rewrite Hc in Hc0. injection Hc0 as <-.
  set (batch := slice documents i (i + BATCH_SIZE)) in *.
  assert (Hbatch : length batch = min BATCH_SIZE (length documents - i))
    by apply length_slice.
  destruct (IH (upsertPoints (batchPoints i batch vs) c)
               (stored ++ batchPoints i batch vs))
    as (c' & Hc' & Hinv').
  - apply lookup_insert_eq.
  - rewrite length_app, length_batchPoints. lia.
  - intros id. rewrite upsertPoints_lookup.
    case_decide as Hid.
    + rewrite lookup_app_r by lia.
      replace (length stored) with i by lia.
      rewrite batchPoints_lookup.
      destruct (batch !! (id - i)); [|done]. simpl.
      do 2 f_equal. lia.
    + rewrite Hinv. destruct (decide (id < i)).
      * by rewrite lookup_app_l by lia.
      * rewrite !lookup_ge_None_2; [done| |lia].
        rewrite length_app, length_batchPoints. lia.
  - exists c'. split; [done|]. intros id. rewrite Hinv'.
    cbn [upsertedPoints flat_map]. rewrite app_nil_l.
    by rewrite app_assoc.
Qed.

(** When every call succeeds there is one batch per started hundred of
    documents. *)
Lemma upload_run_batch_count i s evs s' :
  upload_run name documents i s evs s' ->
  Forall (fun ev => succeeded ev = true) evs ->
  length (List.filter isUpsert evs)
  = (length documents - i + (BATCH_SIZE - 1)) / BATCH_SIZE.
Proof.
  induction 1 as [i s Hi|i s Hi|i s vs Hi|i s vs s1 evs s' Hi Hserve Hrun IH];
    intros Hok.
  - replace (length documents - i) with 0 by lia. done.
  - by inversion Hok.
  - inversion Hok as [|? ? _ Hok']. by inversion Hok'.
  - inversion Hok as [|? ? _ Hok']. inversion Hok' as [|? ? _ Hok''].
    cbn [List.filter isUpsert length]. rewrite (IH Hok'').
    unfold BATCH_SIZE in *.
    destruct (decide (i + 100 <= length documents)).
    + replace (length documents - i + (100 - 1))
        with (length documents - (i + 100) + (100 - 1) + 1 * 100) by lia.
      rewrite Nat.div_add by done. lia.
    + replace (length documents - (i + 100)) with 0 by lia.
      change ((0 + (100 - 1)) / 100) with 0.
      apply Nat.div_unique with (r := length documents - i - 1); lia.
Qed.

Lemma upload_run_upserted_prefix i s evs s' :
  upload_run name documents i s evs s' ->
  upsertedPoints evs `prefix_of` requestedPoints evs.
Proof.
  induction 1 as [i s Hi|i s Hi|i s vs Hi|i s vs s1 evs s' Hi Hserve Hrun IH];
    try apply prefix_nil.
  cbn [upsertedPoints requestedPoints flat_map]. rewrite !app_nil_l.
  by apply prefix_app.
Qed.

End UploadFacts.

(** ** Further properties of a run *)

Lemma requestedPoints_app evs1 evs2 :
  requestedPoints (evs1 ++ evs2) = requestedPoints evs1 ++ requestedPoints evs2.
Proof. apply flat_map_app. Qed.

Lemma upsertedPoints_app evs1 evs2 :
  upsertedPoints (evs1 ++ evs2) = upsertedPoints evs1 ++ upsertedPoints evs2.
Proof. apply flat_map_app. Qed.

Lemma size_of_lookups (m : gmap nat Point.t) (l : list Point.t) :
  (forall id, m !! id = l !! id) -> size m = length l.
Proof.
  intros Hm. rewrite <- (size_dom (D := gset nat)).
  rewrite <- (size_set_seq (C := gset nat) 0 (length l)). f_equal.
  apply set_eq. intros id.
  rewrite elem_of_dom, elem_of_set_seq, Hm, lookup_lt_is_Some. lia.
Qed.

Lemma upload_run_nothing name i s evs s' :
  upload_run name [] i s evs s' -> evs = [] /\ s' = s.
Proof. inversion 1; subst; simpl in *; try lia; done. Qed.

(** X1: a missing key. When OPENAI_API_KEY or QDRANT_API_KEY is
    undefined or empty, the process exits with code 1 without a single
    remote call and with the store untouched, with or without
    [--dry-run]. *)
Theorem missing_key_stops_the_run splitText cfg E repoPath repo w code w' :
  unset (OPENAI_API_KEY cfg) || unset (QDRANT_API_KEY cfg) = true ->
  main splitText cfg E repoPath repo w = (code, w') ->
  code = 1 /\ issued w w' = [] /\ store w' = store w.
Proof.
  intros Hkeys Hmain. apply main_run_detail in Hmain.
  destruct Hmain; try congruence.
  split; [done|]. split; [by apply issued_same|done].
Qed.

Lemma missing_key_stops_the_run_witness :
  Case.unkeyed.1 = 1
  /\ issued initial Case.unkeyed.2 = []
  /\ store Case.unkeyed.2 = store initial.
Proof.
  assert (Hkeys : unset (OPENAI_API_KEY Case.keyless)
                  || unset (QDRANT_API_KEY Case.keyless) = true)
    by reflexivity.
  exact (missing_key_stops_the_run Sample.whole Case.keyless Sample.up
           "/repo" Sample.repo initial Case.unkeyed.1 Case.unkeyed.2
           Hkeys (surjective_pairing Case.unkeyed)).
Defined.

(** X2: the exit code. The exit code is 0 or 1; it is 0 exactly when
    both keys are set, the walk of the repository succeeds and no call of
    the collection reset fails. Failed embedding requests and failed
    upserts do not change it. *)
Theorem exit_code_ignores_upload splitText cfg E repoPath repo w code w' :
  main splitText cfg E repoPath repo w = (code, w') ->
  (code = 0 \/ code = 1)
  /\ (code = 0 <->
      unset (OPENAI_API_KEY cfg) || unset (QDRANT_API_KEY cfg) = false
      /\ (exists files, getFiles repoPath repo = Ok files)
      /\ Forall (fun ev => isReset ev = true -> succeeded ev = true)
                (issued w w')).
Proof.
  intros Hmain. apply main_run_detail in Hmain.
  destruct Hmain as [Hkeys Ht Hs Hc|Hkeys Hdry Ht Hs Hc
                    |evs Hkeys Hdry Ht Hreset Hc
                    |evs e Hkeys Hdry Ht Hreset Hfiles Hc
                    |evs s1 files uevs Hkeys Hdry Ht Hreset Hfiles Hrun Hc].
  - split; [by right|]. split; [lia|]. intros (Hset & _). congruence.
  - rewrite (issued_same _ _ Ht).
    destruct (getFiles repoPath repo) as [files|e]; subst code.
    + split; [by left|]. split; [|done]. intros _. eauto.
    + split; [by right|]. split; [done|]. by intros (_ & [files ?] & _).
  - rewrite (issued_app _ _ _ Ht).
    split; [by right|]. subst code. split; [done|].
    intros (_ & _ & Hok). exfalso.
    pose proof (reset_run_isReset _ _ _ _ _ Hreset) as Hevs.
    apply reset_run_exit in Hreset as [_ Hfail].
    apply Exists_exists in Hfail as (ev & Hev & Hfailed).
    rewrite Forall_forall in Hok, Hevs.
    specialize (Hok ev Hev (Hevs ev Hev)). congruence.
  - split; [by right|]. subst code. split; [done|].
    intros (_ & [files Hok] & _). congruence.
  - rewrite (issued_app _ _ _ Ht).
    split; [by left|]. subst code. split; [|done]. intros _.
    split; [done|]. split; [by exists files|].
    apply Forall_app. split.
    + apply reset_run_return in Hreset as [Hok _].
      eapply Forall_impl; [exact Hok|]. auto.
    + apply upload_run_not_reset in Hrun.
      eapply Forall_impl; [exact Hrun|]. simpl. congruence.
Qed.

(** The run [Sample.rejected], where the only upsert fails, exits with
    code 0. *)
Lemma exit_code_ignores_upload_witness :
  Sample.rejected.1 = 0
  /\ (Sample.rejected.1 = 0 \/ Sample.rejected.1 = 1)
  /\ (Sample.rejected.1 = 0 <->
      unset (OPENAI_API_KEY Sample.cfg) || unset (QDRANT_API_KEY Sample.cfg)
      = false
      /\ (exists files, getFiles "/repo" Sample.repo = Ok files)
      /\ Forall (fun ev => isReset ev = true -> succeeded ev = true)
                (issued initial Sample.rejected.2)).
Proof.
  split; [vm_compute; reflexivity|].
  exact (exit_code_ignores_upload Sample.whole Sample.cfg Sample.upsertDown
           "/repo" Sample.repo initial Sample.rejected.1 Sample.rejected.2
           (surjective_pairing Sample.rejected)).
Defined.

(** X3: one collection. Every deletion, creation and upsert of a run
    names COLLECTION_NAME, and every other collection of the store is at
    the end what it was at the start. *)
Theorem only_the_configured_collection splitText cfg E repoPath repo
    w code w' :
  main splitText cfg E repoPath repo w = (code, w') ->
  Forall (fun ev => targets (COLLECTION_NAME cfg) ev = true) (issued w w')
  /\ forall name, name <> COLLECTION_NAME cfg ->
                  store w' !! name = store w !! name.
Proof.
  intros Hmain. apply main_run_detail in Hmain.
  destruct Hmain as [Hkeys Ht Hs Hc|Hkeys Hdry Ht Hs Hc
                    |evs Hkeys Hdry Ht Hreset Hc
                    |evs e Hkeys Hdry Ht Hreset Hfiles Hc
                    |evs s1 files uevs Hkeys Hdry Ht Hreset Hfiles Hrun Hc].
  - rewrite (issued_same _ _ Ht), Hs. by split.
  - rewrite (issued_same _ _ Ht), Hs. by split.
  - rewrite (issued_app _ _ _ Ht). split.
    + by eapply reset_run_targets.
    + intros name Hne. by eapply reset_run_frame.
  - rewrite (issued_app _ _ _ Ht). split.
    + by eapply reset_run_targets.
    + intros name Hne. by eapply reset_run_frame.
  - rewrite (issued_app _ _ _ Ht). split.
    + apply Forall_app. split.
      * by eapply reset_run_targets.
      * by eapply upload_run_targets.
    + intros name Hne.
      rewrite (upload_run_other_collections _ _ _ _ _ _ _ Hrun Hne).
      by eapply reset_run_frame.
Qed.

Lemma only_the_configured_collection_witness :
  Forall (fun ev => targets (COLLECTION_NAME Sample.cfg) ev = true)
         (issued Case.populated Case.beside.2)
  /\ forall name, name <> COLLECTION_NAME Sample.cfg ->
                  store Case.beside.2 !! name = store Case.populated !! name.
Proof.
  exact (only_the_configured_collection Sample.whole Sample.cfg Sample.up
           "/repo" Sample.repo Case.populated Case.beside.1 Case.beside.2
           (surjective_pairing Case.beside)).
Defined.

(** X6: a failed walk. Without [--dry-run] the repository is walked
    only after the collection was reset: when the walk fails, the
    process exits with code 1 having made the calls of the reset only,
    and if these succeeded the collection is left empty. *)
Theorem failed_walk_leaves_reset_collection splitText cfg E repoPath repo
    w code w' e :
  DRY_RUN cfg = false ->
  unset (OPENAI_API_KEY cfg) || unset (QDRANT_API_KEY cfg) = false ->
  getFiles repoPath repo = Err e ->
  main splitText cfg E repoPath repo w = (code, w') ->
  code = 1
  /\ Forall (fun ev => isReset ev = true) (issued w w')
  /\ (Forall (fun ev => succeeded ev = true) (issued w w') ->
      store w' = <[COLLECTION_NAME cfg := freshCollection]> (store w)).
Proof.
  intros Hdry Hkeys Hfiles Hmain. apply main_run_detail in Hmain.
  destruct Hmain as [Hkeys' Ht Hs Hc|Hkeys' Hdry' Ht Hs Hc
                    |evs Hkeys' Hdry' Ht Hreset Hc
                    |evs e' Hkeys' Hdry' Ht Hreset Hfiles' Hc
                    |evs s1 files uevs Hkeys' Hdry' Ht Hreset Hfiles' Hrun Hc];
    try congruence; rewrite (issued_app _ _ _ Ht).
  - split; [done|]. split; [by eapply reset_run_isReset|].
    intros Hok. exfalso.
    apply reset_run_exit in Hreset as [_ Hfail].
    apply Exists_exists in Hfail as (ev & Hev & Hfailed).
    rewrite Forall_forall in Hok. specialize (Hok ev Hev). congruence.
  - split; [done|]. split; [by eapply reset_run_isReset|].
    intros _. by apply reset_run_return in Hreset as [_ ->].
Qed.

Lemma failed_walk_leaves_reset_collection_witness :
  getFiles "/repo" Case.dangling = Err (FsError "stat" "/repo/src/gone")
  /\ Case.aborted.1 = 1
  /\ Forall (fun ev => isReset ev = true) (issued initial Case.aborted.2)
  /\ (Forall (fun ev => succeeded ev = true) (issued initial Case.aborted.2) ->
      store Case.aborted.2
      = <[COLLECTION_NAME Sample.cfg := freshCollection]> (store initial)).
Proof.
  assert (Hdry : DRY_RUN Sample.cfg = false) by reflexivity.
  assert (Hkeys : unset (OPENAI_API_KEY Sample.cfg)
                  || unset (QDRANT_API_KEY Sample.cfg) = false)
    by reflexivity.
  assert (Hfiles : getFiles "/repo" Case.dangling
                   = Err (FsError "stat" "/repo/src/gone"))
    by (vm_compute; reflexivity).
  split; [exact Hfiles|].
  exact (failed_walk_leaves_reset_collection Sample.whole Sample.cfg
           Sample.up "/repo" Case.dangling initial
           Case.aborted.1 Case.aborted.2 (FsError "stat" "/repo/src/gone")
           Hdry Hkeys Hfiles (surjective_pairing Case.aborted)).
Defined.

(** X7: nothing to upload. Without [--dry-run], when the walk succeeds
    and no chunk comes out of the files (no file kept, or none readable,
    or no text split), the run makes the calls of the reset only, no
    embedding request and no upsert; if these calls succeed it exits
    with code 0 and leaves the collection empty. *)
Theorem no_chunk_no_upload splitText cfg E repoPath repo w code w' files :
  DRY_RUN cfg = false ->
  unset (OPENAI_API_KEY cfg) || unset (QDRANT_API_KEY cfg) = false ->
  getFiles repoPath repo = Ok files ->
  documentsOf splitText repoPath repo files = [] ->
  main splitText cfg E repoPath repo w = (code, w') ->
  Forall (fun ev => isReset ev = true) (issued w w')
  /\ (Forall (fun ev => succeeded ev = true) (issued w w') ->
      code = 0
      /\ store w' = <[COLLECTION_NAME cfg := freshCollection]> (store w)).
Proof.
  intros Hdry Hkeys Hfiles Hdocs Hmain. apply main_run_detail in Hmain.
  destruct Hmain as [Hkeys' Ht Hs Hc|Hkeys' Hdry' Ht Hs Hc
                    |evs Hkeys' Hdry' Ht Hreset Hc
                    |evs e' Hkeys' Hdry' Ht Hreset Hfiles' Hc
                    |evs s1 files' uevs Hkeys' Hdry' Ht Hreset Hfiles' Hrun Hc];
    try congruence.
  - rewrite (issued_app _ _ _ Ht).
    split; [by eapply reset_run_isReset|].
    intros Hok. exfalso.
    apply reset_run_exit in Hreset as [_ Hfail].
    apply Exists_exists in Hfail as (ev & Hev & Hfailed).
    rewrite Forall_forall in Hok. specialize (Hok ev Hev). congruence.
  - assert (files' = files) as -> by congruence.
    rewrite Hdocs in Hrun. apply upload_run_nothing in Hrun as [-> Hs].
    rewrite app_nil_r in Ht. rewrite (issued_app _ _ _ Ht).
    split; [by eapply reset_run_isReset|].
    intros _. split; [done|].
    rewrite Hs. by apply reset_run_return in Hreset as [_ ->].
Qed.

Lemma no_chunk_no_upload_witness :
  Forall (fun ev => isReset ev = true) (issued initial Case.idle.2)
  /\ (Forall (fun ev => succeeded ev = true) (issued initial Case.idle.2) ->
      Case.idle.1 = 0
      /\ store Case.idle.2
         = <[COLLECTION_NAME Sample.cfg := freshCollection]> (store initial)).
Proof.
  assert (Hdry : DRY_RUN Sample.cfg = false) by reflexivity.
  assert (Hkeys : unset (OPENAI_API_KEY Sample.cfg)
                  || unset (QDRANT_API_KEY Sample.cfg) = false)
    by reflexivity.
  assert (Hfiles : getFiles "/repo" Case.bare = Ok [])
    by (vm_compute; reflexivity).
  assert (Hdocs : documentsOf Sample.whole "/repo" Case.bare [] = [])
    by reflexivity.
  exact (no_chunk_no_upload Sample.whole Sample.cfg Sample.up "/repo"
           Case.bare initial Case.idle.1 Case.idle.2 []
           Hdry Hkeys Hfiles Hdocs (surjective_pairing Case.idle)).
Defined.

(** X8: batch sizes. Every embedding request of a run carries between
    1 and 100 texts and every upsert between 1 and 100 points. *)
Theorem batches_hold_one_to_hundred splitText cfg E repoPath repo w code w' :
  main splitText cfg E repoPath repo w = (code, w') ->
  Forall (fun ev =>
            match ev with
            | Qdrant (Upsert _ pts) _ => 1 <= length pts <= BATCH_SIZE
            | EmbedDocuments texts _ => 1 <= length texts <= BATCH_SIZE
            | _ => True
            end) (issued w w').
Proof.
  intros Hmain. apply main_run_detail in Hmain.
  assert (Hreset_ok : forall s evs r s',
             reset_run (COLLECTION_NAME cfg) s evs r s' ->
             Forall (fun ev =>
                       match ev with
                       | Qdrant (Upsert _ pts) _ => 1 <= length pts <= BATCH_SIZE
                       | EmbedDocuments texts _ => 1 <= length texts <= BATCH_SIZE
                       | _ => True
                       end) evs).
  { intros s evs r s' Hreset. destruct Hreset; repeat constructor. }
  destruct Hmain as [Hkeys Ht Hs Hc|Hkeys Hdry Ht Hs Hc
                    |evs Hkeys Hdry Ht Hreset Hc
                    |evs e Hkeys Hdry Ht Hreset Hfiles Hc
                    |evs s1 files uevs Hkeys Hdry Ht Hreset Hfiles Hrun Hc].
  - rewrite (issued_same _ _ Ht). constructor.
  - rewrite (issued_same _ _ Ht). constructor.
  - rewrite (issued_app _ _ _ Ht). by eapply Hreset_ok.
  - rewrite (issued_app _ _ _ Ht). by eapply Hreset_ok.
  - rewrite (issued_app _ _ _ Ht). apply Forall_app. split.
    + by eapply Hreset_ok.
    + by eapply upload_run_batch_sizes.
Qed.

Lemma batches_hold_one_to_hundred_witness :
  Forall (fun ev =>
            match ev with
            | Qdrant (Upsert _ pts) _ => 1 <= length pts <= BATCH_SIZE
            | EmbedDocuments texts _ => 1 <= length texts <= BATCH_SIZE
            | _ => True
            end) (issued initial Sample.interrupted.2).
Proof.
  exact (batches_hold_one_to_hundred Sample.many Sample.cfg
           Sample.secondUpsertDown "/repo" Sample.single initial
           Sample.interrupted.1 Sample.interrupted.2
           (surjective_pairing Sample.interrupted)).
Defined.

(** X9: consecutive ids. The ids of the points of all the upsert
    requests of a run, taken in order, are 0, 1, 2, ...: no id is used
    twice in a run and none is skipped. *)
Theorem point_ids_are_consecutive splitText cfg E repoPath repo w code w' :
  main splitText cfg E repoPath repo w = (code, w') ->
  Point.id <$> requestedPoints (issued w w')
  = seq 0 (length (requestedPoints (issued w w'))).
Proof.
  intros Hmain. apply main_run_detail in Hmain.
  destruct Hmain as [Hkeys Ht Hs Hc|Hkeys Hdry Ht Hs Hc
                    |evs Hkeys Hdry Ht Hreset Hc
                    |evs e Hkeys Hdry Ht Hreset Hfiles Hc
                    |evs s1 files uevs Hkeys Hdry Ht Hreset Hfiles Hrun Hc].
  - by rewrite (issued_same _ _ Ht).
  - by rewrite (issued_same _ _ Ht).
  - rewrite (issued_app _ _ _ Ht).
    by apply reset_run_no_points in Hreset as [-> _].
  - rewrite (issued_app _ _ _ Ht).
    by apply reset_run_no_points in Hreset as [-> _].
  - rewrite (issued_app _ _ _ Ht), requestedPoints_app.
    apply reset_run_no_points in Hreset as [-> _]. rewrite app_nil_l.
    by apply upload_run_requested in Hrun as [Hid _].
Qed.

Lemma point_ids_are_consecutive_witness :
  Point.id <$> requestedPoints (issued initial Sample.interrupted.2)
  = seq 0 (length (requestedPoints (issued initial Sample.interrupted.2))).
Proof.
  exact (point_ids_are_consecutive Sample.many Sample.cfg
           Sample.secondUpsertDown "/repo" Sample.single initial
           Sample.interrupted.1 Sample.interrupted.2
           (surjective_pairing Sample.interrupted)).
Defined.

Lemma upsertedPoints_all_succeeded evs :
  Forall (fun ev => succeeded ev = true) evs ->
  upsertedPoints evs = requestedPoints evs.
Proof.
  induction 1 as [|ev evs Hev _ IH]; [done|].
  cbn [upsertedPoints requestedPoints flat_map].
  fold (upsertedPoints evs). fold (requestedPoints evs). rewrite IH.
  destruct ev as [[| | |name pts] served|]; simpl in *; try done.
  by subst served.
Qed.

(** X10: every chunk once. Without [--dry-run], when the walk succeeds
    and every remote call is served, the payloads of the points
    upserted, taken in order, are the chunks of the run in order: every
    chunk is upserted once, none is left out. *)
Theorem every_chunk_upserted_once splitText cfg E repoPath repo
    w code w' files :
  DRY_RUN cfg = false ->
  unset (OPENAI_API_KEY cfg) || unset (QDRANT_API_KEY cfg) = false ->
  getFiles repoPath repo = Ok files ->
  main splitText cfg E repoPath repo w = (code, w') ->
  Forall (fun ev => succeeded ev = true) (issued w w') ->
  Point.payload <$> upsertedPoints (issued w w')
  = payloadOf <$> documentsOf splitText repoPath repo files.
Proof.
  intros Hdry Hkeys Hfiles Hmain Hok. apply main_run_detail in Hmain.
  destruct Hmain as [Hkeys' Ht Hs Hc|Hkeys' Hdry' Ht Hs Hc
                    |evs Hkeys' Hdry' Ht Hreset Hc
                    |evs e' Hkeys' Hdry' Ht Hreset Hfiles' Hc
                    |evs s1 files' uevs Hkeys' Hdry' Ht Hreset Hfiles' Hrun Hc];
    try congruence.
  - rewrite (issued_app _ _ _ Ht) in Hok. exfalso.
    apply reset_run_exit in Hreset as [_ Hfail].
    apply Exists_exists in Hfail as (ev & Hev & Hfailed).
    rewrite Forall_forall in Hok. specialize (Hok ev Hev). congruence.
  - assert (files' = files) as -> by congruence.
    rewrite (issued_app _ _ _ Ht) in *. apply Forall_app in Hok as [_ Hok].
    rewrite upsertedPoints_app.
    apply reset_run_no_points in Hreset as [_ ->]. rewrite app_nil_l.
    rewrite (upsertedPoints_all_succeeded _ Hok).
    apply upload_run_requested in Hrun as (_ & _ & Hall).
    by rewrite (Hall Hok), drop_0.
Qed.

Lemma every_chunk_upserted_once_witness :
  Point.payload <$> upsertedPoints (issued initial Sample.uploaded.2)
  = payloadOf <$> documentsOf Sample.whole "/repo" Sample.repo
                    ["/repo/a.js"; "/repo/src/B.TS"; "/repo/src/d.md"].
Proof.
  assert (Hdry : DRY_RUN Sample.cfg = false) by reflexivity.
  assert (Hkeys : unset (OPENAI_API_KEY Sample.cfg)
                  || unset (QDRANT_API_KEY Sample.cfg) = false)
    by reflexivity.
  assert (Hfiles : getFiles "/repo" Sample.repo
                   = Ok ["/repo/a.js"; "/repo/src/B.TS"; "/repo/src/d.md"])
    by (vm_compute; reflexivity).
  assert (Hok : Forall (fun ev => succeeded ev = true)
                       (issued initial Sample.uploaded.2)).
  { vm_compute. repeat constructor. }
  exact (every_chunk_upserted_once Sample.whole Sample.cfg Sample.up "/repo"
           Sample.repo initial Sample.uploaded.1 Sample.uploaded.2
           ["/repo/a.js"; "/repo/src/B.TS"; "/repo/src/d.md"]
           Hdry Hkeys Hfiles (surjective_pairing Sample.uploaded) Hok).
Defined.

(** X11: what the collection holds. After a run that exits with code 0
    without [--dry-run], the collection holds the points of the upserts
    that were served, each under its id, and nothing else, whatever
    failed during the upload. *)
Theorem collection_holds_served_upserts splitText cfg E repoPath repo
    w code w' :
  DRY_RUN cfg = false ->
  main splitText cfg E repoPath repo w = (code, w') ->
  code = 0 ->
  exists c,
    store w' !! COLLECTION_NAME cfg = Some c
    /\ (forall id, points c !! id = upsertedPoints (issued w w') !! id)
    /\ Forall (fun p => points c !! Point.id p = Some p)
              (upsertedPoints (issued w w'))
    /\ size (points c) = length (upsertedPoints (issued w w')).
Proof.
  intros Hdry Hmain Hcode. apply main_run_detail in Hmain.
  destruct Hmain as [Hkeys' Ht Hs Hc|Hkeys' Hdry' Ht Hs Hc
                    |evs Hkeys' Hdry' Ht Hreset Hc
                    |evs e' Hkeys' Hdry' Ht Hreset Hfiles' Hc
                    |evs s1 files uevs Hkeys' Hdry' Ht Hreset Hfiles' Hrun Hc];
    try congruence.
  rewrite (issued_app _ _ _ Ht), upsertedPoints_app.
  pose proof (reset_run_no_points _ _ _ _ _ Hreset) as [_ ->].
  rewrite app_nil_l.
  apply reset_run_return in Hreset as [_ ->].
  destruct (upload_run_stored _ _ _ _ _ _ Hrun freshCollection [])
    as (c & Hc' & Hpoints).
  - by rewrite lookup_insert_eq.
  - simpl. lia.
  - intros id. unfold freshCollection. cbn [points]. by rewrite lookup_empty.
  - rewrite app_nil_l in Hpoints.
    exists c. split; [done|]. split; [done|]. split.
    + pose proof (upload_run_requested _ _ _ _ _ _ Hrun) as (Hid & _ & _).
      apply upload_run_upserted_prefix in Hrun.
      apply Forall_lookup_2. intros k p Hk.
      pose proof (prefix_lookup_Some _ _ _ _ Hk Hrun) as Hreq.
      assert (Hidk : (Point.id <$> requestedPoints uevs) !! k
                     = Some (Point.id p))
        by (by rewrite list_lookup_fmap, Hreq).
      rewrite Hid in Hidk. apply lookup_seq in Hidk as [Hidk _].
      simpl in Hidk. by rewrite Hpoints, Hidk.
    + by apply size_of_lookups.
Qed.

(** The run [Sample.interrupted], where the second upsert fails, exits
    with code 0. *)
Lemma collection_holds_served_upserts_witness :
  exists c,
    store Sample.interrupted.2 !! COLLECTION_NAME Sample.cfg = Some c
    /\ (forall id, points c !! id
                   = upsertedPoints (issued initial Sample.interrupted.2) !! id)
    /\ Forall (fun p => points c !! Point.id p = Some p)
              (upsertedPoints (issued initial Sample.interrupted.2))
    /\ size (points c)
       = length (upsertedPoints (issued initial Sample.interrupted.2)).
Proof.
  assert (Hdry : DRY_RUN Sample.cfg = false) by reflexivity.
  assert (Hcode : Sample.interrupted.1 = 0) by (vm_compute; reflexivity).
  exact (collection_holds_served_upserts Sample.many Sample.cfg
           Sample.secondUpsertDown "/repo" Sample.single initial
           Sample.interrupted.1 Sample.interrupted.2
           Hdry (surjective_pairing Sample.interrupted) Hcode).
Defined.

(** X12: number of batches. Without [--dry-run], when the walk succeeds
    and every remote call is served, the run makes one upsert for every
    100 chunks, rounded up. *)
Theorem one_upsert_per_hundred_chunks splitText cfg E repoPath repo
    w code w' files :
  DRY_RUN cfg = false ->
  unset (OPENAI_API_KEY cfg) || unset (QDRANT_API_KEY cfg) = false ->
  getFiles repoPath repo = Ok files ->
  main splitText cfg E repoPath repo w = (code, w') ->
  Forall (fun ev => succeeded ev = true) (issued w w') ->
  length (List.filter isUpsert (issued w w'))
  = (length (documentsOf splitText repoPath repo files) + (BATCH_SIZE - 1))
    / BATCH_SIZE.
Proof.
  intros Hdry Hkeys Hfiles Hmain Hok. apply main_run_detail in Hmain.
  destruct Hmain as [Hkeys' Ht Hs Hc|Hkeys' Hdry' Ht Hs Hc
                    |evs Hkeys' Hdry' Ht Hreset Hc
                    |evs e' Hkeys' Hdry' Ht Hreset Hfiles' Hc
                    |evs s1 files' uevs Hkeys' Hdry' Ht Hreset Hfiles' Hrun Hc];
    try congruence.
  - rewrite (issued_app _ _ _ Ht) in Hok. exfalso.
    apply reset_run_exit in Hreset as [_ Hfail].
    apply Exists_exists in Hfail as (ev & Hev & Hfailed).
    rewrite Forall_forall in Hok. specialize (Hok ev Hev). congruence.
  - assert (files' = files) as -> by congruence.
    rewrite (issued_app _ _ _ Ht) in *. apply Forall_app in Hok as [_ Hok].
    rewrite List.filter_app, length_app.
    rewrite (upload_run_batch_count _ _ _ _ _ _ Hrun Hok), Nat.sub_0_r.
    assert (Hnone : List.filter isUpsert evs = []) by (by destruct Hreset).
    by rewrite Hnone.
Qed.

Lemma one_upsert_per_hundred_chunks_witness :
  length (documentsOf Sample.many "/repo" Sample.single ["/repo/a.js"]) = 101
  /\ length (List.filter isUpsert (issued initial Case.twoBatches.2))
     = (length (documentsOf Sample.many "/repo" Sample.single ["/repo/a.js"])
        + (BATCH_SIZE - 1)) / BATCH_SIZE.
Proof.
  assert (Hdry : DRY_RUN Sample.cfg = false) by reflexivity.
  assert (Hkeys : unset (OPENAI_API_KEY Sample.cfg)
                  || unset (QDRANT_API_KEY Sample.cfg) = false)
    by reflexivity.
  assert (Hfiles : getFiles "/repo" Sample.single = Ok ["/repo/a.js"])
    by (vm_compute; reflexivity).
  assert (Hok : Forall (fun ev => succeeded ev = true)
                       (issued initial Case.twoBatches.2)).
  { vm_compute. repeat constructor. }
  split; [vm_compute; reflexivity|].
  exact (one_upsert_per_hundred_chunks Sample.many Sample.cfg Sample.up
           "/repo" Sample.single initial
           Case.twoBatches.1 Case.twoBatches.2 ["/repo/a.js"]
           Hdry Hkeys Hfiles (surjective_pairing Case.twoBatches) Hok).
Defined.

(** ** Further properties of the collection reset *)

(** X4: the reset replaces or exits. Without [--dry-run],
    [resetCollection] either returns or exits with code 1, it never
    throws; it returns exactly when every one of its calls is served,
    and then the collection is empty with vectors of size 1536 and
    cosine distance, whatever it held, and no other collection is
    changed. *)
Theorem resetCollection_replaces_or_exits cfg E w r w' :
  DRY_RUN cfg = false ->
  resetCollection cfg E w = (r, w') ->
  (r = Return tt \/ r = Exit 1)
  /\ (r = Return tt <->
      Forall (fun ev => succeeded ev = true) (issued w w'))
  /\ (r = Return tt ->
      store w' = <[COLLECTION_NAME cfg :=
                     {| vectors_size := 1536;
                        vectors_distance := "Cosine";
                        points := ∅ |}]> (store w)).
Proof.
  intros Hdry Hrun.
  pose proof (resetCollection_detail cfg E w Hdry) as Hwp.
  unfold wp in Hwp. rewrite Hrun in Hwp. simpl in Hwp.
  destruct Hwp as (evs & Ht & Hreset).
  rewrite (issued_app _ _ _ Ht).
  destruct r as [[]|e|code].
  - apply reset_run_return in Hreset as [Hok ->]. by repeat split; auto.
  - inversion Hreset.
  - apply reset_run_exit in Hreset as [-> Hfail].
    split; [by right|]. split; [|done]. split; [done|].
    intros Hok. exfalso.
    apply Exists_exists in Hfail as (ev & Hev & Hfailed).
    rewrite Forall_forall in Hok. specialize (Hok ev Hev). congruence.
Qed.

Lemma resetCollection_replaces_or_exits_witness :
  (Case.reset.1 = Return tt \/ Case.reset.1 = Exit 1)
  /\ (Case.reset.1 = Return tt <->
      Forall (fun ev => succeeded ev = true) (issued initial Case.reset.2))
  /\ (Case.reset.1 = Return tt ->
      store Case.reset.2
      = <[COLLECTION_NAME Sample.cfg :=
            {| vectors_size := 1536;
               vectors_distance := "Cosine";
               points := ∅ |}]> (store initial)).
Proof.
  assert (Hdry : DRY_RUN Sample.cfg = false) by reflexivity.
  exact (resetCollection_replaces_or_exits Sample.cfg Sample.up initial
           Case.reset.1 Case.reset.2 Hdry (surjective_pairing Case.reset)).
Defined.

(** X5: delete before create. Without [--dry-run], [resetCollection]
    asks for the deletion of the collection exactly when the listing is
    served and names it; when the deletion is served and the creation
    then fails, the process exits with the collection gone. *)
Theorem resetCollection_deletes_what_is_listed cfg E w r w' :
  DRY_RUN cfg = false ->
  resetCollection cfg E w = (r, w') ->
  ((exists served,
       In (Qdrant (DeleteCollection (COLLECTION_NAME cfg)) served)
          (issued w w'))
   <-> In (Qdrant GetCollections true) (issued w w')
       /\ is_Some (store w !! COLLECTION_NAME cfg))
  /\ (In (Qdrant (DeleteCollection (COLLECTION_NAME cfg)) true) (issued w w') ->
      r <> Return tt ->
      store w' !! COLLECTION_NAME cfg = None).
Proof.
  intros Hdry Hrun.
  pose proof (resetCollection_detail cfg E w Hdry) as Hwp.
  unfold wp in Hwp. rewrite Hrun in Hwp. simpl in Hwp.
  destruct Hwp as (evs & Ht & Hreset).
  rewrite (issued_app _ _ _ Ht).
  assert (Habsent : store w !! COLLECTION_NAME cfg = None ->
                    is_Some (store w !! COLLECTION_NAME cfg) -> False).
  { intros -> [c Hc]. discriminate. }
  destruct Hreset as [|Hsome|Hsome|Hnone|Hsome|Hnone]; simpl.
  all: split;
    [split;
     [intros [served Hin]; intuition (try discriminate; try congruence)
     |intros [Hin Hsome']; intuition (try discriminate; eauto)]
    |intros Hin Hr; intuition (try discriminate; try congruence)].
  all: try (exfalso; eauto; fail).
  apply lookup_delete_eq.
Qed.

(** The run [Case.lost]: the collection is deleted, its creation fails,
    and the process exits with the collection gone. *)
Lemma resetCollection_deletes_what_is_listed_witness :
  Case.lost.1 = Exit 1
  /\ ((exists served,
          In (Qdrant (DeleteCollection (COLLECTION_NAME Sample.cfg)) served)
             (issued Case.populated Case.lost.2))
      <-> In (Qdrant GetCollections true) (issued Case.populated Case.lost.2)
          /\ is_Some (store Case.populated !! COLLECTION_NAME Sample.cfg))
  /\ (In (Qdrant (DeleteCollection (COLLECTION_NAME Sample.cfg)) true)
         (issued Case.populated Case.lost.2) ->
      Case.lost.1 <> Return tt ->
      store Case.lost.2 !! COLLECTION_NAME Sample.cfg = None).
Proof.
  assert (Hdry : DRY_RUN Sample.cfg = false) by reflexivity.
  split; [vm_compute; reflexivity|].
  exact (resetCollection_deletes_what_is_listed Sample.cfg Case.createDown
           Case.populated Case.lost.1 Case.lost.2
           Hdry (surjective_pairing Case.lost)).
Defined.

(** ** Further properties of the walker and the reader *)

Section WalkerFacts.

Lemma getFiles_loop_complete dirPath items : forall files0 files,
  Forall (fun e => forall dirPath files f,
              getFiles dirPath e.2 = Ok files -> kept dirPath e.2 f ->
              In f files) items ->
  getFiles_loop getFiles dirPath items files0 = Ok files ->
  (forall f, In f files0 -> In f files)
  /\ (forall item c, (item, RegularFile c) ∈ items ->
                     shouldIncludeFile (join dirPath item) = true ->
                     In (join dirPath item) files)
  /\ (forall item sub f, (item, sub) ∈ items ->
                         shouldExcludeDir (join dirPath item) = false ->
                         kept (join dirPath item) sub f -> In f files).
Proof.
  induction items as [|[item n] rest IH]; intros files0 files HIH Hrun.
  - simpl in Hrun. injection Hrun as <-.
    split; [done|]. split; intros; by apply elem_of_nil in H.
  - apply Forall_cons in HIH as [Hn HIH]. simpl in Hrun, Hn.
    destruct n as [c|sub| | |].
    + destruct (shouldIncludeFile (join dirPath item)) eqn:Hinc.
      * destruct (IH _ _ HIH Hrun) as (Hacc & Hfile & Hsub).
        split; [intros f Hf; apply Hacc, in_or_app; by left|]. split.
        -- intros item' c' Hin Hinc'.
           apply elem_of_cons in Hin as [[= -> ->]|Hin]; [|by eapply Hfile].
           apply Hacc, in_or_app. right. by left.
        -- intros item' sub' f Hin Hexc Hkept.
           apply elem_of_cons in Hin as [[= -> ->]|Hin]; [|by eapply Hsub].
           destruct Hkept as (ds & Hloc & _). inversion Hloc.
      * destruct (IH _ _ HIH Hrun) as (Hacc & Hfile & Hsub).
        split; [done|]. split.
        -- intros item' c' Hin Hinc'.
           apply elem_of_cons in Hin as [[= -> ->]|Hin]; [|by eapply Hfile].
           congruence.
        -- intros item' sub' f Hin Hexc Hkept.
           apply elem_of_cons in Hin as [[= -> ->]|Hin]; [|by eapply Hsub].
           destruct Hkept as (ds & Hloc & _). inversion Hloc.
    + destruct (shouldExcludeDir (join dirPath item)) eqn:Hexc; simpl in Hrun.
      * destruct (IH _ _ HIH Hrun) as (Hacc & Hfile & Hsub).
        split; [done|]. split.
        -- intros item' c' Hin Hinc'.
           apply elem_of_cons in Hin as [Heq|Hin]; [by simplify_eq|by eapply Hfile].
        -- intros item' sub' f Hin Hexc' Hkept.
           apply elem_of_cons in Hin as [[= -> ->]|Hin]; [|by eapply Hsub].
           congruence.
      * destruct (getFiles_loop getFiles (join dirPath item) sub [])
          as [subFiles|e] eqn:Hsubrun; [|done].
        destruct (IH _ _ HIH Hrun) as (Hacc & Hfile & Hsub).
        split; [intros f Hf; apply Hacc, in_or_app; by left|]. split.
        -- intros item' c' Hin Hinc'.
           apply elem_of_cons in Hin as [Heq|Hin]; [by simplify_eq|by eapply Hfile].
        -- intros item' sub' f Hin Hexc' Hkept.
           apply elem_of_cons in Hin as [[= -> ->]|Hin]; [|by eapply Hsub].
           apply Hacc, in_or_app. right.
           by apply (Hn (join dirPath item) subFiles f).
    + destruct (shouldExcludeDir (join dirPath item)) eqn:Hexc; simpl in Hrun;
        [|done].
      destruct (IH _ _ HIH Hrun) as (Hacc & Hfile & Hsub).
      split; [done|]. split.
      * intros item' c' Hin Hinc'.
        apply elem_of_cons in Hin as [Heq|Hin]; [by simplify_eq|by eapply Hfile].
      * intros item' sub' f Hin Hexc' Hkept.
        apply elem_of_cons in Hin as [[= -> ->]|Hin]; [|by eapply Hsub].
        congruence.
    + done.
    + destruct (IH _ _ HIH Hrun) as (Hacc & Hfile & Hsub).
      split; [done|]. split.
      * intros item' c' Hin Hinc'.
        apply elem_of_cons in Hin as [Heq|Hin]; [by simplify_eq|by eapply Hfile].
      * intros item' sub' f Hin Hexc' Hkept.
        apply elem_of_cons in Hin as [[= -> ->]|Hin]; [|by eapply Hsub].
        destruct Hkept as (ds & Hloc & _). inversion Hloc.
Qed.

Lemma getFiles_complete dir :
  forall dirPath files f,
    getFiles dirPath dir = Ok files -> kept dirPath dir f -> In f files.
Proof.
  induction dir as [c|items IH| | |] using node_ind';
    intros dirPath files f Hrun Hkept; try done.
  simpl in Hrun.
  destruct (getFiles_loop_complete dirPath items [] files IH Hrun)
    as (_ & Hfile & Hsub).
  destruct Hkept as (ds & Hloc & Hds & Hinc).
  apply located_inv in Hloc
    as [(item & c & Hin & -> & ->)|(item & sub & ds' & Hin & Hloc & ->)].
  - by eapply Hfile.
  - apply Forall_cons in Hds as [Hexc Hds].
    eapply Hsub; [done..|]. by exists ds'.
Qed.

(** X13: what the walker lists. When [getFiles] succeeds, the paths it
    returns are exactly those of the regular files with an included
    extension that are reached through directories none of which is
    excluded: none of them is left out. *)
Theorem getFiles_lists_what_is_kept dirPath dir files f :
  getFiles dirPath dir = Ok files ->
  In f files <-> kept dirPath dir f.
Proof.
  intros Hrun. split.
  - by apply getFiles_kept.
  - by apply getFiles_complete.
Qed.

Lemma getFiles_lists_what_is_kept_witness :
  In "/repo/src/B.TS" ["/repo/a.js"; "/repo/src/B.TS"; "/repo/src/d.md"]
  <-> kept "/repo" Sample.repo "/repo/src/B.TS".
Proof.
  assert (Hrun : getFiles "/repo" Sample.repo
                 = Ok ["/repo/a.js"; "/repo/src/B.TS"; "/repo/src/d.md"])
    by (vm_compute; reflexivity).
  exact (getFiles_lists_what_is_kept "/repo" Sample.repo
           ["/repo/a.js"; "/repo/src/B.TS"; "/repo/src/d.md"]
           "/repo/src/B.TS" Hrun).
Defined.

Lemma getFiles_loop_broken dirPath items : forall files0 e,
  Forall (fun en => forall dirPath e,
              getFiles dirPath en.2 = Err e -> broken dirPath en.2) items ->
  getFiles_loop getFiles dirPath items files0 = Err e ->
  exists item n,
    (item, n) ∈ items
    /\ (n = Dangling
        \/ (isDirectory n = true
            /\ shouldExcludeDir (join dirPath item) = false
            /\ broken (join dirPath item) n)).
Proof.
  induction items as [|[item n] rest IH]; intros files0 e HIH Hrun;
    [done|].
  apply Forall_cons in HIH as [Hn HIH]. simpl in Hn.
  assert (Hrest : forall files1,
             getFiles_loop getFiles dirPath rest files1 = Err e ->
             exists item1 n1,
               (item1, n1) ∈ (item, n) :: rest
               /\ (n1 = Dangling
                   \/ (isDirectory n1 = true
                       /\ shouldExcludeDir (join dirPath item1) = false
                       /\ broken (join dirPath item1) n1))).
  { intros files1 Hrun1.
    destruct (IH _ _ HIH Hrun1) as (item1 & n1 & Hin & Hbad).
    exists item1, n1. split; [by right|done]. }
  assert (Hsubdir : isDirectory n = true ->
             shouldExcludeDir (join dirPath item) = false ->
             forall e', getFiles (join dirPath item) n = Err e' ->
             exists item1 n1,
               (item1, n1) ∈ (item, n) :: rest
               /\ (n1 = Dangling
                   \/ (isDirectory n1 = true
                       /\ shouldExcludeDir (join dirPath item1) = false
                       /\ broken (join dirPath item1) n1))).
  { intros Hdir Hexc e' Hsub. exists item, n. split; [by left|].
    right. split; [done|]. split; [done|]. by eapply Hn. }
  cbn [getFiles_loop] in Hrun. destruct n as [c|sub| | |].
  - destruct (shouldIncludeFile (join dirPath item)); by eapply Hrest.
  - destruct (shouldExcludeDir (join dirPath item)) eqn:Hexc; simpl in Hrun;
      [by eapply Hrest|].
    destruct (getFiles_loop getFiles (join dirPath item) sub [])
      as [subFiles|e'] eqn:Hsub; [by eapply Hrest|].
    exact (Hsubdir eq_refl eq_refl e' Hsub).
  - destruct (shouldExcludeDir (join dirPath item)) eqn:Hexc; simpl in Hrun;
      [by eapply Hrest|].
    exact (Hsubdir eq_refl eq_refl e Hrun).
  - exists item, Dangling. split; [by left|by left].
  - by eapply Hrest.
Qed.

Lemma getFiles_broken dir :
  forall dirPath e, getFiles dirPath dir = Err e -> broken dirPath dir.
Proof.
  induction dir as [c|items IH| | |] using node_ind'; intros dirPath e Hrun;
    try (by apply broken_readdir).
  simpl in Hrun.
  destruct (getFiles_loop_broken dirPath items [] e IH Hrun)
    as (item & n & Hin & [->|(Hdir & Hexc & Hbad)]).
  - by eapply broken_stat.
  - by eapply broken_below.
Qed.

Lemma getFiles_loop_fails dirPath items item n : forall files0,
  (item, n) ∈ items ->
  n = Dangling
  \/ (isDirectory n = true
      /\ shouldExcludeDir (join dirPath item) = false
      /\ exists e, getFiles (join dirPath item) n = Err e) ->
  exists e, getFiles_loop getFiles dirPath items files0 = Err e.
Proof.
  induction items as [|[item' n'] rest IH]; intros files0 Hin Hbad.
  - by apply elem_of_nil in Hin.
  - apply elem_of_cons in Hin as [Heq|Hin].
    + injection Heq as <- <-. cbn [getFiles_loop].
      destruct Hbad as [->|(Hdir & Hexc & e & Hsub)]; [by eexists|].
      destruct n as [c|sub| | |]; try done; rewrite Hexc; simpl.
      * change (getFiles_loop getFiles (join dirPath item) sub [])
          with (getFiles (join dirPath item) (Directory sub)).
        rewrite Hsub. by eexists.
      * by eexists.
    + cbn [getFiles_loop].
      destruct n' as [c|sub| | |]; try (by eexists);
        repeat match goal with
               | |- context [if ?b then _ else _] => destruct b
               | |- context [match getFiles ?d ?n with _ => _ end] =>
                   destruct (getFiles d n)
               end;
        try (by eexists); by apply IH.
Qed.

Lemma broken_getFiles dirPath dir :
  broken dirPath dir -> exists e, getFiles dirPath dir = Err e.
Proof.
  induction 1 as [dirPath n Hn|dirPath items item Hin
                 |dirPath items item sub Hin Hdir Hexc _ IH].
  - destruct n as [c|items| | |]; try (by eexists). by destruct (Hn items).
  - simpl. eapply getFiles_loop_fails; [done|by left].
  - simpl. eapply getFiles_loop_fails; [done|]. right. done.
Qed.

(** X14: when the walk fails. [getFiles] fails exactly when the
    directory cannot be listed, or [stat] fails on one of its entries
    (whatever its name), or the walk of a sub-directory that is not
    excluded fails; what lies inside an excluded directory never makes
    it fail. The failure is that of [readdir] or of [stat]. *)
Theorem getFiles_fails_iff_broken dirPath dir :
  ((exists e, getFiles dirPath dir = Err e) <-> broken dirPath dir)
  /\ forall e, getFiles dirPath dir = Err e ->
               exists p, e = FsError "scandir" p \/ e = FsError "stat" p.
Proof.
  split.
  - split.
    + intros [e Hrun]. by eapply getFiles_broken.
    + apply broken_getFiles.
  - revert dirPath.
    induction dir as [c|items IH| | |] using node_ind'; intros dirPath e Hrun;
      try (injection Hrun as <-; eexists; by left).
    simpl in Hrun. revert Hrun. generalize (@nil string) as files0.
    induction IH as [|[item n] rest Hn _ IHrest]; intros files0 Hrun; [done|].
    cbn [getFiles_loop] in Hrun. simpl in Hn.
    destruct n as [c|sub| | |].
    + destruct (shouldIncludeFile (join dirPath item)); by eapply IHrest.
    + destruct (shouldExcludeDir (join dirPath item)); simpl in Hrun;
        [by eapply IHrest|].
      destruct (getFiles_loop getFiles (join dirPath item) sub [])
        as [subFiles|e'] eqn:Hsub; [by eapply IHrest|].
      injection Hrun as <-. exact (Hn (join dirPath item) e' Hsub).
    + destruct (shouldExcludeDir (join dirPath item)); simpl in Hrun;
        [by eapply IHrest|].
      injection Hrun as <-. eexists. by left.
    + injection Hrun as <-. eexists. by right.
    + by eapply IHrest.
Qed.

Lemma under_same dirPath item1 item2 f :
  validName item1 = true -> validName item2 = true ->
  under dirPath item1 f -> under dirPath item2 f -> item1 = item2.
Proof.
  intros Hv1 Hv2 [->|[r1 ->]] [Heq|[r2 Heq]].
  - rewrite !join_unfold in Heq. apply String.app_inj in Heq. congruence.
  - by destruct (join_file_under dirPath item1 item2 r2 Hv1).
  - symmetry in Heq. by destruct (join_file_under dirPath item2 item1 r1 Hv2).
  - rewrite !join_unfold, !string_app_assoc, !string_app_cons in Heq.
    apply String.app_inj in Heq. injection Heq as Heq.
    apply andb_true_iff in Hv1 as [_ Hv1].
    apply andb_true_iff in Hv2 as [_ Hv2].
    by destruct (noSep_split _ _ _ _ Hv1 Hv2 Heq) as [-> _].
Qed.

Lemma kept_under dirPath item sub f :
  kept (join dirPath item) sub f -> under dirPath item f.
Proof.
  intros (ds & Hloc & _). right. by eapply located_under.
Qed.

Lemma getFiles_loop_NoDup dirPath items : forall files0 files,
  Forall (fun e => forall dirPath files,
              wellFormed e.2 = true ->
              getFiles dirPath e.2 = Ok files -> NoDup files) items ->
  entriesOk wellFormed items = true ->
  NoDup files0 ->
  (forall f, In f files0 ->
             exists item, validName item = true
                          /\ under dirPath item f
                          /\ forall n, (item, n) ∈ items -> False) ->
  getFiles_loop getFiles dirPath items files0 = Ok files ->
  NoDup files.
Proof.
  induction items as [|[item n] rest IH];
    intros files0 files HIH Hok Hnodup Hearlier Hrun.
  - simpl in Hrun. by injection Hrun as <-.
  - apply Forall_cons in HIH as [Hn HIH]. simpl in Hn.
    apply entriesOk_cons in Hok as (Hvalid & Hfresh & Hwf & Hrest).
    assert (Hskip : forall f, In f files0 ->
               exists item1, validName item1 = true
                             /\ under dirPath item1 f
                             /\ forall n1, (item1, n1) ∈ rest -> False).
    { intros f Hf. destruct (Hearlier f Hf) as (item1 & Hv1 & Hu1 & Hnot).
      exists item1. split; [done|]. split; [done|].
      intros n1 Hin. apply (Hnot n1). by right. }
    assert (Hnew : forall f, under dirPath item f -> In f files0 -> False).
    { intros f Hu Hf. destruct (Hearlier f Hf) as (item1 & Hv1 & Hu1 & Hnot).
      assert (item1 = item) as -> by (by eapply under_same).
      apply (Hnot n). by left. }
    cbn [getFiles_loop] in Hrun. destruct n as [c|sub| | |].
    + destruct (shouldIncludeFile (join dirPath item)); [|by eapply IH].
      eapply IH; [done..| | |exact Hrun].
      * apply NoDup_app. split; [done|]. split; [|apply NoDup_singleton].
        intros f Hf Hf'. apply list_elem_of_singleton in Hf' as ->.
        apply (Hnew (join dirPath item)); [by left|by apply list_elem_of_In].
      * intros f Hf. apply in_app_or in Hf as [Hf|[<-|[]]]; [by apply Hskip|].
        exists item. split; [done|]. split; [by left|done].
    + destruct (shouldExcludeDir (join dirPath item)); simpl in Hrun;
        [by eapply IH|].
      destruct (getFiles_loop getFiles (join dirPath item) sub [])
        as [subFiles|e] eqn:Hsub; [|done].
      assert (Hunder : forall f, In f subFiles -> under dirPath item f).
      { intros f Hf. eapply kept_under.
        by apply (getFiles_kept (Directory sub) (join dirPath item) subFiles). }
      eapply IH; [done..| | |exact Hrun].
      * apply NoDup_app. split; [done|]. split; [|by eapply Hn].
        intros f Hf Hf'. apply list_elem_of_In in Hf, Hf'.
        by apply (Hnew f); [apply Hunder|].
      * intros f Hf. apply in_app_or in Hf as [Hf|Hf]; [by apply Hskip|].
        exists item. split; [done|]. split; [by apply Hunder|done].
    + destruct (shouldExcludeDir (join dirPath item)); simpl in Hrun;
        [by eapply IH|done].
    + done.
    + by eapply IH.
Qed.

(** X15: every file once. On a well-formed tree, no path comes twice in
    the list [getFiles] returns. *)
Theorem getFiles_lists_each_file_once dir :
  forall dirPath files,
    wellFormed dir = true ->
    getFiles dirPath dir = Ok files -> NoDup files.
Proof.
  induction dir as [c|items IH| | |] using node_ind';
    intros dirPath files Hwf Hrun; try done.
  simpl in Hrun, Hwf.
  eapply getFiles_loop_NoDup; [exact IH|done|constructor| |exact Hrun].
  intros f [].
Qed.

Lemma getFiles_lists_each_file_once_witness :
  NoDup ["/repo/a.js"; "/repo/src/B.TS"; "/repo/src/d.md"].
Proof.
  assert (Hwf : wellFormed Sample.repo = true) by reflexivity.
  assert (Hrun : getFiles "/repo" Sample.repo
                 = Ok ["/repo/a.js"; "/repo/src/B.TS"; "/repo/src/d.md"])
    by (vm_compute; reflexivity).
  exact (getFiles_lists_each_file_once Sample.repo "/repo"
           ["/repo/a.js"; "/repo/src/B.TS"; "/repo/src/d.md"] Hwf Hrun).
Defined.

End WalkerFacts.

Section PathFacts.

Lemma string_app_nil_r (a : string) : a +:+ EmptyString = a.
Proof.
  induction a as [|x a IH]; [done|]. by rewrite string_app_cons, IH.
Qed.

Lemma string_app_snoc (a : string) x (b : string) :
  (a +:+ String x EmptyString) +:+ b = a +:+ String x b.
Proof. by rewrite string_app_assoc, string_app_cons, string_app_nil. Qed.

Lemma basename_from_noSep item : forall cur last,
  noSep item = true ->
  basename_from cur last item
  = if String.eqb (cur +:+ item) EmptyString then last else cur +:+ item.
Proof.
  induction item as [|c item IH]; intros cur last Hno.
  - simpl. by rewrite string_app_nil_r.
  - simpl in Hno. apply andb_true_iff in Hno as [Hc Hno].
    apply negb_true_iff in Hc. cbn [basename_from]. rewrite Hc.
    by rewrite (IH _ _ Hno), string_app_snoc.
Qed.

Lemma basename_from_join dirPath item : forall cur last,
  validName item = true ->
  basename_from cur last (dirPath +:+ String sep item) = item.
Proof.
  intros cur last Hvalid.
  apply andb_true_iff in Hvalid as [Hne Hno]. apply negb_true_iff in Hne.
  revert cur last. induction dirPath as [|c dirPath IH]; intros cur last.
  - rewrite string_app_nil. cbn [basename_from].
    rewrite Ascii.eqb_refl, (basename_from_noSep _ _ _ Hno), string_app_nil.
    by rewrite Hne.
  - rewrite string_app_cons. cbn [basename_from].
    destruct (Ascii.eqb c sep); apply IH.
Qed.

Lemma basename_join dirPath item :
  validName item = true -> basename (join dirPath item) = item.
Proof. intros Hvalid. by apply basename_from_join. Qed.

Lemma basename_valid item :
  validName item = true -> basename item = item.
Proof.
  intros Hvalid. apply andb_true_iff in Hvalid as [Hne Hno].
  apply negb_true_iff in Hne. unfold basename.
  by rewrite (basename_from_noSep _ _ _ Hno), string_app_nil, Hne.
Qed.

(** X16: the filters look at the entry name. For an entry [item] of the
    directory [dirPath], whether the walker excludes it as a directory
    or includes it as a file depends on [item] only: the directory is
    excluded exactly when [item] is one of [EXCLUDE_DIRS], and the names
    of the directories above it, in particular those of the path of the
    repository, play no part. *)
Theorem filters_depend_on_entry_name dirPath item :
  validName item = true ->
  shouldExcludeDir (join dirPath item) = includes EXCLUDE_DIRS item
  /\ shouldIncludeFile (join dirPath item) = shouldIncludeFile item.
Proof.
  intros Hvalid. unfold shouldExcludeDir, shouldIncludeFile, extname.
  by rewrite (basename_join _ _ Hvalid), (basename_valid _ Hvalid).
Qed.

(** A repository that lies in a directory named [build]: its [src] is
    walked. *)
Lemma filters_depend_on_entry_name_witness :
  shouldExcludeDir (join "/home/build/repo" "src") = includes EXCLUDE_DIRS "src"
  /\ shouldIncludeFile (join "/home/build/repo" "src") = shouldIncludeFile "src".
Proof.
  assert (Hvalid : validName "src" = true) by reflexivity.
  exact (filters_depend_on_entry_name "/home/build/repo" "src" Hvalid).
Defined.

Lemma strip_prefix_app prefix s : strip_prefix prefix (prefix +:+ s) = Some s.
Proof.
  induction prefix as [|c prefix IH]; [by destruct s|].
  rewrite string_app_cons. simpl. by rewrite Ascii.eqb_refl.
Qed.

Lemma portions_from_noSep x : forall cur s,
  noSep x = true ->
  portions_from cur (x +:+ s) = portions_from (cur +:+ x) s.
Proof.
  induction x as [|c x IH]; intros cur s Hno.
  - by rewrite string_app_nil, string_app_nil_r.
  - simpl in Hno. apply andb_true_iff in Hno as [Hc Hno].
    apply negb_true_iff in Hc. rewrite string_app_cons.
    cbn [portions_from]. rewrite Hc.
    by rewrite (IH _ _ Hno), string_app_snoc.
Qed.

Lemma portions_name item :
  noSep item = true -> portions item = [item].
Proof.
  intros Hno. unfold portions.
  rewrite <- (string_app_nil_r item) at 1.
  by rewrite (portions_from_noSep _ _ _ Hno), string_app_nil.
Qed.

Lemma portions_below item rel :
  noSep item = true ->
  portions (item +:+ String sep rel) = item :: portions rel.
Proof.
  intros Hno. unfold portions.
  rewrite (portions_from_noSep _ _ _ Hno), string_app_nil.
  cbn [portions_from]. by rewrite Ascii.eqb_refl.
Qed.

Lemma entry_elem wf items item n :
  entriesOk wf items = true -> (item, n) ∈ items ->
  entry items item = Some n.
Proof.
  induction items as [|[item' n'] rest IH]; intros Hok Hin.
  - by apply elem_of_nil in Hin.
  - apply entriesOk_cons in Hok as (_ & Hfresh & _ & Hrest).
    cbn [entry]. destruct (String.eqb item' item) eqn:Heq.
    + apply String.eqb_eq in Heq as ->.
      apply elem_of_cons in Hin as [[= ->]|Hin]; [done|].
      by destruct (Hfresh n).
    + apply elem_of_cons in Hin as [[= -> ->]|Hin]; [|by apply IH].
      by rewrite String.eqb_refl in Heq.
Qed.

(** A file of a well-formed tree is found again from its path. *)
Lemma located_descend dirPath dir ds f :
  located dirPath dir ds f -> wellFormed dir = true ->
  exists rel c,
    f = dirPath +:+ String sep rel
    /\ descend dir (portions rel) = Some (RegularFile c).
Proof.
  induction 1 as [dirPath items item c Hin
                 |dirPath items item sub ds f Hin Hloc IH];
    intros Hwf; simpl in Hwf;
    destruct (entriesOk_elem _ _ _ _ Hwf Hin) as [Hvalid Hwfsub];
    pose proof Hvalid as Hno; apply andb_true_iff in Hno as [_ Hno].
  - exists item, c. split; [done|].
    rewrite (portions_name _ Hno). cbn [descend].
    by rewrite (entry_elem _ _ _ _ Hwf Hin).
  - destruct (IH Hwfsub) as (rel & c & -> & Hdesc).
    exists (item +:+ String sep rel), c. split.
    + by rewrite join_unfold, string_app_assoc, string_app_cons.
    + rewrite (portions_below _ _ Hno). cbn [descend].
      by rewrite (entry_elem _ _ _ _ Hwf Hin).
Qed.

(** X17: a listed file is read where it was listed. For every path
    [getFiles] returns on a well-formed tree, the relative path recorded
    with its chunks leads from the repository to a regular file, joined
    to the path of the repository it gives the listed path back, and
    reading the listed path yields the content of that file, or fails
    when the file cannot be read. *)
Theorem listed_file_is_read_in_place repoPath repo files f :
  wellFormed repo = true ->
  getFiles repoPath repo = Ok files ->
  In f files ->
  join repoPath (relative repoPath f) = f
  /\ exists c,
      descend repo (portions (relative repoPath f)) = Some (RegularFile c)
      /\ readFile repoPath repo f
         = match c with
           | Some content => Ok content
           | None => Err (FsError "open" f)
           end.
Proof.
  intros Hwf Hrun Hf.
  destruct (getFiles_kept repo repoPath files f Hrun Hf) as (ds & Hloc & _).
  destruct (located_descend _ _ _ _ Hloc Hwf) as (rel & c & -> & Hdesc).
  assert (Hrel : strip_prefix (repoPath +:+ "/") (repoPath +:+ String sep rel)
                 = Some rel).
  { rewrite <- (strip_prefix_app (repoPath +:+ "/") rel). f_equal.
    by rewrite string_app_assoc. }
  unfold relative, readFile. rewrite Hrel, Hdesc.
  split; [done|]. exists c. split; [done|]. by destruct c.
Qed.

Lemma listed_file_is_read_in_place_witness :
  join "/repo" (relative "/repo" "/repo/src/B.TS") = "/repo/src/B.TS"
  /\ exists c,
      descend Sample.repo (portions (relative "/repo" "/repo/src/B.TS"))
      = Some (RegularFile c)
      /\ readFile "/repo" Sample.repo "/repo/src/B.TS"
         = match c with
           | Some content => Ok content
           | None => Err (FsError "open" "/repo/src/B.TS")
           end.
Proof.
  assert (Hwf : wellFormed Sample.repo = true) by reflexivity.
  assert (Hrun : getFiles "/repo" Sample.repo
                 = Ok ["/repo/a.js"; "/repo/src/B.TS"; "/repo/src/d.md"])
    by (vm_compute; reflexivity).
  assert (Hf : In "/repo/src/B.TS"
                  ["/repo/a.js"; "/repo/src/B.TS"; "/repo/src/d.md"])
    by (simpl; tauto).
  exact (listed_file_is_read_in_place "/repo" Sample.repo
           ["/repo/a.js"; "/repo/src/B.TS"; "/repo/src/d.md"]
           "/repo/src/B.TS" Hwf Hrun Hf).
Defined.

End PathFacts.

(** ** Where the points come from *)

Lemma documentsOf_origin splitText repoPath repo files d :
  In d (documentsOf splitText repoPath repo files) ->
  exists f content,
    In f files
    /\ readFile repoPath repo f = Ok content
    /\ Metadata.path (metadata d) = relative repoPath f
    /\ splitText content !! Metadata.chunk (metadata d) = Some (pageContent d)
    /\ Metadata.totalChunks (metadata d) = length (splitText content).
Proof.
  unfold documentsOf. rewrite in_flat_map. intros (f & Hf & Hd).
  unfold fileDataOf in Hd.
  destruct (readFile repoPath repo f) as [content|e] eqn:Hread; [|done].
  exists f, content. split; [done|]. split; [done|].
  unfold chunksOf in Hd. simpl in Hd.
  apply list_elem_of_In, elem_of_lookup_imap_1 in Hd as (i & t & -> & Hi).
  done.
Qed.

(** X18: where a point comes from. Every point of every upsert request
    of a run carries a chunk of a file the walker listed and the reader
    could read: its text is a chunk of the split content of the file,
    at the index recorded as [chunk], its path is the path of the file
    relative to the repository, and [totalChunks] is the number of
    chunks of the file. *)
Theorem requested_point_comes_from_a_file splitText cfg E repoPath repo
    w code w' p :
  main splitText cfg E repoPath repo w = (code, w') ->
  In p (requestedPoints (issued w w')) ->
  exists files f content,
    getFiles repoPath repo = Ok files
    /\ In f files
    /\ readFile repoPath repo f = Ok content
    /\ Metadata.path (Payload.metadata (Point.payload p))
       = relative repoPath f
    /\ splitText content !! Metadata.chunk (Payload.metadata (Point.payload p))
       = Some (Payload.text (Point.payload p))
    /\ Metadata.totalChunks (Payload.metadata (Point.payload p))
       = length (splitText content).
Proof.
  intros Hmain Hp. apply main_run_detail in Hmain.
  destruct Hmain as [Hkeys Ht Hs Hc|Hkeys Hdry Ht Hs Hc
                    |evs Hkeys Hdry Ht Hreset Hc
                    |evs e Hkeys Hdry Ht Hreset Hfiles Hc
                    |evs s1 files uevs Hkeys Hdry Ht Hreset Hfiles Hrun Hc].
  - by rewrite (issued_same _ _ Ht) in Hp.
  - by rewrite (issued_same _ _ Ht) in Hp.
  - rewrite (issued_app _ _ _ Ht) in Hp.
    apply reset_run_no_points in Hreset as [Hnone _].
    by rewrite Hnone in Hp.
  - rewrite (issued_app _ _ _ Ht) in Hp.
    apply reset_run_no_points in Hreset as [Hnone _].
    by rewrite Hnone in Hp.
  - rewrite (issued_app _ _ _ Ht), requestedPoints_app in Hp.
    apply reset_run_no_points in Hreset as [Hnone _].
    rewrite Hnone, app_nil_l in Hp.
    apply upload_run_requested in Hrun as (_ & Hprefix & _).
    rewrite drop_0 in Hprefix.
    assert (Hpay : Point.payload p
                   ∈ payloadOf <$> documentsOf splitText repoPath repo files).
    { destruct Hprefix as [rest ->]. apply elem_of_app. left.
      apply list_elem_of_fmap. exists p. split; [done|].
      by apply list_elem_of_In. }
    apply list_elem_of_fmap in Hpay as (d & -> & Hd).
    apply list_elem_of_In, documentsOf_origin in Hd
      as (f & content & Hf & Hread & Hpath & Hchunk & Htotal).
    exists files, f, content. done.
Qed.

Lemma requested_point_comes_from_a_file_witness :
  exists files f content,
    getFiles "/repo" Sample.repo = Ok files
    /\ In f files
    /\ readFile "/repo" Sample.repo f = Ok content
    /\ Metadata.path (Payload.metadata (Point.payload Sample.beta))
       = relative "/repo" f
    /\ Sample.whole content
         !! Metadata.chunk (Payload.metadata (Point.payload Sample.beta))
       = Some (Payload.text (Point.payload Sample.beta))
    /\ Metadata.totalChunks (Payload.metadata (Point.payload Sample.beta))
       = length (Sample.whole content).
Proof.
  assert (Hp : In Sample.beta
                  (requestedPoints (issued initial Sample.uploaded.2))).
  { vm_compute. right. left. reflexivity. }
  exact (requested_point_comes_from_a_file Sample.whole Sample.cfg Sample.up
           "/repo" Sample.repo initial Sample.uploaded.1 Sample.uploaded.2
           Sample.beta (surjective_pairing Sample.uploaded) Hp).
Defined.

Section CaseFacts.

Lemma lower_ascii_idem c : lower_ascii (lower_ascii c) = lower_ascii c.
Proof. by destruct c as [[] [] [] [] [] [] [] []]. Qed.

Lemma lower_ascii_sep c : Ascii.eqb (lower_ascii c) sep = Ascii.eqb c sep.
Proof. by destruct c as [[] [] [] [] [] [] [] []]. Qed.

Lemma lower_ascii_dot c : Ascii.eqb (lower_ascii c) dot = Ascii.eqb c dot.
Proof. by destruct c as [[] [] [] [] [] [] [] []]. Qed.

Lemma toLowerCase_idem s : toLowerCase (toLowerCase s) = toLowerCase s.
Proof.
  induction s as [|c s IH]; [done|]. simpl. by rewrite lower_ascii_idem, IH.
Qed.

Lemma toLowerCase_app a b :
  toLowerCase (a +:+ b) = toLowerCase a +:+ toLowerCase b.
Proof.
  induction a as [|c a IH]; [done|].
  rewrite string_app_cons. simpl. by rewrite IH.
Qed.

Lemma toLowerCase_empty s :
  String.eqb (toLowerCase s) EmptyString = String.eqb s EmptyString.
Proof. by destruct s. Qed.

Lemma toLowerCase_dots s :
  String.eqb (toLowerCase s) ".." = String.eqb s "..".
Proof.
  destruct s as [|a [|b [|c s]]]; try done; simpl.
  - by rewrite lower_ascii_dot.
  - change "."%char with dot. rewrite !lower_ascii_dot.
    by destruct (Ascii.eqb a dot).
  - change "."%char with dot. rewrite !lower_ascii_dot.
    by destruct (Ascii.eqb a dot), (Ascii.eqb b dot).
Qed.

Lemma basename_from_lower p : forall cur last,
  basename_from (toLowerCase cur) (toLowerCase last) (toLowerCase p)
  = toLowerCase (basename_from cur last p).
Proof.
  induction p as [|c p IH]; intros cur last; cbn [toLowerCase basename_from].
  - rewrite toLowerCase_empty. by destruct (String.eqb cur EmptyString).
  - rewrite lower_ascii_sep, toLowerCase_empty.
    destruct (Ascii.eqb c sep).
    + rewrite <- IH. by destruct (String.eqb cur EmptyString).
    + by rewrite <- IH, toLowerCase_app.
Qed.

Lemma lastDot_from_lower s : forall i found,
  lastDot_from i found (toLowerCase s) = lastDot_from i found s.
Proof.
  induction s as [|c s IH]; intros i found; [done|].
  cbn [toLowerCase lastDot_from]. by rewrite lower_ascii_dot, IH.
Qed.

Lemma drop_string_lower n : forall s,
  drop_string n (toLowerCase s) = toLowerCase (drop_string n s).
Proof.
  induction n as [|n IH]; intros [|c s]; try done. simpl. apply IH.
Qed.

Lemma extname_lower p :
  extname (toLowerCase p) = toLowerCase (extname p).
Proof.
  unfold extname, basename. cbv zeta.
  pose proof (basename_from_lower p EmptyString EmptyString) as Hbase.
  simpl toLowerCase in Hbase at 1 2. rewrite Hbase.
  rewrite lastDot_from_lower, toLowerCase_dots.
  destruct (lastDot_from 0 None _) as [[|i]|]; try done.
  rewrite drop_string_lower.
  by destruct (String.eqb _ "..").
Qed.

(** X19: the extension filter ignores case. [shouldIncludeFile] gives
    the same answer for a path and for the path in lower case: an
    extension in capital letters is included like the same extension in
    small letters. *)
Theorem shouldIncludeFile_ignores_case filePath :
  shouldIncludeFile (toLowerCase filePath) = shouldIncludeFile filePath.
Proof.
  unfold shouldIncludeFile. by rewrite extname_lower, toLowerCase_idem.
Qed.

End CaseFacts.

(** ** Further properties of the text splitter *)

Section SplitterBounds.

Import TextSplitter.

Variable this : fields.
Hypothesis Hvalid : chunkOverlap this < chunkSize this.

Lemma length_trimStart text : length (trimStart text) <= length text.
Proof.
  induction text as [|c text IH]; [done|]. simpl.
  destruct (isSpace c); simpl; lia.
Qed.

Lemma length_trim text : length (trim text) <= length text.
Proof.
  unfold trim, trimEnd. rewrite length_reverse.
  etrans; [apply length_trimStart|]. rewrite length_reverse.
  apply length_trimStart.
Qed.

Lemma joinDocs_within currentDoc :
  length (concat currentDoc) <= chunkSize this ->
  Forall (fun chunk => length chunk <= chunkSize this)
         (option_list (joinDocs currentDoc [])).
Proof.
  intros Hle. unfold joinDocs. rewrite join_empty_separator.
  pose proof (length_trim (concat currentDoc)) as Htrim.
  destruct (trim (concat currentDoc)) as [|a text]; [constructor|].
  repeat constructor. lia.
Qed.

Lemma shifting_room len currentDoc : forall total,
  (shifting this len 0 currentDoc total).2 + len <= chunkSize this
  \/ (shifting this len 0 currentDoc total).2 = 0
  \/ (shifting this len 0 currentDoc total).1 = [].
Proof.
  induction currentDoc as [|first currentDoc IH]; intros total.
  - right. by right.
  - cbn [shifting]. destruct (_ || _) eqn:Hcond; [apply IH|].
    simpl. apply orb_false_iff in Hcond as [_ Hcond].
    apply andb_false_iff in Hcond as [Hcond|Hcond].
    + left. apply Nat.ltb_ge in Hcond. lia.
    + right. left. apply Nat.ltb_ge in Hcond. lia.
Qed.

Lemma merging_within splits : forall currentDoc total,
  Forall (fun p => length p < chunkSize this) splits ->
  total = length (concat currentDoc) ->
  total <= chunkSize this ->
  Forall (fun chunk => length chunk <= chunkSize this)
         (merging this [] splits currentDoc total).
Proof.
  induction splits as [|d splits IH];
    intros currentDoc total Hsplits Htotal Hle; cbn [merging].
  - apply joinDocs_within. by rewrite <- Htotal.
  - apply Forall_cons in Hsplits as [Hd Hsplits]. cbv zeta.
    destruct (_ && _) eqn:Hflush.
    + apply Forall_app. split; [apply joinDocs_within; by rewrite <- Htotal|].
      destruct (shifting_kept this (length d) currentDoc total Htotal)
        as (_ & Hkept & _).
      pose proof (shifting_room (length d) currentDoc total) as Hroom.
      simpl length.
      set (kept := shifting this (length d) 0 currentDoc total) in *.
      apply IH; [done| |].
      * rewrite concat_app, length_app, <- Hkept. simpl.
        rewrite app_nil_r. done.
      * destruct Hroom as [Hroom|[Hroom|Hroom]]; [done|lia|].
        rewrite Hroom in Hkept. simpl in Hkept. lia.
    + apply IH; [done| |].
      * rewrite Htotal, concat_app, length_app. simpl.
        rewrite app_nil_r. done.
      * apply andb_false_iff in Hflush as [Hflush|Hflush];
          apply Nat.ltb_ge in Hflush; simpl in Hflush; [lia|].
        destruct currentDoc; [|simpl in Hflush; lia].
        simpl in Htotal. lia.
Qed.

Lemma mergeSplits_within goodSplits :
  Forall (fun p => length p < chunkSize this) goodSplits ->
  Forall (fun chunk => length chunk <= chunkSize this)
         match goodSplits with
         | [] => []
         | _ :: _ => mergeSplits this goodSplits []
         end.
Proof.
  intros Hgood. destruct goodSplits as [|s goodSplits]; [constructor|].
  apply merging_within; [done|done|simpl; lia].
Qed.

Lemma eachSplit_within deeper splits : forall goodSplits,
  Forall (fun s => Forall (fun chunk => length chunk <= chunkSize this)
                          (deeper s)) splits ->
  Forall (fun p => length p < chunkSize this) goodSplits ->
  Forall (fun chunk => length chunk <= chunkSize this)
         (eachSplit this deeper splits goodSplits).
Proof.
  induction splits as [|s splits IH]; intros goodSplits Hdeeper Hgood;
    cbn [eachSplit].
  - by apply mergeSplits_within.
  - apply Forall_cons in Hdeeper as [Hs Hdeeper].
    destruct (length s <? chunkSize this) eqn:Hshort.
    + apply IH; [done|]. apply Forall_app. split; [done|].
      constructor; [|constructor]. by apply Nat.ltb_lt.
    + apply Forall_app. split; [by apply mergeSplits_within|].
      apply Forall_app. split; [done|]. apply IH; [done|constructor].
Qed.

Lemma splitText_within separators : forall text,
  Forall (fun chunk => length chunk <= chunkSize this)
         (_splitText this separators text).
Proof.
  assert (Hchars : forall text,
             Forall (fun chunk => length chunk <= chunkSize this)
               (eachSplit this (fun s => [s]) (splitOnSeparator text []) [])).
  { intros text. apply eachSplit_within; [|constructor].
    apply Forall_fmap, Forall_forall. intros c _. simpl.
    repeat constructor. simpl. lia. }
  induction separators as [|s newSeparators IH]; intros text; [apply Hchars|].
  cbn [_splitText]. destruct s as [|a s]; [apply Hchars|].
  destruct (includes text (a :: s)); [|apply IH].
  apply eachSplit_within; [|constructor].
  apply Forall_forall. intros piece _. apply IH.
Qed.

End SplitterBounds.

(** X20: the chunks of the package's splitter. For every content and
    every valid configuration, every chunk text [processFile] returns
    has at most chunkSize characters, and an empty content gives no
    chunk. *)
Theorem splitter_chunks_within_size o split fileData w documents w' :
  TextSplitter.construct o = TextSplitter.Constructed split ->
  processFile split (Some fileData) w = (Return documents, w') ->
  Forall (fun d => String.length (pageContent d) <= TextSplitter.chunkSize o)
         documents
  /\ (content fileData = EmptyString -> documents = []).
Proof.
  intros Hc Hrun. apply construct_splitter in Hc as [Hvalid ->].
  pose proof (chunk_texts_of_documents _ _ _ _ _ Hrun) as Htexts.
  split.
  - apply (Forall_fmap pageContent
             (fun t => String.length t <= TextSplitter.chunkSize o)).
    rewrite Htexts. unfold TextSplitter.splitText. apply Forall_fmap.
    eapply Forall_impl; [by apply splitText_within|].
    intros chunk Hchunk. simpl. by rewrite length_string_of_list_ascii.
  - intros Hempty. rewrite Hempty in Htexts.
    by apply fmap_nil_inv in Htexts.
Qed.

Lemma splitter_chunks_within_size_witness :
  Forall (fun d => String.length (pageContent d) <= 4)
         (chunksOf (TextSplitter.splitText TextSplitter.example)
            (Some {| path := "notes.md"; content := "A. B. C." |}))
  /\ ("A. B. C." = EmptyString ->
      chunksOf (TextSplitter.splitText TextSplitter.example)
        (Some {| path := "notes.md"; content := "A. B. C." |}) = []).
Proof.
  assert (Hc : TextSplitter.construct TextSplitter.example
               = TextSplitter.Constructed
                   (TextSplitter.splitText TextSplitter.example))
    by reflexivity.
  assert (Hrun : processFile (TextSplitter.splitText TextSplitter.example)
                   (Some {| path := "notes.md"; content := "A. B. C." |})
                   initial
                 = (Return (chunksOf
                              (TextSplitter.splitText TextSplitter.example)
                              (Some {| path := "notes.md";
                                       content := "A. B. C." |})),
                    (processFile (TextSplitter.splitText TextSplitter.example)
                       (Some {| path := "notes.md"; content := "A. B. C." |})
                       initial).2))
    by reflexivity.
  exact (splitter_chunks_within_size TextSplitter.example
           (TextSplitter.splitText TextSplitter.example)
           {| path := "notes.md"; content := "A. B. C." |} initial
           _ _ Hc Hrun).
Defined.
